(** * diffiew: the line and token diff engine of [src/lib/diff.ts]

    A shallow embedding of [computeDiff], [computeCharDiff] and
    [enhanceWithCharDiffs], together with the properties the specification
    states about them.

    Modelling conventions.
    - A JavaScript string is the list of its UTF-16 code units ([jsstring]).
    - An array is a list; [arr[i]] is the list lookup [arr !! i], whose
      [None] stands for JavaScript's [undefined] out of range.
    - An optional field of an object is an [option].
    - The [Map] from line text to positions is a [gmap].
    - A [while] loop is the iteration of its body under a fuel bound; the
      loop returns [None] when the fuel runs out before the condition turns
      false.  The top-level functions pass a fuel that is proved sufficient.
    - Line numbers and indices are natural numbers (the source only counts
      upwards from 0 or 1 in steps of one). *)

From Stdlib Require Import Ascii String.
From stdpp Require Import base option list sorting gmap.

Open Scope nat_scope.

(** ** Strings *)

Abbreviation jsstring := (list N).

Definition LF : N := 10%N.
Definition CR : N := 13%N.

(** The code units of an ASCII literal. *)
Definition js (s : string) : jsstring :=
  List.map N_of_ascii (list_ascii_of_string s).

(** The class [\s] of ECMAScript regular expressions (WhiteSpace and
    LineTerminator code points); [\S] is its complement. *)
Definition is_whitespace (c : N) : bool :=
  ((9 <=? c) && (c <=? 13) || (c =? 32) || (c =? 160) || (c =? 5760)
   || (8192 <=? c) && (c <=? 8202) || (c =? 8232) || (c =? 8233)
   || (c =? 8239) || (c =? 8287) || (c =? 12288) || (c =? 65279))%N.

(** [text.replace(/\r\n?/g, "\n")] *)
Fixpoint normalizeNewlines (text : jsstring) : jsstring :=
  match text with
  | [] => []
  | c :: rest =>
      if (c =? CR)%N then
        LF :: match rest with
              | d :: rest' =>
                  if (d =? LF)%N then normalizeNewlines rest'
                  else normalizeNewlines rest
              | [] => normalizeNewlines rest
              end
      else c :: normalizeNewlines rest
  end.

(** [text.split("\n")]: always at least one piece. *)
Fixpoint split_LF (text : jsstring) : list jsstring :=
  match text with
  | [] => [[]]
  | c :: rest =>
      if (c =? LF)%N then [] :: split_LF rest
      else match split_LF rest with
           | piece :: pieces => (c :: piece) :: pieces
           | [] => [[c]]
           end
  end.

Definition splitLines (text : jsstring) : list jsstring :=
  if bool_decide (length text = 0) then [] else split_LF text.

(** ** While loops *)

Section While.
Context {St : Type} (cond : St → bool) (body : St → St).

Fixpoint while (fuel : nat) (s : St) : option St :=
  if cond s then
    match fuel with
    | 0 => None
    | S fuel' => while fuel' (body s)
    end
  else Some s.
End While.

(** ** Records *)

Inductive LineType := Equal | Insert | Delete | Modify.

Inductive SpanType := SEqual | SInsert | SDelete.

Record CharDiff := mkCharDiff { span_type : SpanType; text : jsstring }.

Record DiffLine := mkDiffLine {
  type : LineType;
  leftLine : option jsstring;
  rightLine : option jsstring;
  leftLineNumber : option nat;
  rightLineNumber : option nat;
  leftCharDiffs : option (list CharDiff);
  rightCharDiffs : option (list CharDiff)
}.

Global Instance LineType_eq_dec : EqDecision LineType.
Proof. solve_decision. Defined.
Global Instance SpanType_eq_dec : EqDecision SpanType.
Proof. solve_decision. Defined.

(** The four object literals that [computeDiff] pushes. *)
Definition insertRecord (line : option jsstring) (num : nat) : DiffLine :=
  mkDiffLine Insert None line None (Some num) None None.
Definition deleteRecord (line : option jsstring) (num : nat) : DiffLine :=
  mkDiffLine Delete line None (Some num) None None None.
Definition equalRecord (l r : option jsstring) (ln rn : nat) : DiffLine :=
  mkDiffLine Equal l r (Some ln) (Some rn) None None.
Definition modifyRecord (l r : option jsstring) (ln rn : nat) : DiffLine :=
  mkDiffLine Modify l r (Some ln) (Some rn) None None.

(** ** computeDiff *)

(** One callback of [rightLines.forEach]: create the bucket when the line
    is new, then push the index on it. *)
Definition recordLine (m : gmap jsstring (list nat)) (idx : nat)
    (line : jsstring) : gmap jsstring (list nat) :=
  let m1 := match m !! line with
            | None => <[line := []]> m
            | Some _ => m
            end in
  <[line := default [] (m1 !! line) ++ [idx]]> m1.

Fixpoint buildLineMap_from (idx : nat) (lines : list jsstring)
    (m : gmap jsstring (list nat)) : gmap jsstring (list nat) :=
  match lines with
  | [] => m
  | line :: rest => buildLineMap_from (S idx) rest (recordLine m idx line)
  end.

Definition buildLineMap (lines : list jsstring) : gmap jsstring (list nat) :=
  buildLineMap_from 0 lines ∅.

Record DiffState := mkDiffState {
  leftIndex : nat;
  rightIndex : nat;
  leftLineNum : nat;
  rightLineNum : nat;
  result : list DiffLine
}.

Section ComputeDiff.
Variables leftLines rightLines : list jsstring.
Variable rightLineMap : gmap jsstring (list nat).

Definition diff_cond (st : DiffState) : bool :=
  bool_decide (leftIndex st < length leftLines)
  || bool_decide (rightIndex st < length rightLines).

Definition pushInsert (st : DiffState) : DiffState :=
  mkDiffState (leftIndex st) (S (rightIndex st))
    (leftLineNum st) (S (rightLineNum st))
    (result st ++ [insertRecord (rightLines !! rightIndex st) (rightLineNum st)]).

Definition pushDelete (st : DiffState) : DiffState :=
  mkDiffState (S (leftIndex st)) (rightIndex st)
    (S (leftLineNum st)) (rightLineNum st)
    (result st ++ [deleteRecord (leftLines !! leftIndex st) (leftLineNum st)]).

Definition pushEqual (st : DiffState) : DiffState :=
  mkDiffState (S (leftIndex st)) (S (rightIndex st))
    (S (leftLineNum st)) (S (rightLineNum st))
    (result st ++ [equalRecord (leftLines !! leftIndex st)
                     (rightLines !! rightIndex st)
                     (leftLineNum st) (rightLineNum st)]).

Definition pushModify (st : DiffState) : DiffState :=
  mkDiffState (S (leftIndex st)) (S (rightIndex st))
    (S (leftLineNum st)) (S (rightLineNum st))
    (result st ++ [modifyRecord (leftLines !! leftIndex st)
                     (rightLines !! rightIndex st)
                     (leftLineNum st) (rightLineNum st)]).

(** [while (rightIndex < bestMatch) { push insert }] runs
    [bestMatch - rightIndex] times; likewise for the deleting loop. *)
Fixpoint insertUntil (count : nat) (st : DiffState) : DiffState :=
  match count with
  | 0 => st
  | S count' => insertUntil count' (pushInsert st)
  end.

Fixpoint deleteUntil (count : nat) (st : DiffState) : DiffState :=
  match count with
  | 0 => st
  | S count' => deleteUntil count' (pushDelete st)
  end.

(** The scan over [possibleMatches]; the accumulator is
    [(bestMatch, bestDistance)], where [None] encodes the initial [-1]
    of [bestMatch] and the initial [Infinity] of [bestDistance]. *)
Definition bestMatchStep (rightIdx : nat) (acc : option nat * option nat)
    (matchIdx : nat) : option nat * option nat :=
  if bool_decide (rightIdx ≤ matchIdx) then
    let distance := matchIdx - rightIdx in
    if match acc.2 with
       | None => true
       | Some bestDistance => bool_decide (distance < bestDistance)
       end
    then (Some matchIdx, Some distance)
    else acc
  else acc.

Definition findBestMatch (possibleMatches : list nat) (rightIdx : nat)
    : option nat :=
  (foldl (bestMatchStep rightIdx) (None, None) possibleMatches).1.

(** [for (i = start; i < bound; i++) if (leftLines[i] === target)
    { leftMatch = i; break; }], with [count = bound - start]; [None]
    encodes [-1]. *)
Fixpoint findLeftMatch (target : option jsstring) (i count : nat)
    : option nat :=
  match count with
  | 0 => None
  | S count' =>
      if bool_decide (leftLines !! i = target) then Some i
      else findLeftMatch target (S i) count'
  end.

(** [m !== -1 && m < bound] for a search result [m]. *)
Definition found_below (m : option nat) (bound : nat) : bool :=
  match m with
  | Some i => bool_decide (i < bound)
  | None => false
  end.

Definition diff_body (st : DiffState) : DiffState :=
  if bool_decide (length leftLines ≤ leftIndex st) then pushInsert st
  else if bool_decide (length rightLines ≤ rightIndex st) then pushDelete st
  else if bool_decide (leftLines !! leftIndex st = rightLines !! rightIndex st)
  then pushEqual st
  else
    let currentLeft := leftLines !! leftIndex st in
    let possibleMatches :=
      default [] (currentLeft ≫= λ line, rightLineMap !! line) in
    let bestMatch := findBestMatch possibleMatches (rightIndex st) in
    let currentRight := rightLines !! rightIndex st in
    let leftMatch :=
      findLeftMatch currentRight (leftIndex st + 1)
        (Nat.min (leftIndex st + 20) (length leftLines) - (leftIndex st + 1)) in
    if bool_decide (bestMatch = Some (rightIndex st + 1))
       && bool_decide (leftMatch = None)
    then pushInsert st
    else if bool_decide (leftMatch = Some (leftIndex st + 1))
            && bool_decide (bestMatch = None)
    then pushDelete st
    else if found_below bestMatch (rightIndex st + 10)
    then insertUntil (default 0 bestMatch - rightIndex st) st
    else if found_below leftMatch (leftIndex st + 10)
    then deleteUntil (default 0 leftMatch - leftIndex st) st
    else pushModify st.
End ComputeDiff.

Definition diff_init : DiffState := mkDiffState 0 0 1 1 [].

Definition computeDiff_fuel (fuel : nat) (left right : jsstring)
    : option (list DiffLine) :=
  let leftLines := splitLines (normalizeNewlines left) in
  let rightLines := splitLines (normalizeNewlines right) in
  let rightLineMap := buildLineMap rightLines in
  result <$> while (diff_cond leftLines rightLines)
               (diff_body leftLines rightLines rightLineMap) fuel diff_init.

Definition computeDiff (left right : jsstring) : option (list DiffLine) :=
  computeDiff_fuel
    (length (splitLines (normalizeNewlines left))
     + length (splitLines (normalizeNewlines right))) left right.

(** ** tokenize *)

(** Length of the longest prefix whose elements all satisfy [p]. *)
Fixpoint prefix_len (p : N → bool) (l : jsstring) : nat :=
  match l with
  | c :: rest => if p c then S (prefix_len p rest) else 0
  | [] => 0
  end.

(** [wordRegex.exec(text)] for the global regex [/\S+/g] whose [lastIndex]
    is [from]: the first maximal run of non-whitespace code units at or
    after [from], as [(match.index, match[0])], or [None] for [null]. *)
Definition exec_word (text : jsstring) (from : nat) : option (nat * jsstring) :=
  let rest := drop from text in
  let skipped := prefix_len is_whitespace rest in
  let tail := drop skipped rest in
  let word := take (prefix_len (λ c, negb (is_whitespace c)) tail) tail in
  if bool_decide (word = []) then None else Some (from + skipped, word).

(** [text.substring(start, end)]: both indices are clamped to the length
    and swapped when out of order. *)
Definition substring (text : jsstring) (start stop : nat) : jsstring :=
  let s := Nat.min (Nat.min start stop) (length text) in
  let e := Nat.min (Nat.max start stop) (length text) in
  take (e - s) (drop s text).

Record TokState := mkTokState {
  lastIndex : nat;
  tokens : list jsstring
}.

Definition tok_cond (text : jsstring) (st : TokState) : bool :=
  bool_decide (is_Some (exec_word text (lastIndex st))).

Definition tok_body (text : jsstring) (st : TokState) : TokState :=
  match exec_word text (lastIndex st) with
  | Some (index, word) =>
      let tokens1 :=
        if bool_decide (lastIndex st < index)
        then tokens st ++ [substring text (lastIndex st) index]
        else tokens st in
      mkTokState (index + length word) (tokens1 ++ [word])
  | None => st
  end.

Definition tokenize_fuel (fuel : nat) (text : jsstring)
    : option (list jsstring) :=
  st ← while (tok_cond text) (tok_body text) fuel (mkTokState 0 []);
  let tokens2 :=
    if bool_decide (lastIndex st < length text)
    then tokens st ++ [substring text (lastIndex st) (length text)]
    else tokens st in
  Some (if bool_decide (0 < length tokens2) then tokens2 else [text]).

Definition tokenize (text : jsstring) : option (list jsstring) :=
  tokenize_fuel (length text) text.

(** ** computeCharDiff *)

(** The pattern the source repeats at every emission: extend the text of
    the last span when it has the wanted type, push a new span otherwise. *)
Definition appendCharDiff (arr : list CharDiff) (ty : SpanType)
    (tok : jsstring) : list CharDiff :=
  match last arr with
  | Some d =>
      if bool_decide (span_type d = ty)
      then alter (λ d', mkCharDiff (span_type d') (text d' ++ tok))
             (length arr - 1) arr
      else arr ++ [mkCharDiff ty tok]
  | None => arr ++ [mkCharDiff ty tok]
  end.

(** [matched] is not a variable of the source: it records the index pairs
    at which the loop takes its [Tokens match] branch. *)
Record CharState := mkCharState {
  leftIdx : nat;
  rightIdx : nat;
  res_left : list CharDiff;
  res_right : list CharDiff;
  matched : list (nat * nat)
}.

Section ComputeCharDiff.
Variables leftTokens rightTokens : list jsstring.

(** A token read that the enclosing branch has guarded to be in range. *)
Definition tokenAt (toks : list jsstring) (i : nat) : jsstring :=
  default [] (toks !! i).

Definition char_cond (st : CharState) : bool :=
  bool_decide (leftIdx st < length leftTokens)
  || bool_decide (rightIdx st < length rightTokens).

Definition emitInsert (st : CharState) : CharState :=
  mkCharState (leftIdx st) (S (rightIdx st)) (res_left st)
    (appendCharDiff (res_right st) SInsert (tokenAt rightTokens (rightIdx st)))
    (matched st).

Definition emitDelete (st : CharState) : CharState :=
  mkCharState (S (leftIdx st)) (rightIdx st)
    (appendCharDiff (res_left st) SDelete (tokenAt leftTokens (leftIdx st)))
    (res_right st) (matched st).

Definition emitEqual (st : CharState) : CharState :=
  mkCharState (S (leftIdx st)) (S (rightIdx st))
    (appendCharDiff (res_left st) SEqual (tokenAt leftTokens (leftIdx st)))
    (appendCharDiff (res_right st) SEqual (tokenAt rightTokens (rightIdx st)))
    (matched st ++ [(leftIdx st, rightIdx st)]).

Definition emitModify (st : CharState) : CharState :=
  mkCharState (S (leftIdx st)) (S (rightIdx st))
    (appendCharDiff (res_left st) SDelete (tokenAt leftTokens (leftIdx st)))
    (appendCharDiff (res_right st) SInsert (tokenAt rightTokens (rightIdx st)))
    (matched st).

(** The look-ahead [for] loop, [count] iterations left; [None] when it
    ends with [foundMatch] still false. *)
Fixpoint lookAheadLoop (count lookAhead : nat) (st : CharState)
    : option CharState :=
  match count with
  | 0 => None
  | S count' =>
      if bool_decide (leftIdx st + lookAhead < length leftTokens)
         && bool_decide (leftTokens !! (leftIdx st + lookAhead)
                         = rightTokens !! rightIdx st)
      then Some (emitDelete st)
      else if bool_decide (rightIdx st + lookAhead < length rightTokens)
              && bool_decide (leftTokens !! leftIdx st
                              = rightTokens !! (rightIdx st + lookAhead))
      then Some (emitInsert st)
      else lookAheadLoop count' (S lookAhead) st
  end.

Definition char_body (st : CharState) : CharState :=
  if bool_decide (length leftTokens ≤ leftIdx st) then emitInsert st
  else if bool_decide (length rightTokens ≤ rightIdx st) then emitDelete st
  else if bool_decide (leftTokens !! leftIdx st = rightTokens !! rightIdx st)
  then emitEqual st
  else
    let maxLookAhead :=
      Nat.min 10 (Nat.max (length leftTokens - leftIdx st)
                          (length rightTokens - rightIdx st)) in
    match lookAheadLoop maxLookAhead 1 st with
    | Some st' => st'
    | None => emitModify st
    end.
End ComputeCharDiff.

Definition char_init : CharState := mkCharState 0 0 [] [] [].

Definition charDiff_run (leftTokens rightTokens : list jsstring)
    : option CharState :=
  while (char_cond leftTokens rightTokens) (char_body leftTokens rightTokens)
    (length leftTokens + length rightTokens) char_init.

Definition computeCharDiff_state (left right : jsstring) : option CharState :=
  leftTokens ← tokenize left;
  rightTokens ← tokenize right;
  charDiff_run leftTokens rightTokens.

Definition computeCharDiff (left right : jsstring)
    : option (list CharDiff * list CharDiff) :=
  st ← computeCharDiff_state left right;
  Some (res_left st, res_right st).

(** ** enhanceWithCharDiffs *)

(** Truthiness of an optional string: [undefined] and the empty string are
    falsy. *)
Definition truthy (s : option jsstring) : bool :=
  match s with
  | Some (_ :: _) => true
  | _ => false
  end.

(** The guard [line.type === "modify" && line.leftLine && line.rightLine]. *)
Definition enhance_guard (line : DiffLine) : bool :=
  bool_decide (type line = Modify) && truthy (leftLine line)
  && truthy (rightLine line).

Definition enhanceLine (line : DiffLine) : option DiffLine :=
  if enhance_guard line
  then
    charDiff ← computeCharDiff (default [] (leftLine line))
                               (default [] (rightLine line));
    Some (mkDiffLine (type line) (leftLine line) (rightLine line)
            (leftLineNumber line) (rightLineNumber line)
            (Some charDiff.1) (Some charDiff.2))
  else Some line.

Definition enhanceWithCharDiffs (diffLines : list DiffLine)
    : option (list DiffLine) :=
  mapM enhanceLine diffLines.

(** * Specification vocabulary *)

(** Every position stored under a line holds that line. *)
Definition map_ok (lines : list jsstring) (m : gmap jsstring (list nat)) : Prop :=
  ∀ line idxs i, m !! line = Some idxs → i ∈ idxs → lines !! i = Some line.

(** What a record says about the left input: its line number with its
    text, when it carries a left line number. *)
Definition leftSide (r : DiffLine) : option (nat * option jsstring) :=
  n ← leftLineNumber r; Some (n, leftLine r).

Definition rightSide (r : DiffLine) : option (nat * option jsstring) :=
  n ← rightLineNumber r; Some (n, rightLine r).

(** The lines of one input, each with its 1-based number. *)
Definition numbered (lines : list jsstring) : list (nat * option jsstring) :=
  imap (λ i line, (S i, Some line)) lines.

(** Equal records pair equal texts, Modify records different ones. *)
Definition record_ok (r : DiffLine) : Prop :=
  (type r = Equal → leftLine r = rightLine r)
  ∧ (type r = Modify → leftLine r ≠ rightLine r).

(** A record as [computeDiff] builds it: a text only with its line number,
    and no span fields. *)
Definition fresh_record (r : DiffLine) : Prop :=
  (leftLineNumber r = None → leftLine r = None)
  ∧ (rightLineNumber r = None → rightLine r = None)
  ∧ leftCharDiffs r = None ∧ rightCharDiffs r = None.

(** The invariant of the alignment loop. *)
Record DiffInv (leftLines rightLines : list jsstring) (st : DiffState)
    : Prop := mkDiffInv {
  inv_left_le : leftIndex st ≤ length leftLines;
  inv_right_le : rightIndex st ≤ length rightLines;
  inv_leftNum : leftLineNum st = S (leftIndex st);
  inv_rightNum : rightLineNum st = S (rightIndex st);
  inv_left_cov :
    omap leftSide (result st) = numbered (take (leftIndex st) leftLines);
  inv_right_cov :
    omap rightSide (result st) = numbered (take (rightIndex st) rightLines);
  inv_records : Forall record_ok (result st);
  inv_fresh : Forall fresh_record (result st)
}.

(** No index moves back, and at least one moves forward. *)
Definition diff_advances (st st' : DiffState) : Prop :=
  leftIndex st ≤ leftIndex st' ∧ rightIndex st ≤ rightIndex st'
  ∧ (leftIndex st < leftIndex st' ∨ rightIndex st < rightIndex st').

(** The number of lines still to be consumed. *)
Definition diff_measure (leftLines rightLines : list jsstring)
    (st : DiffState) : nat :=
  (length leftLines - leftIndex st) + (length rightLines - rightIndex st).

(** The invariant of the tokenizer loop. *)
Definition TokInv (text : jsstring) (st : TokState) : Prop :=
  lastIndex st ≤ length text
  ∧ concat (tokens st) = take (lastIndex st) text.

(** The text a span sequence stands for. *)
Definition span_text (spans : list CharDiff) : jsstring :=
  concat (text <$> spans).

(** No two consecutive spans have the same kind. *)
Definition no_adjacent_same (spans : list CharDiff) : Prop :=
  ∀ i a b, spans !! i = Some a → spans !! S i = Some b →
    span_type a ≠ span_type b.

(** The text of the Equal spans of a sequence. *)
Definition equal_text (spans : list CharDiff) : jsstring :=
  span_text (filter (λ d, span_type d = SEqual) spans).

(** The pair [(i, j)] is in range and [A[i] = B[j]]. *)
Definition pair_matches (A B : list jsstring) (p : nat * nat) : Prop :=
  is_Some (A !! p.1) ∧ A !! p.1 = B !! p.2.

Definition pair_before (p q : nat * nat) : Prop := p.1 < q.1 ∧ p.2 < q.2.

(** Index pairs strictly increasing on both sides with equal elements at
    every pair. *)
Definition common_subsequence (A B : list jsstring) (pairs : list (nat * nat))
    : Prop :=
  Forall (pair_matches A B) pairs ∧ StronglySorted pair_before pairs.

(** A common subsequence of maximum length. *)
Definition longest_common_subsequence (A B : list jsstring)
    (pairs : list (nat * nat)) : Prop :=
  common_subsequence A B pairs
  ∧ ∀ pairs', common_subsequence A B pairs' → length pairs' ≤ length pairs.

(** The invariant of the token loop. *)
Record CharInv (leftTokens rightTokens : list jsstring) (st : CharState)
    : Prop := mkCharInv {
  ci_left_le : leftIdx st ≤ length leftTokens;
  ci_right_le : rightIdx st ≤ length rightTokens;
  ci_left_text : span_text (res_left st) = concat (take (leftIdx st) leftTokens);
  ci_right_text :
    span_text (res_right st) = concat (take (rightIdx st) rightTokens);
  ci_left_adj : no_adjacent_same (res_left st);
  ci_right_adj : no_adjacent_same (res_right st);
  ci_matched : common_subsequence leftTokens rightTokens (matched st);
  ci_behind :
    Forall (λ p, p.1 < leftIdx st ∧ p.2 < rightIdx st) (matched st);
  ci_left_equal :
    equal_text (res_left st)
    = concat (omap (λ p, leftTokens !! p.1) (matched st));
  ci_right_equal :
    equal_text (res_right st)
    = concat (omap (λ p, rightTokens !! p.2) (matched st))
}.

(** No index moves back, and at least one moves forward. *)
Definition char_advances (st st' : CharState) : Prop :=
  leftIdx st ≤ leftIdx st' ∧ rightIdx st ≤ rightIdx st'
  ∧ (leftIdx st < leftIdx st' ∨ rightIdx st < rightIdx st').

(** All fields but the two span fields agree. *)
Definition same_line_fields (r r' : DiffLine) : Prop :=
  type r' = type r ∧ leftLine r' = leftLine r ∧ rightLine r' = rightLine r
  ∧ leftLineNumber r' = leftLineNumber r
  ∧ rightLineNumber r' = rightLineNumber r.

(** Reconstruction: the record carries both span sequences and the
    concatenation of the span texts of each side is the line of that side. *)
Definition modify_reconstructs (r : DiffLine) : Prop :=
  ∃ ls rs, leftCharDiffs r = Some ls ∧ rightCharDiffs r = Some rs
    ∧ leftLine r = Some (span_text ls) ∧ rightLine r = Some (span_text rs).

(** * Further vocabulary *)

(** [lines.join("\n")] *)
Fixpoint join_LF (lines : list jsstring) : jsstring :=
  match lines with
  | [] => []
  | line :: rest =>
      match rest with
      | [] => line
      | _ :: _ => line ++ LF :: join_LF rest
      end
  end.

(** A run of whitespace code units, and a run of non-whitespace ones. *)
Definition whitespace_run (tok : jsstring) : Prop :=
  Forall (λ c, is_whitespace c = true) tok.

Definition word_run (tok : jsstring) : Prop :=
  Forall (λ c, is_whitespace c = false) tok.

(** Consecutive tokens are of opposite kinds. *)
Definition tokens_alternate (toks : list jsstring) : Prop :=
  ∀ i a b, toks !! i = Some a → toks !! S i = Some b →
    (word_run a ∧ whitespace_run b) ∨ (whitespace_run a ∧ word_run b).

(** The second invariant of the tokenizer loop: the tokens are non-empty
    runs of alternating kinds, the last one is a word, and the word ends
    where the text ends or whitespace begins. *)
Definition TokRuns (text : jsstring) (st : TokState) : Prop :=
  TokInv text st
  ∧ Forall (λ tok, tok ≠ [] ∧ (whitespace_run tok ∨ word_run tok)) (tokens st)
  ∧ tokens_alternate (tokens st)
  ∧ ((tokens st = [] ∧ lastIndex st = 0)
     ∨ (∃ w, last (tokens st) = Some w ∧ word_run w
          ∧ (lastIndex st = length text
             ∨ ∃ c, text !! lastIndex st = Some c ∧ is_whitespace c = true))).

(** What a record of each kind carries. *)
Definition record_shape (r : DiffLine) : Prop :=
  match type r with
  | Equal | Modify =>
      is_Some (leftLine r) ∧ is_Some (rightLine r)
      ∧ is_Some (leftLineNumber r) ∧ is_Some (rightLineNumber r)
  | Insert =>
      leftLine r = None ∧ leftLineNumber r = None
      ∧ is_Some (rightLine r) ∧ is_Some (rightLineNumber r)
  | Delete =>
      is_Some (leftLine r) ∧ is_Some (leftLineNumber r)
      ∧ rightLine r = None ∧ rightLineNumber r = None
  end.

(** Line [i] of the left input does not occur among the ten right lines
    from [j] on, and line [j] of the right input does not occur among the
    nine left lines after [i] (0-based). *)
Definition no_match_nearby (leftLines rightLines : list jsstring)
    (i j : nat) : Prop :=
  (∀ k, j ≤ k < j + 10 → rightLines !! k ≠ leftLines !! i)
  ∧ (∀ k, i < k < i + 10 → leftLines !! k ≠ rightLines !! j).

Definition modify_far (leftLines rightLines : list jsstring) (r : DiffLine)
    : Prop :=
  type r = Modify →
  ∃ i j, leftLineNumber r = Some (S i) ∧ rightLineNumber r = Some (S j)
    ∧ no_match_nearby leftLines rightLines i j.

(** What the position map holds after the first [idx] lines. *)
Definition map_exact (lines : list jsstring) (idx : nat)
    (m : gmap jsstring (list nat)) : Prop :=
  ∀ line,
    match m !! line with
    | Some idxs =>
        idxs ≠ [] ∧ StronglySorted lt idxs
        ∧ ∀ i, i ∈ idxs ↔ i < idx ∧ lines !! i = Some line
    | None => ∀ i, i < idx → lines !! i ≠ Some line
    end.

(** The third invariant of the alignment loop. *)
Definition DiffShape (leftLines rightLines : list jsstring) (st : DiffState)
    : Prop :=
  DiffInv leftLines rightLines st
  ∧ Forall record_shape (result st)
  ∧ Forall (modify_far leftLines rightLines) (result st)
  ∧ leftIndex st ≤ length (result st)
  ∧ rightIndex st ≤ length (result st)
  ∧ length (result st) ≤ leftIndex st + rightIndex st.

(** The records of an input taken whole as equal, deleted or inserted
    lines. *)
Definition equalRecords (lines : list jsstring) : list DiffLine :=
  imap (λ i line, equalRecord (Some line) (Some line) (S i) (S i)) lines.

Definition deleteRecords (lines : list jsstring) : list DiffLine :=
  imap (λ i line, deleteRecord (Some line) (S i)) lines.

Definition insertRecords (lines : list jsstring) : list DiffLine :=
  imap (λ i line, insertRecord (Some line) (S i)) lines.

(** The second invariant of the token loop: the kinds each side can hold,
    and no empty span when no token is empty. *)
Definition CharKinds (leftTokens rightTokens : list jsstring)
    (st : CharState) : Prop :=
  CharInv leftTokens rightTokens st
  ∧ Forall (λ d, span_type d ≠ SInsert) (res_left st)
  ∧ Forall (λ d, span_type d ≠ SDelete) (res_right st)
  ∧ (Forall (λ tok, tok ≠ []) leftTokens →
     Forall (λ d, text d ≠ []) (res_left st))
  ∧ (Forall (λ tok, tok ≠ []) rightTokens →
     Forall (λ d, text d ≠ []) (res_right st)).

(** ** The diff editor ([src/components/diff-editor.tsx]) *)

(** The memoized [diffLines] of the component. *)
Definition editorDiffLines (left right : jsstring) : option (list DiffLine) :=
  diff ← computeDiff left right;
  enhanceWithCharDiffs diff.

Record DiffStats := mkDiffStats { added : nat; removed : nat; modified : nat }.

Definition diffStats (diffLines : list DiffLine) : DiffStats :=
  mkDiffStats
    (length (filter (λ l, type l = Insert) diffLines))
    (length (filter (λ l, type l = Delete) diffLines))
    (length (filter (λ l, type l = Modify) diffLines)).

(** [renderCharDiff]: one [<span>] per char diff, given by its class name
    and its text. *)
Definition renderCharDiff (charDiffs : list CharDiff) (isLeft : bool)
    : list (string * jsstring) :=
  (λ charDiff,
     (if bool_decide (span_type charDiff = SDelete) && isLeft
      then "bg-rose-500/40 dark:bg-rose-400/30 rounded-sm"%string
      else if bool_decide (span_type charDiff = SInsert) && negb isLeft
      then "bg-emerald-500/40 dark:bg-emerald-400/30 rounded-sm"%string
      else EmptyString,
      text charDiff)) <$> charDiffs.

(** What [renderDiffRow] puts in the content cell of one side: the spans
    of the char diffs, the plain line, or the blank placeholder when the
    line does not exist on that side. *)
Inductive CellContent :=
  | SpanContent (spans : list (string * jsstring))
  | TextContent (line : jsstring)
  | Placeholder.

Definition leftContent (line : DiffLine) : CellContent :=
  match leftLine line with
  | Some t =>
      match leftCharDiffs line with
      | Some charDiffs => SpanContent (renderCharDiff charDiffs true)
      | None => TextContent t
      end
  | None => Placeholder
  end.

Definition rightContent (line : DiffLine) : CellContent :=
  match rightLine line with
  | Some t =>
      match rightCharDiffs line with
      | Some charDiffs => SpanContent (renderCharDiff charDiffs false)
      | None => TextContent t
      end
  | None => Placeholder
  end.

(** The gutter cells: [hasLeft ? line.leftLineNumber : ""]. *)
Definition leftGutter (line : DiffLine) : option nat :=
  match leftLine line with
  | Some _ => leftLineNumber line
  | None => None
  end.

Definition rightGutter (line : DiffLine) : option nat :=
  match rightLine line with
  | Some _ => rightLineNumber line
  | None => None
  end.

(** The text a content cell shows; the placeholder shows none. *)
Definition content_text (c : CellContent) : option jsstring :=
  match c with
  | SpanContent spans => Some (concat (spans.*2))
  | TextContent t => Some t
  | Placeholder => None
  end.

(** What the editor relies on in a record of its [diffLines]: the fields
    of its kind, texts that agree with the kind, and span sequences that
    reconstruct the line of their side with the kinds of that side. *)
Definition editor_record (r : DiffLine) : Prop :=
  record_shape r ∧ record_ok r
  ∧ (∀ ls, leftCharDiffs r = Some ls →
       leftLine r = Some (span_text ls)
       ∧ Forall (λ d, span_type d ≠ SInsert) ls)
  ∧ (∀ rs, rightCharDiffs r = Some rs →
       rightLine r = Some (span_text rs)
       ∧ Forall (λ d, span_type d ≠ SDelete) rs).


(** * The patience-diff variant of the engine

    The second part of [src/App.tsx] holds a variant of the engine that
    aligns by a table of longest-common-subsequence lengths and scores
    line pairs by edit distance.  Its table-driven functions and its
    [computeCharDiff] are embedded here; [tokenize] and [appendCharDiff]
    are the same there as above. *)

Module Patience.

(** A table of numbers is an array of rows.  [dp_get] is the read
    [dp[i][j]] and [dp_set] the write [dp[i][j] = v] inside the table;
    every access of the source is in range. *)
Definition dp_get (dp : list (list nat)) (i j : nat) : nat :=
  default 0 (dp !! i ≫= λ row, row !! j).

Definition dp_set (dp : list (list nat)) (i j v : nat) : list (list nat) :=
  alter (λ row, <[j := v]> row) i dp.

(** The state of a backtracking loop: the variables [i], [j] and
    [result]. *)
Record BackState := mkBackState {
  bt_i : nat;
  bt_j : nat;
  bt_result : list (nat * nat)
}.

Section LCS.
Variables left right : list jsstring.

(** The body of the two nested [for] loops that fill the table. *)
Definition lcs_cell (dp : list (list nat)) (i j : nat) : list (list nat) :=
  if bool_decide (left !! (i - 1) = right !! (j - 1))
  then dp_set dp i j (dp_get dp (i - 1) (j - 1) + 1)
  else dp_set dp i j (Nat.max (dp_get dp (i - 1) j) (dp_get dp i (j - 1))).

Definition lcs_row (dp : list (list nat)) (i : nat) : list (list nat) :=
  foldl (λ dp j, lcs_cell dp i j) dp (seq 1 (length right)).

(** [Array.from({ length: m + 1 }, () => Array(n + 1).fill(0))], then the
    loops [for i = 1..m], [for j = 1..n]. *)
Definition lcs_table : list (list nat) :=
  foldl lcs_row
    (replicate (S (length left)) (replicate (S (length right)) 0))
    (seq 1 (length left)).

Definition back_cond (st : BackState) : bool :=
  bool_decide (0 < bt_i st) && bool_decide (0 < bt_j st).

(** One iteration of the backtracking loop of [tokenLCS];
    [result.unshift] puts the pair in front. *)
Definition tokenLCS_body (dp : list (list nat)) (st : BackState) : BackState :=
  let i := bt_i st in
  let j := bt_j st in
  if bool_decide (left !! (i - 1) = right !! (j - 1))
  then mkBackState (i - 1) (j - 1) ((i - 1, j - 1) :: bt_result st)
  else if bool_decide (dp_get dp i (j - 1) < dp_get dp (i - 1) j)
  then mkBackState (i - 1) j (bt_result st)
  else mkBackState i (j - 1) (bt_result st).

Definition tokenLCS : option (list (nat * nat)) :=
  if bool_decide (length left = 0) || bool_decide (length right = 0)
  then Some []
  else
    bt_result <$> while back_cond (tokenLCS_body lcs_table)
                    (length left + length right)
                    (mkBackState (length left) (length right) []).

(** One iteration of the backtracking loop of [standardLCS], which prefers
    the earlier match on the right when the length allows it. *)
Definition standardLCS_body (dp : list (list nat)) (st : BackState)
    : BackState :=
  let i := bt_i st in
  let j := bt_j st in
  if bool_decide (left !! (i - 1) = right !! (j - 1))
  then
    if bool_decide (1 < j) && bool_decide (dp_get dp i (j - 1) = dp_get dp i j)
    then mkBackState i (j - 1) (bt_result st)
    else mkBackState (i - 1) (j - 1) ((i - 1, j - 1) :: bt_result st)
  else if bool_decide (dp_get dp i (j - 1) ≤ dp_get dp (i - 1) j)
  then mkBackState (i - 1) j (bt_result st)
  else mkBackState i (j - 1) (bt_result st).

Definition standardLCS : option (list (nat * nat)) :=
  if bool_decide (length left = 0) || bool_decide (length right = 0)
  then Some []
  else
    bt_result <$> while back_cond (standardLCS_body lcs_table)
                    (length left + length right)
                    (mkBackState (length left) (length right) []).
End LCS.

(** The assignment [arr[k] = v] of the source's growing arrays: inside the
    array it overwrites, at its end it appends (every write of
    [levenshtein] is at an index up to the length). *)
Definition js_set {A} (arr : list A) (k : nat) (v : A) : list A :=
  if bool_decide (k < length arr) then <[k := v]> arr else arr ++ [v].

Section Levenshtein.
Variables a b : jsstring.

(** [matrix[i][j] = v] *)
Definition matrix_set (matrix : list (list nat)) (i j v : nat)
    : list (list nat) :=
  alter (λ row, js_set row j v) i matrix.

Definition lev_cell (matrix : list (list nat)) (i j : nat) : list (list nat) :=
  if bool_decide (b !! (i - 1) = a !! (j - 1))
  then matrix_set matrix i j (dp_get matrix (i - 1) (j - 1))
  else matrix_set matrix i j
         (Nat.min (Nat.min (dp_get matrix (i - 1) (j - 1) + 1)
                           (dp_get matrix i (j - 1) + 1))
                  (dp_get matrix (i - 1) j + 1)).

Definition lev_row (matrix : list (list nat)) (i : nat) : list (list nat) :=
  foldl (λ matrix j, lev_cell matrix i j) matrix (seq 1 (length a)).

(** The three loops: [matrix[i] = [i]], [matrix[0][j] = j], and the
    filling of the cells. *)
Definition lev_matrix : list (list nat) :=
  let matrix1 := foldl (λ matrix i, js_set matrix i [i]) []
                   (seq 0 (S (length b))) in
  let matrix2 := foldl (λ matrix j, matrix_set matrix 0 j j) matrix1
                   (seq 0 (S (length a))) in
  foldl lev_row matrix2 (seq 1 (length b)).

Definition levenshtein : nat :=
  if bool_decide (length a = 0) then length b
  else if bool_decide (length b = 0) then length a
  else dp_get lev_matrix (length b) (length a).
End Levenshtein.

(** The state of the span-building loop of this variant's
    [computeCharDiff]. *)
Record SpanState := mkSpanState {
  sp_leftIdx : nat;
  sp_rightIdx : nat;
  sp_lcsIdx : nat;
  sp_left : list CharDiff;
  sp_right : list CharDiff
}.

Section ComputeCharDiff.
Variables leftTokens rightTokens : list jsstring.
Variable lcs : list (nat * nat).

Definition span_cond (st : SpanState) : bool :=
  bool_decide (sp_leftIdx st < length leftTokens)
  || bool_decide (sp_rightIdx st < length rightTokens).

Definition emitEqual (st : SpanState) : SpanState :=
  mkSpanState (S (sp_leftIdx st)) (S (sp_rightIdx st)) (S (sp_lcsIdx st))
    (appendCharDiff (sp_left st) SEqual (tokenAt leftTokens (sp_leftIdx st)))
    (appendCharDiff (sp_right st) SEqual (tokenAt rightTokens (sp_rightIdx st))).

Definition emitDelete (st : SpanState) : SpanState :=
  mkSpanState (S (sp_leftIdx st)) (sp_rightIdx st) (sp_lcsIdx st)
    (appendCharDiff (sp_left st) SDelete (tokenAt leftTokens (sp_leftIdx st)))
    (sp_right st).

Definition emitInsert (st : SpanState) : SpanState :=
  mkSpanState (sp_leftIdx st) (S (sp_rightIdx st)) (sp_lcsIdx st)
    (sp_left st)
    (appendCharDiff (sp_right st) SInsert (tokenAt rightTokens (sp_rightIdx st))).

(** [while (leftIdx < leftBound) { ... }] runs [leftBound - leftIdx]
    times; likewise on the right. *)
Fixpoint deleteRun (count : nat) (st : SpanState) : SpanState :=
  match count with
  | 0 => st
  | S count' => deleteRun count' (emitDelete st)
  end.

Fixpoint insertRun (count : nat) (st : SpanState) : SpanState :=
  match count with
  | 0 => st
  | S count' => insertRun count' (emitInsert st)
  end.

Definition span_body (st : SpanState) : SpanState :=
  let nextLcs := lcs !! sp_lcsIdx st in
  if match nextLcs with
     | Some next =>
         bool_decide (sp_leftIdx st = next.1)
         && bool_decide (sp_rightIdx st = next.2)
     | None => false
     end
  then emitEqual st
  else
    let leftBound := from_option fst (length leftTokens) nextLcs in
    let rightBound := from_option snd (length rightTokens) nextLcs in
    let st1 := deleteRun (leftBound - sp_leftIdx st) st in
    insertRun (rightBound - sp_rightIdx st1) st1.
End ComputeCharDiff.

Definition computeCharDiff (left right : jsstring)
    : option (list CharDiff * list CharDiff) :=
  leftTokens ← tokenize left;
  rightTokens ← tokenize right;
  lcs ← tokenLCS leftTokens rightTokens;
  st ← while (span_cond leftTokens rightTokens)
         (span_body leftTokens rightTokens lcs)
         (length leftTokens + length rightTokens)
         (mkSpanState 0 0 0 [] []);
  Some (sp_left st, sp_right st).

End Patience.

(** The length of a longest common subsequence of the first [i] elements
    of [A] and the first [j] elements of [B]. *)
Fixpoint lcs_len (A B : list jsstring) (i j : nat) {struct i} : nat :=
  match i with
  | 0 => 0
  | S i' =>
      (fix row (j : nat) : nat :=
         match j with
         | 0 => 0
         | S j' =>
             if bool_decide (A !! i' = B !! j')
             then S (lcs_len A B i' j')
             else Nat.max (lcs_len A B i' (S j')) (row j')
         end) j
  end.

(** A table of [rows] by [cols] cells. *)
Definition table_dims (rows cols : nat) (dp : list (list nat)) : Prop :=
  length dp = rows ∧ Forall (λ row, length row = cols) dp.

(** The table holds the lengths for the border and for every cell before
    cell [(i, j)] in the order of the filling loops. *)
Definition lcs_filled (A B : list jsstring) (i j : nat)
    (dp : list (list nat)) : Prop :=
  table_dims (S (length A)) (S (length B)) dp
  ∧ ∀ i' j', i' ≤ length A → j' ≤ length B →
      i' < i ∨ (i' = i ∧ j' < j) ∨ i' = 0 ∨ j' = 0 →
      Patience.dp_get dp i' j' = lcs_len A B i' j'.

(** The invariant of the backtracking loops. *)
Definition BackInv (A B : list jsstring) (st : Patience.BackState) : Prop :=
  Patience.bt_i st ≤ length A ∧ Patience.bt_j st ≤ length B
  ∧ common_subsequence A B (Patience.bt_result st)
  ∧ Forall (λ p, Patience.bt_i st ≤ p.1 ∧ Patience.bt_j st ≤ p.2)
      (Patience.bt_result st)
  ∧ length (Patience.bt_result st)
    + lcs_len A B (Patience.bt_i st) (Patience.bt_j st)
    = lcs_len A B (length A) (length B).

(** The edit distance between the first [i] code units of [b] and the
    first [j] code units of [a], by the recurrence of the matrix. *)
Fixpoint lev_dist (a b : jsstring) (i j : nat) {struct i} : nat :=
  match i with
  | 0 => j
  | S i' =>
      (fix row (j : nat) : nat :=
         match j with
         | 0 => S i'
         | S j' =>
             if bool_decide (b !! i' = a !! j')
             then lev_dist a b i' j'
             else S (Nat.min (Nat.min (lev_dist a b i' j') (row j'))
                             (lev_dist a b i' (S j')))
         end) j
  end.

(** The matrix while it is filled: row 0 and the rows before row [i] are
    complete, row [i] holds its first [j] cells, the later rows only their
    first cell; every cell present holds the distance. *)
Definition lev_filled (a b : jsstring) (i j : nat)
    (matrix : list (list nat)) : Prop :=
  length matrix = S (length b)
  ∧ (∀ i' row, matrix !! i' = Some row →
       length row = if bool_decide (i' = 0 ∨ i' < i) then S (length a)
                    else if bool_decide (i' = i) then j else 1)
  ∧ ∀ i' j', i' ≤ length b → j' ≤ length a →
      i' < i ∨ (i' = i ∧ j' < j) ∨ i' = 0 ∨ j' = 0 →
      Patience.dp_get matrix i' j' = lev_dist a b i' j'.

(** [edits n s t]: the string [s] is turned into [t] by [n] edits, each
    the substitution, the deletion or the insertion of one code unit;
    the strings are compared from their ends. *)
Inductive edits : nat → jsstring → jsstring → Prop :=
  | edits_nil : edits 0 [] []
  | edits_keep n x s t : edits n s t → edits n (s ++ [x]) (t ++ [x])
  | edits_subst n x y s t : edits n s t → edits (S n) (s ++ [x]) (t ++ [y])
  | edits_delete n x s t : edits n s t → edits (S n) (s ++ [x]) t
  | edits_insert n y s t : edits n s t → edits (S n) s (t ++ [y]).

(** The invariant of the span-building loop of the variant's
    [computeCharDiff]: both cursors are in range, each side's spans spell
    the tokens consumed on that side, the Equal spans spell the tokens of
    the pairs consumed so far, and every pair still ahead lies at or after
    both cursors. *)
Record SpanInv (leftTokens rightTokens : list jsstring)
    (lcs : list (nat * nat)) (st : Patience.SpanState) : Prop := {
  si_left_le : Patience.sp_leftIdx st ≤ length leftTokens;
  si_right_le : Patience.sp_rightIdx st ≤ length rightTokens;
  si_left_text :
    span_text (Patience.sp_left st)
    = concat (take (Patience.sp_leftIdx st) leftTokens);
  si_right_text :
    span_text (Patience.sp_right st)
    = concat (take (Patience.sp_rightIdx st) rightTokens);
  si_left_adjacent : no_adjacent_same (Patience.sp_left st);
  si_right_adjacent : no_adjacent_same (Patience.sp_right st);
  si_left_kinds :
    Forall (λ d, span_type d ≠ SInsert) (Patience.sp_left st);
  si_right_kinds :
    Forall (λ d, span_type d ≠ SDelete) (Patience.sp_right st);
  si_left_equal :
    equal_text (Patience.sp_left st)
    = concat (omap (λ p, leftTokens !! p.1)
                (take (Patience.sp_lcsIdx st) lcs));
  si_right_equal :
    equal_text (Patience.sp_right st)
    = concat (omap (λ p, rightTokens !! p.2)
                (take (Patience.sp_lcsIdx st) lcs));
  si_ahead :
    Forall (λ p, Patience.sp_leftIdx st ≤ p.1
                 ∧ Patience.sp_rightIdx st ≤ p.2)
      (drop (Patience.sp_lcsIdx st) lcs)
}.

(** * Properties *)

(** ** Loops *)

Section WhileFacts.
Context {St : Type} (cond : St → bool) (body : St → St).

(** A loop whose body keeps an invariant and lowers a measure ends within
    as many iterations as the measure, in a state satisfying the
    invariant and the negated condition. *)
Lemma while_inv (I : St → Prop) (m : St → nat) :
  (∀ s, I s → cond s = true → I (body s) ∧ m (body s) < m s) →
  ∀ fuel s, I s → m s ≤ fuel →
    ∃ s', while cond body fuel s = Some s' ∧ I s' ∧ cond s' = false.
Proof.
  intros Hstep fuel. induction fuel as [|fuel IH]; intros s HI Hm; simpl.
  - destruct (cond s) eqn:Hc; [|by eauto].
    destruct (Hstep s HI Hc) as [_ ?]. lia.
  - destruct (cond s) eqn:Hc; [|by eauto].
    destruct (Hstep s HI Hc) as [HI' ?]. apply IH; [done|lia].
Qed.

Lemma while_more_fuel fuel fuel' s s' :
  while cond body fuel s = Some s' → fuel ≤ fuel' →
  while cond body fuel' s = Some s'.
Proof.
  revert fuel' s. induction fuel as [|fuel IH]; intros fuel' s; simpl.
  - destruct fuel'; simpl; destruct (cond s); done.
  - destruct fuel' as [|fuel']; simpl; destruct (cond s); try done; [lia|].
    intros ??. apply IH; [done|lia].
Qed.
End WhileFacts.

(** ** The position map *)

Lemma recordLine_ok lines m idx line :
  map_ok lines m → lines !! idx = Some line → map_ok lines (recordLine m idx line).
Proof.
  intros Hm Hidx line' idxs i. unfold recordLine.
  destruct (decide (line = line')) as [<-|Hne].
  - rewrite lookup_insert_eq. intros [= <-].
    destruct (m !! line) as [old|] eqn:Hold.
    + rewrite Hold. simpl. intros [?| ->%list_elem_of_singleton]%elem_of_app; eauto.
    + rewrite lookup_insert_eq. simpl.
      intros ->%list_elem_of_singleton. done.
  - rewrite lookup_insert_ne by done.
    destruct (m !! line) eqn:Hold; [|rewrite lookup_insert_ne by done]; eauto.
Qed.

Lemma buildLineMap_from_ok all idx lines m :
  map_ok all m → drop idx all = lines →
  map_ok all (buildLineMap_from idx lines m).
Proof.
  revert idx m. induction lines as [|line rest IH]; intros idx m Hm Hdrop; [done|].
  simpl. apply IH.
  - apply recordLine_ok; [done|].
    pose proof (lookup_drop all idx 0) as Hl.
    rewrite Hdrop, Nat.add_0_r in Hl. done.
  - pose proof (drop_drop all 1 idx) as Hd.
    rewrite Hdrop, Nat.add_1_r in Hd. done.
Qed.

Lemma buildLineMap_ok lines : map_ok lines (buildLineMap lines).
Proof.
  apply buildLineMap_from_ok; [|done].
  intros ???. rewrite lookup_empty. done.
Qed.

(** ** The invariant of the alignment loop *)

Lemma numbered_snoc lines k line :
  lines !! k = Some line →
  numbered (take (S k) lines) = numbered (take k lines) ++ [(S k, Some line)].
Proof.
  intros Hk. pose proof (lookup_lt_Some _ _ _ Hk).
  rewrite (take_S_r _ _ _ Hk). unfold numbered. rewrite imap_app. simpl.
  rewrite length_take, Nat.min_l, Nat.add_0_r by lia. done.
Qed.

Lemma numbered_length lines : length (numbered lines) = length lines.
Proof. unfold numbered. by rewrite length_imap. Qed.

Section DiffInvariant.
Variables leftLines rightLines : list jsstring.
Variable rightLineMap : gmap jsstring (list nat).
Hypothesis rightLineMap_ok : map_ok rightLines rightLineMap.

Local Abbreviation DiffInv := (DiffInv leftLines rightLines).
Local Abbreviation diff_measure := (diff_measure leftLines rightLines).

Lemma diff_init_inv : DiffInv diff_init.
Proof. by constructor; simpl; try lia; rewrite ?take_0. Qed.

Lemma pushInsert_inv st :
  DiffInv st → rightIndex st < length rightLines →
  DiffInv (pushInsert rightLines st).
Proof.
  intros [] Hlt. destruct (lookup_lt_is_Some_2 _ _ Hlt) as [line Hline].
  constructor; simpl; try lia.
  - by rewrite omap_app, app_nil_r.
  - rewrite omap_app, (numbered_snoc _ _ _ Hline), Hline. simpl.
    by repeat f_equal.
  - apply Forall_app. split; [done|]. by repeat constructor.
  - apply Forall_app. split; [done|]. apply Forall_singleton.
    unfold fresh_record. simpl. naive_solver.
Qed.

Lemma pushDelete_inv st :
  DiffInv st → leftIndex st < length leftLines →
  DiffInv (pushDelete leftLines st).
Proof.
  intros [] Hlt. destruct (lookup_lt_is_Some_2 _ _ Hlt) as [line Hline].
  constructor; simpl; try lia.
  - rewrite omap_app, (numbered_snoc _ _ _ Hline), Hline. simpl.
    by repeat f_equal.
  - by rewrite omap_app, app_nil_r.
  - apply Forall_app. split; [done|]. by repeat constructor.
  - apply Forall_app. split; [done|]. apply Forall_singleton.
    unfold fresh_record. simpl. naive_solver.
Qed.

Lemma pushBoth_cov st ty :
  DiffInv st →
  leftIndex st < length leftLines → rightIndex st < length rightLines →
  let r := mkDiffLine ty (leftLines !! leftIndex st)
             (rightLines !! rightIndex st)
             (Some (leftLineNum st)) (Some (rightLineNum st)) None None in
  record_ok r →
  DiffInv (mkDiffState (S (leftIndex st)) (S (rightIndex st))
             (S (leftLineNum st)) (S (rightLineNum st)) (result st ++ [r])).
Proof.
  intros [] Hl Hr r Hok.
  destruct (lookup_lt_is_Some_2 _ _ Hl) as [l Hline].
  destruct (lookup_lt_is_Some_2 _ _ Hr) as [l' Hline'].
  subst r. constructor; simpl; try lia.
  - rewrite omap_app, (numbered_snoc _ _ _ Hline), Hline. simpl.
    by repeat f_equal.
  - rewrite omap_app, (numbered_snoc _ _ _ Hline'), Hline'. simpl.
    by repeat f_equal.
  - apply Forall_app. split; [done|]. by apply Forall_singleton.
  - apply Forall_app. split; [done|]. apply Forall_singleton.
    unfold fresh_record. simpl. naive_solver.
Qed.

Lemma insertUntil_inv count st :
  DiffInv st → rightIndex st + count ≤ length rightLines →
  DiffInv (insertUntil rightLines count st)
  ∧ leftIndex (insertUntil rightLines count st) = leftIndex st
  ∧ rightIndex (insertUntil rightLines count st) = rightIndex st + count.
Proof.
  revert st. induction count as [|count IH]; intros st Hinv Hle; simpl.
  - by rewrite Nat.add_0_r.
  - destruct (IH (pushInsert rightLines st)) as (? & -> & ->).
    + apply pushInsert_inv; [done|lia].
    + simpl. lia.
    + simpl. split_and!; [done|done|lia].
Qed.

Lemma deleteUntil_inv count st :
  DiffInv st → leftIndex st + count ≤ length leftLines →
  DiffInv (deleteUntil leftLines count st)
  ∧ leftIndex (deleteUntil leftLines count st) = leftIndex st + count
  ∧ rightIndex (deleteUntil leftLines count st) = rightIndex st.
Proof.
  revert st. induction count as [|count IH]; intros st Hinv Hle; simpl.
  - by rewrite Nat.add_0_r.
  - destruct (IH (pushDelete leftLines st)) as (? & -> & ->).
    + apply pushDelete_inv; [done|lia].
    + simpl. lia.
    + simpl. split_and!; [done|lia|done].
Qed.
Lemma findBestMatch_fold possibleMatches rightIdx acc b :
  (foldl (bestMatchStep rightIdx) acc possibleMatches).1 = Some b →
  acc.1 = Some b ∨ (b ∈ possibleMatches ∧ rightIdx ≤ b).
Proof.
  revert acc. induction possibleMatches as [|matchIdx rest IH]; intros acc; simpl.
  - by left.
  - intros [Hacc|[??]]%IH.
    + unfold bestMatchStep in Hacc.
      case_bool_decide; [|by left].
      destruct (match acc.2 with None => true | Some d => _ end); [|by left].
      simpl in Hacc. injection Hacc as ->. right. split; [left|done].
    + right. split; [by right|done].
Qed.

Lemma findBestMatch_spec possibleMatches rightIdx b :
  findBestMatch possibleMatches rightIdx = Some b →
  b ∈ possibleMatches ∧ rightIdx ≤ b.
Proof. by intros [?|?]%findBestMatch_fold. Qed.

Lemma findLeftMatch_spec target i count l :
  findLeftMatch leftLines target i count = Some l →
  i ≤ l < i + count ∧ leftLines !! l = target.
Proof.
  revert i. induction count as [|count IH]; intros i; simpl; [done|].
  case_bool_decide.
  - intros [= <-]. split; [lia|done].
  - intros [??]%IH. split; [lia|done].
Qed.

Local Ltac diff_close_case :=
  first
    [ left; split; [lia|reflexivity]
    | right; left; split; [lia|reflexivity]
    | do 3 right; left; split_and!; [lia|lia|done|reflexivity]
    | do 4 right; left; eexists; split_and!; [| |reflexivity]; lia
    | do 5 right; eexists; split_and!; [| |reflexivity]; lia ].

(** The branches of one iteration, with what each one has checked. *)
Lemma diff_body_cases st st' :
  diff_cond leftLines rightLines st = true →
  st' = diff_body leftLines rightLines rightLineMap st →
  (rightIndex st < length rightLines ∧ st' = pushInsert rightLines st)
  ∨ (leftIndex st < length leftLines ∧ st' = pushDelete leftLines st)
  ∨ (leftIndex st < length leftLines ∧ rightIndex st < length rightLines
     ∧ leftLines !! leftIndex st = rightLines !! rightIndex st
     ∧ st' = pushEqual leftLines rightLines st)
  ∨ (leftIndex st < length leftLines ∧ rightIndex st < length rightLines
     ∧ leftLines !! leftIndex st ≠ rightLines !! rightIndex st
     ∧ st' = pushModify leftLines rightLines st)
  ∨ (∃ count, 1 ≤ count ∧ rightIndex st + count ≤ length rightLines
     ∧ st' = insertUntil rightLines count st)
  ∨ (∃ count, 1 ≤ count ∧ leftIndex st + count ≤ length leftLines
     ∧ st' = deleteUntil leftLines count st).
Proof.
  unfold diff_cond. intros Hcond ->. unfold diff_body.
  apply orb_true_iff in Hcond. rewrite !bool_decide_eq_true in Hcond.
  case_bool_decide; [left; split; [lia|done]|].
  case_bool_decide; [right; left; split; [lia|done]|].
  case_bool_decide as Hne; [do 2 right; left; split_and!; [lia|lia|done|done]|].
  assert (Hl : leftIndex st < length leftLines) by lia.
  assert (Hr : rightIndex st < length rightLines) by lia.
  match goal with
  | |- context [findBestMatch ?pm ?ri] =>
      pose proof (findBestMatch_spec pm ri) as Hbest;
      destruct (findBestMatch pm ri) as [b|]
  end.
  - (* a later occurrence of the current left line on the right *)
    destruct (Hbest b eq_refl) as [Hin Hge].
    destruct (leftLines !! leftIndex st) as [currentLeft|] eqn:Hcur;
      simpl in Hin; [|by apply elem_of_nil in Hin].
    destruct (rightLineMap !! currentLeft) as [idxs|] eqn:Hmap;
      simpl in Hin; [|by apply elem_of_nil in Hin].
    pose proof (rightLineMap_ok _ _ _ Hmap Hin) as Hb.
    pose proof (lookup_lt_Some _ _ _ Hb).
    assert (b ≠ rightIndex st) by (intros ->; congruence).
    match goal with
    | |- context [findLeftMatch ?ls ?t ?i ?c] =>
        pose proof (findLeftMatch_spec t i c) as Hleft;
        destruct (findLeftMatch ls t i c) as [l|]
    end.
    + destruct (Hleft l eq_refl) as [? _]. clear Hbest Hleft.
      simpl; repeat (case_bool_decide; simpl); simplify_eq; diff_close_case.
    + clear Hbest Hleft.
      simpl; repeat (case_bool_decide; simpl); simplify_eq; diff_close_case.
  - simpl.
    match goal with
    | |- context [findLeftMatch ?ls ?t ?i ?c] =>
        pose proof (findLeftMatch_spec t i c) as Hleft;
        destruct (findLeftMatch ls t i c) as [l|]
    end.
    + destruct (Hleft l eq_refl) as [? _]. clear Hbest Hleft.
      simpl; repeat (case_bool_decide; simpl); simplify_eq; diff_close_case.
    + simpl. do 3 right; left; done.
Qed.

Lemma insertUntil_indices count st :
  leftIndex (insertUntil rightLines count st) = leftIndex st
  ∧ rightIndex (insertUntil rightLines count st) = rightIndex st + count.
Proof.
  revert st. induction count as [|count IH]; intros st; simpl; [lia|].
  destruct (IH (pushInsert rightLines st)) as [-> ->]. simpl. lia.
Qed.

Lemma deleteUntil_indices count st :
  leftIndex (deleteUntil leftLines count st) = leftIndex st + count
  ∧ rightIndex (deleteUntil leftLines count st) = rightIndex st.
Proof.
  revert st. induction count as [|count IH]; intros st; simpl; [lia|].
  destruct (IH (pushDelete leftLines st)) as [-> ->]. simpl. lia.
Qed.

Lemma diff_body_advances st :
  diff_cond leftLines rightLines st = true →
  diff_advances st (diff_body leftLines rightLines rightLineMap st).
Proof.
  intros Hcond. unfold diff_advances.
  destruct (diff_body_cases st _ Hcond eq_refl)
    as [[? ->]|[[? ->]|[(?&?&?& ->)|[(?&?&?& ->)|[(n&?&?& ->)|(n&?&?& ->)]]]]];
    simpl; try lia.
  - destruct (insertUntil_indices n st) as [-> ->]. lia.
  - destruct (deleteUntil_indices n st) as [-> ->]. lia.
Qed.

Lemma diff_body_inv st :
  DiffInv st → diff_cond leftLines rightLines st = true →
  DiffInv (diff_body leftLines rightLines rightLineMap st).
Proof.
  intros Hinv Hcond.
  destruct (diff_body_cases st _ Hcond eq_refl)
    as [[? ->]|[[? ->]|[(?&?&?& ->)|[(?&?&?& ->)|[(n&?&?& ->)|(n&?&?& ->)]]]]].
  - by apply pushInsert_inv.
  - by apply pushDelete_inv.
  - apply (pushBoth_cov st Equal); [done..|]. split; [done|discriminate].
  - apply (pushBoth_cov st Modify); [done..|]. split; [discriminate|done].
  - by apply insertUntil_inv.
  - by apply deleteUntil_inv.
Qed.

Lemma diff_loop_total fuel :
  length leftLines + length rightLines ≤ fuel →
  ∃ st, while (diff_cond leftLines rightLines)
          (diff_body leftLines rightLines rightLineMap) fuel diff_init = Some st
        ∧ DiffInv st
        ∧ leftIndex st = length leftLines
        ∧ rightIndex st = length rightLines.
Proof.
  intros Hfuel.
  destruct (while_inv (diff_cond leftLines rightLines)
              (diff_body leftLines rightLines rightLineMap)
              DiffInv diff_measure) with (fuel := fuel) (s := diff_init)
    as (st & Hrun & Hinv & Hexit).
  - intros s Hs Hc. pose proof (diff_body_inv s Hs Hc) as Hs'.
    split; [done|].
    destruct (diff_body_advances s Hc) as (?&?&?).
    destruct Hs'. unfold diff_measure. lia.
  - apply diff_init_inv.
  - unfold diff_measure. simpl. lia.
  - exists st. split_and!; [done|done|..];
      unfold diff_cond in Hexit; apply orb_false_iff in Hexit;
      rewrite !bool_decide_eq_false in Hexit; destruct Hinv; lia.
Qed.
End DiffInvariant.

(** ** The tokenizer *)

Lemma prefix_len_le p l : prefix_len p l ≤ length l.
Proof. induction l as [|c rest IH]; simpl; [done|]. destruct (p c); lia. Qed.

Lemma exec_word_spec text from index word :
  exec_word text from = Some (index, word) →
  from ≤ index ∧ index + length word ≤ length text ∧ 0 < length word
  ∧ word = take (length word) (drop index text).
Proof.
  unfold exec_word. case_bool_decide as Hword; [done|]. intros [= <- <-].
  set (skipped := prefix_len is_whitespace (drop from text)) in *.
  rewrite drop_drop in *.
  set (tail := drop (from + skipped) text) in *.
  pose proof (prefix_len_le (λ c, negb (is_whitespace c)) tail) as Hk.
  set (k := prefix_len _ tail) in *.
  assert (0 < length (take k tail)) by (destruct (take k tail); [done|simpl; lia]).
  rewrite length_take in *.
  assert (length tail = length text - (from + skipped))
    by (unfold tail; by rewrite length_drop).
  split_and!; [lia|lia|lia|].
  by rewrite Nat.min_l by lia.
Qed.

Lemma substring_ordered text a b :
  a ≤ b → b ≤ length text → substring text a b = take (b - a) (drop a text).
Proof.
  intros. unfold substring.
  by rewrite (Nat.min_l a b), (Nat.max_r a b), !Nat.min_l by lia.
Qed.

Section TokenizeFacts.
Variable text : jsstring.

Local Abbreviation TokInv := (TokInv text).

Lemma tok_body_inv st :
  TokInv st → tok_cond text st = true →
  TokInv (tok_body text st)
  ∧ length text - lastIndex (tok_body text st) < length text - lastIndex st.
Proof.
  intros [Hle Hcat]. unfold tok_cond, tok_body.
  rewrite bool_decide_eq_true. intros [[index word] Hexec]. rewrite Hexec.
  destruct (exec_word_spec _ _ _ _ Hexec) as (Hfrom & Hend & Hlen & Hword).
  unfold TokInv. simpl. split_and!; [lia| |lia].
  rewrite concat_app. simpl. rewrite app_nil_r.
  rewrite <-take_take_drop, <-Hword. f_equal.
  case_bool_decide.
  - rewrite concat_app. simpl. rewrite app_nil_r, Hcat.
    rewrite substring_ordered by lia.
    rewrite take_take_drop. f_equal. lia.
  - rewrite Hcat. f_equal. lia.
Qed.

Lemma tokenize_fuel_spec fuel :
  length text ≤ fuel →
  ∃ toks, tokenize_fuel fuel text = Some toks ∧ concat toks = text
          ∧ 0 < length toks.
Proof.
  intros Hfuel. unfold tokenize_fuel.
  destruct (while_inv (tok_cond text) (tok_body text) TokInv
              (λ st, length text - lastIndex st))
    with (fuel := fuel) (s := mkTokState 0 [])
    as (st & -> & [Hle Hcat] & _).
  - apply tok_body_inv.
  - split; simpl; [lia|by rewrite take_0].
  - simpl. lia.
  - simpl. eexists. split; [done|].
    assert (concat (if bool_decide (lastIndex st < length text)
                    then tokens st ++ [substring text (lastIndex st) (length text)]
                    else tokens st) = text) as Hall.
    { case_bool_decide.
      - rewrite concat_app. simpl.
        rewrite app_nil_r, Hcat, substring_ordered by lia.
        rewrite take_take_drop. apply take_ge. lia.
      - rewrite Hcat. apply take_ge. lia. }
    match type of Hall with concat ?t = _ => generalize dependent t end.
    intros tokens2 Hall.
    case_bool_decide; simpl; (split; [by rewrite ?app_nil_r|lia]).
Qed.

Lemma tokenize_spec :
  ∃ toks, tokenize text = Some toks ∧ concat toks = text ∧ 0 < length toks.
Proof. by apply tokenize_fuel_spec. Qed.
End TokenizeFacts.

(** ** Span sequences *)

Lemma span_text_snoc spans d : span_text (spans ++ [d]) = span_text spans ++ text d.
Proof.
  unfold span_text. rewrite fmap_app, concat_app. simpl. by rewrite app_nil_r.
Qed.

Lemma appendCharDiff_cases arr ty tok :
  ((∀ d, last arr = Some d → span_type d ≠ ty)
   ∧ appendCharDiff arr ty tok = arr ++ [mkCharDiff ty tok])
  ∨ (∃ rest d, arr = rest ++ [d] ∧ span_type d = ty
       ∧ appendCharDiff arr ty tok = rest ++ [mkCharDiff ty (text d ++ tok)]).
Proof.
  unfold appendCharDiff. destruct (last arr) as [d|] eqn:Hlast.
  - case_bool_decide as Hty.
    + right. apply last_Some in Hlast as [rest ->]. exists rest, d.
      split_and!; [done|done|].
      rewrite length_app. simpl.
      replace (length rest + 1 - 1) with (length rest + 0) by lia.
      rewrite alter_app_r. simpl. by rewrite Hty.
    + left. split; [|done]. by intros ? [= <-].
  - left. split; [|done]. done.
Qed.

Lemma appendCharDiff_text arr ty tok :
  span_text (appendCharDiff arr ty tok) = span_text arr ++ tok.
Proof.
  destruct (appendCharDiff_cases arr ty tok)
    as [[_ ->]|(rest & d & -> & _ & ->)]; rewrite !span_text_snoc; simpl.
  - done.
  - by rewrite app_assoc.
Qed.

Lemma appendCharDiff_no_adjacent arr ty tok :
  no_adjacent_same arr → no_adjacent_same (appendCharDiff arr ty tok).
Proof.
  intros Harr.
  destruct (appendCharDiff_cases arr ty tok)
    as [[Hlast ->]|(rest & d & -> & Hty & ->)]; intros i a b Ha Hb.
  - destruct (decide (S i < length arr)) as [Hlt|Hge].
    + rewrite lookup_app_l in Ha, Hb by lia. eauto.
    + apply lookup_snoc_Some in Hb as [[? _]|[Hi <-]]; [lia|].
      rewrite lookup_app_l in Ha by lia. simpl.
      apply Hlast. rewrite last_lookup, <-Hi. done.
  - destruct (decide (S i < length rest)) as [Hlt|Hge].
    + rewrite lookup_app_l in Ha, Hb by lia.
      apply (Harr i); by apply lookup_app_l_Some.
    + apply lookup_snoc_Some in Hb as [[? _]|[Hi <-]]; [lia|].
      rewrite lookup_app_l in Ha by lia. simpl. rewrite <-Hty.
      apply (Harr i); [by apply lookup_app_l_Some|].
      rewrite Hi. by apply list_lookup_middle.
Qed.

Lemma appendCharDiff_equal_text arr ty tok :
  equal_text (appendCharDiff arr ty tok)
  = equal_text arr ++ (if bool_decide (ty = SEqual) then tok else []).
Proof.
  unfold equal_text.
  destruct (appendCharDiff_cases arr ty tok)
    as [[_ ->]|(rest & d & -> & Hty & ->)]; rewrite !filter_app.
  - case_bool_decide.
    + rewrite filter_cons_True by done. by rewrite filter_nil, span_text_snoc.
    + rewrite filter_cons_False by done. by rewrite filter_nil, !app_nil_r.
  - case_bool_decide.
    + rewrite !filter_cons_True by (simpl; congruence).
      rewrite !filter_nil, !span_text_snoc. simpl. by rewrite app_assoc.
    + rewrite !filter_cons_False by (simpl; congruence).
      by rewrite !filter_nil, !app_nil_r.
Qed.

(** ** The invariant of the token loop *)

Lemma concat_take_S (toks : list jsstring) i :
  i < length toks →
  concat (take (S i) toks) = concat (take i toks) ++ default [] (toks !! i).
Proof.
  intros Hlt. destruct (lookup_lt_is_Some_2 _ _ Hlt) as [tok Htok].
  rewrite (take_S_r _ _ _ Htok), concat_app, Htok. simpl. by rewrite app_nil_r.
Qed.

Section CharInvariant.
Variables leftTokens rightTokens : list jsstring.

Local Abbreviation CharInv := (CharInv leftTokens rightTokens).

Lemma char_init_inv : CharInv char_init.
Proof.
  constructor; simpl; try lia; try done.
  - by repeat constructor.
Qed.

Lemma behind_mono (pairs : list (nat * nat)) i j i' j' :
  i ≤ i' → j ≤ j' →
  Forall (λ p, p.1 < i ∧ p.2 < j) pairs →
  Forall (λ p, p.1 < i' ∧ p.2 < j') pairs.
Proof. intros ?? Hall. eapply Forall_impl; [done|]. intros ? [??]. lia. Qed.

Lemma emitInsert_inv st :
  CharInv st → rightIdx st < length rightTokens →
  CharInv (emitInsert rightTokens st).
Proof.
  intros [] Hlt. constructor; simpl; try lia; try done.
  - by rewrite appendCharDiff_text, concat_take_S, ci_right_text0.
  - by apply appendCharDiff_no_adjacent.
  - eapply behind_mono; [| |done]; lia.
  - rewrite appendCharDiff_equal_text. simpl. by rewrite app_nil_r.
Qed.

Lemma emitDelete_inv st :
  CharInv st → leftIdx st < length leftTokens →
  CharInv (emitDelete leftTokens st).
Proof.
  intros [] Hlt. constructor; simpl; try lia; try done.
  - by rewrite appendCharDiff_text, concat_take_S, ci_left_text0.
  - by apply appendCharDiff_no_adjacent.
  - eapply behind_mono; [| |done]; lia.
  - rewrite appendCharDiff_equal_text. simpl. by rewrite app_nil_r.
Qed.

Lemma emitModify_inv st :
  CharInv st →
  leftIdx st < length leftTokens → rightIdx st < length rightTokens →
  CharInv (emitModify leftTokens rightTokens st).
Proof.
  intros [] Hl Hr. constructor; simpl; try lia; try done.
  - by rewrite appendCharDiff_text, concat_take_S, ci_left_text0.
  - by rewrite appendCharDiff_text, concat_take_S, ci_right_text0.
  - by apply appendCharDiff_no_adjacent.
  - by apply appendCharDiff_no_adjacent.
  - eapply behind_mono; [| |done]; lia.
  - rewrite appendCharDiff_equal_text. simpl. by rewrite app_nil_r.
  - rewrite appendCharDiff_equal_text. simpl. by rewrite app_nil_r.
Qed.

Lemma emitEqual_inv st :
  CharInv st →
  leftIdx st < length leftTokens → rightIdx st < length rightTokens →
  leftTokens !! leftIdx st = rightTokens !! rightIdx st →
  CharInv (emitEqual leftTokens rightTokens st).
Proof.
  intros [] Hl Hr Heq. constructor; simpl; try lia; try done.
  - by rewrite appendCharDiff_text, concat_take_S, ci_left_text0.
  - by rewrite appendCharDiff_text, concat_take_S, ci_right_text0.
  - by apply appendCharDiff_no_adjacent.
  - by apply appendCharDiff_no_adjacent.
  - destruct ci_matched0 as [Hm Hs]. split.
    + apply Forall_app. split; [done|]. apply Forall_singleton.
      split; [|done]. by apply lookup_lt_is_Some_2.
    + apply StronglySorted_app_2; [|done|by repeat constructor].
      intros p q Hp ->%list_elem_of_singleton.
      rewrite Forall_forall in ci_behind0. by apply ci_behind0.
  - apply Forall_app. split.
    + eapply behind_mono; [| |done]; lia.
    + apply Forall_singleton. simpl. lia.
  - rewrite appendCharDiff_equal_text, omap_app, concat_app, ci_left_equal0.
    destruct (lookup_lt_is_Some_2 _ _ Hl) as [tok Htok].
    unfold tokenAt. csimpl. rewrite Htok. simpl. by rewrite app_nil_r.
  - rewrite appendCharDiff_equal_text, omap_app, concat_app, ci_right_equal0.
    destruct (lookup_lt_is_Some_2 _ _ Hr) as [tok Htok].
    unfold tokenAt. csimpl. rewrite Htok. simpl. by rewrite app_nil_r.
Qed.

Lemma lookAheadLoop_cases count lookAhead st st' :
  lookAheadLoop leftTokens rightTokens count lookAhead st = Some st' →
  st' = emitDelete leftTokens st ∨ st' = emitInsert rightTokens st.
Proof.
  revert lookAhead. induction count as [|count IH]; intros lookAhead; simpl; [done|].
  destruct (_ && _); [intros [= <-]; by left|].
  destruct (_ && _); [intros [= <-]; by right|].
  apply IH.
Qed.

Lemma char_body_cases st st' :
  char_cond leftTokens rightTokens st = true →
  st' = char_body leftTokens rightTokens st →
  (rightIdx st < length rightTokens ∧ st' = emitInsert rightTokens st)
  ∨ (leftIdx st < length leftTokens ∧ st' = emitDelete leftTokens st)
  ∨ (leftIdx st < length leftTokens ∧ rightIdx st < length rightTokens
     ∧ leftTokens !! leftIdx st = rightTokens !! rightIdx st
     ∧ st' = emitEqual leftTokens rightTokens st)
  ∨ (leftIdx st < length leftTokens ∧ rightIdx st < length rightTokens
     ∧ st' = emitModify leftTokens rightTokens st).
Proof.
  unfold char_cond. intros Hcond ->. unfold char_body.
  apply orb_true_iff in Hcond. rewrite !bool_decide_eq_true in Hcond.
  case_bool_decide; [left; split; [lia|done]|].
  case_bool_decide; [right; left; split; [lia|done]|].
  case_bool_decide; [do 2 right; left; split_and!; [lia|lia|done|done]|].
  destruct (lookAheadLoop _ _ _ _ _) as [st'|] eqn:Hloop.
  - apply lookAheadLoop_cases in Hloop as [-> | ->].
    + right; left. split; [lia|done].
    + left. split; [lia|done].
  - do 3 right. split_and!; [lia|lia|done].
Qed.

Lemma char_body_advances st :
  char_cond leftTokens rightTokens st = true →
  char_advances st (char_body leftTokens rightTokens st).
Proof.
  intros Hcond. unfold char_advances.
  destruct (char_body_cases st _ Hcond eq_refl)
    as [[? ->]|[[? ->]|[(?&?&?& ->)|(?&?& ->)]]]; simpl; lia.
Qed.

Lemma char_body_inv st :
  CharInv st → char_cond leftTokens rightTokens st = true →
  CharInv (char_body leftTokens rightTokens st).
Proof.
  intros Hinv Hcond.
  destruct (char_body_cases st _ Hcond eq_refl)
    as [[? ->]|[[? ->]|[(?&?&?& ->)|(?&?& ->)]]].
  - by apply emitInsert_inv.
  - by apply emitDelete_inv.
  - by apply emitEqual_inv.
  - by apply emitModify_inv.
Qed.

Lemma charDiff_run_spec :
  ∃ st, charDiff_run leftTokens rightTokens = Some st
        ∧ CharInv st
        ∧ leftIdx st = length leftTokens
        ∧ rightIdx st = length rightTokens.
Proof.
  unfold charDiff_run.
  destruct (while_inv (char_cond leftTokens rightTokens)
              (char_body leftTokens rightTokens) CharInv
              (λ st, (length leftTokens - leftIdx st)
                     + (length rightTokens - rightIdx st)))
    with (fuel := length leftTokens + length rightTokens) (s := char_init)
    as (st & Hrun & Hinv & Hexit).
  - intros s Hs Hc. pose proof (char_body_inv s Hs Hc) as Hs'.
    split; [done|].
    destruct (char_body_advances s Hc) as (?&?&?). destruct Hs'. lia.
  - apply char_init_inv.
  - simpl. lia.
  - exists st. split_and!; [done|done|..];
      unfold char_cond in Hexit; apply orb_false_iff in Hexit;
      rewrite !bool_decide_eq_false in Hexit; destruct Hinv; lia.
Qed.
End CharInvariant.

(** ** Specifications of the three functions *)

Lemma numbered_fst lines : (numbered lines).*1 = seq 1 (length lines).
Proof.
  unfold numbered.
  enough (∀ k, (imap (λ i line, (S (k + i), Some line)) lines).*1
               = seq (S k) (length lines)) as Hgen by apply (Hgen 0).
  induction lines as [|line rest IH]; intros k; [done|].
  simpl. rewrite Nat.add_0_r. f_equal. rewrite <-IH.
  f_equal. apply imap_ext. intros i x _. simpl. f_equal. f_equal. lia.
Qed.

Lemma omap_leftLineNumber res :
  omap leftLineNumber res = (omap leftSide res).*1.
Proof.
  induction res as [|r res IH]; [done|]. csimpl. unfold leftSide in *.
  destruct (leftLineNumber r); csimpl; by rewrite IH.
Qed.

Lemma omap_rightLineNumber res :
  omap rightLineNumber res = (omap rightSide res).*1.
Proof.
  induction res as [|r res IH]; [done|]. csimpl. unfold rightSide in *.
  destruct (rightLineNumber r); csimpl; by rewrite IH.
Qed.

Lemma computeDiff_fuel_spec left right fuel :
  length (splitLines (normalizeNewlines left))
  + length (splitLines (normalizeNewlines right)) ≤ fuel →
  ∃ res, computeDiff_fuel fuel left right = Some res
    ∧ omap leftSide res = numbered (splitLines (normalizeNewlines left))
    ∧ omap rightSide res = numbered (splitLines (normalizeNewlines right))
    ∧ Forall record_ok res ∧ Forall fresh_record res.
Proof.
  intros Hfuel. unfold computeDiff_fuel.
  destruct (diff_loop_total _ _ _ (buildLineMap_ok _) fuel Hfuel)
    as (st & -> & [] & Hl & Hr).
  exists (result st). simpl.
  rewrite Hl, take_ge in inv_left_cov0 by lia.
  rewrite Hr, take_ge in inv_right_cov0 by lia. done.
Qed.

Lemma computeDiff_spec left right :
  ∃ res, computeDiff left right = Some res
    ∧ omap leftSide res = numbered (splitLines (normalizeNewlines left))
    ∧ omap rightSide res = numbered (splitLines (normalizeNewlines right))
    ∧ Forall record_ok res ∧ Forall fresh_record res.
Proof. by apply computeDiff_fuel_spec. Qed.

Lemma computeCharDiff_state_spec left right :
  ∃ leftTokens rightTokens st,
    tokenize left = Some leftTokens ∧ tokenize right = Some rightTokens
    ∧ concat leftTokens = left ∧ concat rightTokens = right
    ∧ computeCharDiff_state left right = Some st
    ∧ CharInv leftTokens rightTokens st
    ∧ leftIdx st = length leftTokens ∧ rightIdx st = length rightTokens.
Proof.
  destruct (tokenize_spec left) as (lt & Hlt & Hlcat & _).
  destruct (tokenize_spec right) as (rt & Hrt & Hrcat & _).
  destruct (charDiff_run_spec lt rt) as (st & Hrun & Hinv & Hl & Hr).
  exists lt, rt, st. unfold computeCharDiff_state.
  rewrite Hlt, Hrt. simpl. done.
Qed.

Lemma computeCharDiff_spec left right :
  ∃ ls rs, computeCharDiff left right = Some (ls, rs)
    ∧ span_text ls = left ∧ span_text rs = right
    ∧ no_adjacent_same ls ∧ no_adjacent_same rs.
Proof.
  destruct (computeCharDiff_state_spec left right)
    as (lt & rt & st & _ & _ & Hlcat & Hrcat & Hst & [] & Hl & Hr).
  exists (res_left st), (res_right st). unfold computeCharDiff.
  rewrite Hst. simpl.
  rewrite Hl, take_ge in ci_left_text0 by lia.
  rewrite Hr, take_ge in ci_right_text0 by lia.
  split_and!; [done|congruence|congruence|done|done].
Qed.

Lemma enhanceLine_spec line :
  ∃ line', enhanceLine line = Some line' ∧ same_line_fields line line'
    ∧ if enhance_guard line
      then ∃ ls rs,
             computeCharDiff (default [] (leftLine line))
               (default [] (rightLine line)) = Some (ls, rs)
             ∧ leftCharDiffs line' = Some ls ∧ rightCharDiffs line' = Some rs
      else line' = line.
Proof.
  unfold enhanceLine. destruct (enhance_guard line).
  - destruct (computeCharDiff_spec (default [] (leftLine line))
                (default [] (rightLine line))) as (ls & rs & -> & _).
    simpl. eexists. split; [done|]. split; [done|]. by exists ls, rs.
  - by exists line.
Qed.

Lemma enhanceWithCharDiffs_spec diffLines :
  ∃ out, enhanceWithCharDiffs diffLines = Some out
    ∧ Forall2 (λ line line', enhanceLine line = Some line') diffLines out.
Proof.
  destruct (mapM_is_Some_2 enhanceLine diffLines) as [out Hout].
  - apply Forall_forall. intros line _. unfold compose.
    destruct (enhanceLine_spec line) as (line' & -> & _). by eexists.
  - exists out. split; [done|]. by apply mapM_Some_1.
Qed.

(** Every record of [enhanceWithCharDiffs(computeDiff(left, right))] is
    the enhancement of a record that [computeDiff] built. *)
Lemma enhance_computeDiff_spec left right :
  ∃ res out, computeDiff left right = Some res
    ∧ enhanceWithCharDiffs res = Some out
    ∧ Forall (λ r', ∃ r, fresh_record r ∧ enhanceLine r = Some r') out.
Proof.
  destruct (computeDiff_spec left right) as (res & Hres & _ & _ & _ & Hfresh).
  destruct (enhanceWithCharDiffs_spec res) as (out & Hout & Hall).
  exists res, out. split_and!; [done|done|]. clear Hres Hout.
  induction Hall as [|r r' res out Hr _ IH]; [done|].
  apply Forall_cons in Hfresh as [??]. constructor; eauto.
Qed.

Lemma truthy_Some s : truthy s = true → ∃ x, s = Some x ∧ default [] s = x.
Proof. destruct s as [[|??]|]; try done. intros _. by eexists. Qed.

Lemma enhance_guard_true line :
  enhance_guard line = true →
  type line = Modify ∧ truthy (leftLine line) = true
  ∧ truthy (rightLine line) = true.
Proof.
  unfold enhance_guard. rewrite !andb_true_iff, bool_decide_eq_true. tauto.
Qed.

(** ** Newline normalization *)

Lemma normalizeNewlines_no_CR text : CR ∉ normalizeNewlines text.
Proof.
  induction text as [text IH] using (induction_ltof1 _ (@length N)).
  unfold ltof in IH. destruct text as [|c rest]; simpl.
  - apply not_elem_of_nil.
  - destruct (c =? CR)%N eqn:Hc.
    + apply not_elem_of_cons. split; [done|].
      destruct rest as [|d rest']; [apply not_elem_of_nil|].
      destruct (d =? LF)%N; apply IH; simpl; lia.
    + apply not_elem_of_cons. split; [|apply IH; simpl; lia].
      apply N.eqb_neq in Hc. congruence.
Qed.

Lemma normalizeNewlines_id text : CR ∉ text → normalizeNewlines text = text.
Proof.
  induction text as [|c rest IH]; [done|].
  intros [Hc Hrest]%not_elem_of_cons. simpl.
  destruct (c =? CR)%N eqn:Heq; [apply N.eqb_eq in Heq; congruence|].
  by rewrite IH.
Qed.

Lemma normalizeNewlines_idemp text :
  normalizeNewlines (normalizeNewlines text) = normalizeNewlines text.
Proof. apply normalizeNewlines_id, normalizeNewlines_no_CR. Qed.

(** ** The embedding on the inputs of the repository's tests *)

Example test_insertion_in_the_middle :
  computeDiff (js "a" ++ [LF] ++ js "c") (js "a" ++ [LF] ++ js "b" ++ [LF] ++ js "c")
  = Some [ equalRecord (Some (js "a")) (Some (js "a")) 1 1;
           insertRecord (Some (js "b")) 2;
           equalRecord (Some (js "c")) (Some (js "c")) 2 3 ].
Proof. vm_compute. reflexivity. Qed.

Example test_deletion_in_the_middle :
  computeDiff (js "a" ++ [LF] ++ js "b" ++ [LF] ++ js "c") (js "a" ++ [LF] ++ js "c")
  = Some [ equalRecord (Some (js "a")) (Some (js "a")) 1 1;
           deleteRecord (Some (js "b")) 2;
           equalRecord (Some (js "c")) (Some (js "c")) 3 2 ].
Proof. vm_compute. reflexivity. Qed.

Example test_repeated_lines :
  fmap (M := list) type
    <$> computeDiff (js "a" ++ [LF] ++ js "x" ++ [LF] ++ js "a" ++ [LF] ++ js "y")
          (js "a" ++ [LF] ++ js "a" ++ [LF] ++ js "x" ++ [LF] ++ js "y")
  = Some [Equal; Insert; Equal; Delete; Equal].
Proof. vm_compute. reflexivity. Qed.

Example test_empty_right :
  computeDiff (js "a" ++ [LF] ++ js "b") []
  = Some [ deleteRecord (Some (js "a")) 1; deleteRecord (Some (js "b")) 2 ].
Proof. vm_compute. reflexivity. Qed.

Example test_trailing_newline :
  computeDiff (js "a" ++ [LF]) (js "a")
  = Some [ equalRecord (Some (js "a")) (Some (js "a")) 1 1;
           deleteRecord (Some []) 2 ].
Proof. vm_compute. reflexivity. Qed.

Example test_tokenize :
  tokenize (js "hello  brave world ")
  = Some [js "hello"; js "  "; js "brave"; js " "; js "world"; js " "].
Proof. vm_compute. reflexivity. Qed.

Example test_char_diffs :
  computeCharDiff (js "hello world") (js "hello brave world")
  = Some ([ mkCharDiff SEqual (js "hello world") ],
          [ mkCharDiff SEqual (js "hello ");
            mkCharDiff SInsert (js "brave ");
            mkCharDiff SEqual (js "world") ]).
Proof. vm_compute. reflexivity. Qed.

Example test_whitespace_only_change :
  computeCharDiff (js "const x=1;") (js "const x = 1;")
  = Some ([ mkCharDiff SEqual (js "const ");
            mkCharDiff SDelete (js "x=1;") ],
          [ mkCharDiff SEqual (js "const ");
            mkCharDiff SInsert (js "x = 1;") ]).
Proof. vm_compute. reflexivity. Qed.

(** * The claims *)

(** C1.  For every pair of inputs [computeDiff] returns a record sequence
    that covers both inputs totally and in order: the records carrying a
    left line number, read in output order, are exactly the lines of the
    normalized and split left input, each once, numbered 1, 2, ... up to
    the left line count; a record without a left line number carries no
    left text; and symmetrically for the right input. *)
Theorem computeDiff_total_coverage (left right : jsstring) :
  ∃ res, computeDiff left right = Some res
    ∧ omap leftSide res = numbered (splitLines (normalizeNewlines left))
    ∧ omap rightSide res = numbered (splitLines (normalizeNewlines right))
    ∧ omap leftLineNumber res
      = seq 1 (length (splitLines (normalizeNewlines left)))
    ∧ omap rightLineNumber res
      = seq 1 (length (splitLines (normalizeNewlines right)))
    ∧ length (filter (λ r, is_Some (leftLineNumber r)) res)
      = length (splitLines (normalizeNewlines left))
    ∧ length (filter (λ r, is_Some (rightLineNumber r)) res)
      = length (splitLines (normalizeNewlines right))
    ∧ Forall (λ r, (leftLineNumber r = None → leftLine r = None)
                   ∧ (rightLineNumber r = None → rightLine r = None)) res.
Proof.
  destruct (computeDiff_spec left right) as (res & Hres & Hl & Hr & _ & Hfresh).
  assert (∀ (f : DiffLine → option nat) (l : list DiffLine),
            length (filter (λ r, is_Some (f r)) l) = length (omap f l)) as Hcount.
  { intros f l. induction l as [|r l IH]; [done|]. csimpl.
    destruct (f r) eqn:Hf; csimpl.
    - rewrite filter_cons_True by (rewrite Hf; by eexists). simpl. by rewrite IH.
    - rewrite filter_cons_False by (rewrite Hf; by intros [? ?]). done. }
  assert (omap leftLineNumber res
          = seq 1 (length (splitLines (normalizeNewlines left)))) as Hln
    by (by rewrite omap_leftLineNumber, Hl, numbered_fst).
  assert (omap rightLineNumber res
          = seq 1 (length (splitLines (normalizeNewlines right)))) as Hrn
    by (by rewrite omap_rightLineNumber, Hr, numbered_fst).
  exists res. split_and!; try done.
  - by rewrite Hcount, Hln, length_seq.
  - by rewrite Hcount, Hrn, length_seq.
  - eapply Forall_impl; [exact Hfresh|]. intros r (?&?&_). done.
Qed.

(** C10.  In the output of [computeDiff] an Equal record has equal left
    and right texts and a Modify record has different ones. *)
Theorem computeDiff_equal_modify_texts (left right : jsstring) :
  ∃ res, computeDiff left right = Some res
    ∧ Forall (λ r, (type r = Equal → leftLine r = rightLine r)
                   ∧ (type r = Modify → leftLine r ≠ rightLine r)) res.
Proof.
  destruct (computeDiff_spec left right) as (res & Hres & _ & _ & Hok & _).
  by exists res.
Qed.

(** C7.  Line endings are normalized before splitting.  [normalizeNewlines]
    replaces, from left to right, every carriage return together with a
    line feed that follows it by one line feed and keeps every other code
    unit, so its result holds no carriage return; [computeDiff] gives the
    same result on the inputs and on their normalized forms, and the lines
    it numbers are those of the normalized inputs.  The CRLF text
    [a\r\nb\r\nc\r\n] against the LF text [a\nb\nc\n] yields four Equal
    records, the last one pairing the two trailing empty lines. *)
Theorem computeDiff_normalizes_newlines :
  normalizeNewlines [] = []
  ∧ (∀ text,
       normalizeNewlines (CR :: LF :: text) = LF :: normalizeNewlines text)
  ∧ (∀ text, head text ≠ Some LF →
       normalizeNewlines (CR :: text) = LF :: normalizeNewlines text)
  ∧ (∀ c text, c ≠ CR →
       normalizeNewlines (c :: text) = c :: normalizeNewlines text)
  ∧ (∀ text, CR ∉ normalizeNewlines text)
  ∧ (∀ left right,
       computeDiff left right
       = computeDiff (normalizeNewlines left) (normalizeNewlines right))
  ∧ (∀ left right, ∃ res,
       computeDiff left right = Some res
       ∧ omap leftSide res = numbered (splitLines (normalizeNewlines left))
       ∧ omap rightSide res = numbered (splitLines (normalizeNewlines right)))
  ∧ normalizeNewlines
      (js "a" ++ [CR; LF] ++ js "b" ++ [CR; LF] ++ js "c" ++ [CR; LF])
    = js "a" ++ [LF] ++ js "b" ++ [LF] ++ js "c" ++ [LF]
  ∧ normalizeNewlines (js "a" ++ [CR] ++ js "b") = js "a" ++ [LF] ++ js "b"
  ∧ normalizeNewlines (js "a" ++ [CR; CR; LF; LF] ++ js "b")
    = js "a" ++ [LF; LF; LF] ++ js "b"
  ∧ computeDiff
      (js "a" ++ [CR; LF] ++ js "b" ++ [CR; LF] ++ js "c" ++ [CR; LF])
      (js "a" ++ [LF] ++ js "b" ++ [LF] ++ js "c" ++ [LF])
    = Some
        [ mkDiffLine Equal (Some (js "a")) (Some (js "a")) (Some 1) (Some 1)
            None None;
          mkDiffLine Equal (Some (js "b")) (Some (js "b")) (Some 2) (Some 2)
            None None;
          mkDiffLine Equal (Some (js "c")) (Some (js "c")) (Some 3) (Some 3)
            None None;
          mkDiffLine Equal (Some []) (Some []) (Some 4) (Some 4) None None ]
  ∧ computeDiff (js "a" ++ [CR; CR] ++ js "b") (js "a" ++ [LF; LF] ++ js "b")
    = Some
        [ mkDiffLine Equal (Some (js "a")) (Some (js "a")) (Some 1) (Some 1)
            None None;
          mkDiffLine Equal (Some []) (Some []) (Some 2) (Some 2) None None;
          mkDiffLine Equal (Some (js "b")) (Some (js "b")) (Some 3) (Some 3)
            None None ].
Proof.
  split_and!.
  - reflexivity.
  - reflexivity.
  - intros [|d rest] Hhead; [reflexivity|].
    change (normalizeNewlines (CR :: d :: rest))
      with (LF :: (if (d =? LF)%N then normalizeNewlines rest
                   else normalizeNewlines (d :: rest))).
    destruct (d =? LF)%N eqn:Hd; [|done].
    apply N.eqb_eq in Hd. subst d. by destruct Hhead.
  - intros c text Hc. simpl.
    destruct (c =? CR)%N eqn:Hc'; [|done].
    by apply N.eqb_eq in Hc'.
  - apply normalizeNewlines_no_CR.
  - intros left right. unfold computeDiff, computeDiff_fuel.
    by rewrite !normalizeNewlines_idemp.
  - intros left right.
    destruct (computeDiff_spec left right) as (res & Hres & Hl & Hr & _).
    by exists res.
  - reflexivity.
  - reflexivity.
  - reflexivity.
  - vm_compute. reflexivity.
  - vm_compute. reflexivity.
Qed.

(** C8.  An empty input has zero lines, not one empty line: diffing the
    empty string against [a\nb] returns exactly two records, both of kind
    Insert with no left text and no left line number: [a] with right line
    number 1 and [b] with right line number 2. *)
Theorem computeDiff_empty_left :
  splitLines (normalizeNewlines []) = []
  ∧ computeDiff [] (js "a" ++ [LF] ++ js "b")
    = Some [ mkDiffLine Insert None (Some (js "a")) None (Some 1) None None;
             mkDiffLine Insert None (Some (js "b")) None (Some 2) None None ].
Proof. split; [reflexivity|]. vm_compute. reflexivity. Qed.

(** C9.  Diffing [a\nb\nc] against [a\nB\nc] returns exactly three
    records: an Equal record for [a] at line 1 of both sides, a Modify
    record with left line [b] and right line [B] at line 2 of both sides,
    and an Equal record for [c] at line 3 of both sides. *)
Theorem computeDiff_single_modify :
  computeDiff (js "a" ++ [LF] ++ js "b" ++ [LF] ++ js "c")
              (js "a" ++ [LF] ++ js "B" ++ [LF] ++ js "c")
  = Some
      [ mkDiffLine Equal (Some (js "a")) (Some (js "a")) (Some 1) (Some 1)
          None None;
        mkDiffLine Modify (Some (js "b")) (Some (js "B")) (Some 2) (Some 2)
          None None;
        mkDiffLine Equal (Some (js "c")) (Some (js "c")) (Some 3) (Some 3)
          None None ].
Proof. vm_compute. reflexivity. Qed.

(** C4.  [computeDiff] and [enhanceWithCharDiffs] return a result for
    every pair of inputs, the empty ones included: the loop bound used is
    enough and any larger one gives the same records; the enhancer returns
    a result on every record sequence; and every iteration of the alignment
    loop and of the token loop moves no index back and moves at least one
    index forward. *)
Theorem diff_engine_total :
  (∀ left right, ∃ res out,
     computeDiff left right = Some res
     ∧ (∀ fuel, length (splitLines (normalizeNewlines left))
                + length (splitLines (normalizeNewlines right)) ≤ fuel →
                computeDiff_fuel fuel left right = Some res)
     ∧ enhanceWithCharDiffs res = Some out)
  ∧ computeDiff [] [] = Some []
  ∧ (∀ diffLines, ∃ out, enhanceWithCharDiffs diffLines = Some out)
  ∧ (∀ left right, ∃ spans, computeCharDiff left right = Some spans)
  ∧ (∀ leftLines rightLines st,
       diff_cond leftLines rightLines st = true →
       diff_advances st
         (diff_body leftLines rightLines (buildLineMap rightLines) st))
  ∧ (∀ leftTokens rightTokens st,
       char_cond leftTokens rightTokens st = true →
       char_advances st (char_body leftTokens rightTokens st)).
Proof.
  split_and!.
  - intros left right.
    destruct (computeDiff_spec left right) as (res & Hres & _).
    destruct (enhanceWithCharDiffs_spec res) as (out & Hout & _).
    exists res, out. split_and!; [done| |done].
    intros fuel Hfuel. unfold computeDiff, computeDiff_fuel in *.
    destruct (while _ _ _ diff_init) as [st|] eqn:Hrun; [|done].
    by rewrite (while_more_fuel _ _ _ fuel _ _ Hrun Hfuel).
  - reflexivity.
  - intros diffLines.
    destruct (enhanceWithCharDiffs_spec diffLines) as (out & Hout & _). eauto.
  - intros left right.
    destruct (computeCharDiff_spec left right) as (ls & rs & Hspans & _). eauto.
  - intros leftLines rightLines st.
    apply diff_body_advances, buildLineMap_ok.
  - intros leftTokens rightTokens st. apply char_body_advances.
Qed.

(** C2 as stated fails: diffing the single line break [\n] against [x]
    gives a Modify record with an empty left line, which the guard of the
    enhancer leaves without span fields; read as empty span sequences, they
    do not reconstruct the right line [x]. *)
Lemma empty_side_modify_not_reconstructed :
  ∃ res out r,
    computeDiff [LF] (js "x") = Some res
    ∧ enhanceWithCharDiffs res = Some out
    ∧ r ∈ out ∧ type r = Modify
    ∧ ¬ modify_reconstructs r
    ∧ span_text (default [] (rightCharDiffs r)) ≠ default [] (rightLine r)
    ∧ ¬ Forall (λ r, type r = Modify → modify_reconstructs r) out.
Proof.
  exists [modifyRecord (Some []) (Some (js "x")) 1 1; deleteRecord (Some []) 2],
         [modifyRecord (Some []) (Some (js "x")) 1 1; deleteRecord (Some []) 2],
         (modifyRecord (Some []) (Some (js "x")) 1 1).
  assert (¬ modify_reconstructs (modifyRecord (Some []) (Some (js "x")) 1 1))
    as Hno by (intros (ls & rs & Hls & _); discriminate).
  split_and!.
  - vm_compute. reflexivity.
  - vm_compute. reflexivity.
  - left.
  - reflexivity.
  - exact Hno.
  - discriminate.
  - intros Hall. apply Forall_cons in Hall as [Hhead _]. by apply Hno, Hhead.
Qed.

(** C2, amended.  In [enhanceWithCharDiffs(computeDiff(left, right))] every
    Modify record whose left and right lines are both non-empty carries
    both span sequences, whenever a record carries a span sequence the
    concatenation of its span texts is the line of that side, and a Modify
    record whose left line or right line is empty carries no span
    field. *)
Theorem enhanced_spans_reconstruct (left right : jsstring) :
  ∃ res out,
    computeDiff left right = Some res
    ∧ enhanceWithCharDiffs res = Some out
    ∧ Forall (λ r,
        (type r = Modify → truthy (leftLine r) = true →
         truthy (rightLine r) = true → modify_reconstructs r)
        ∧ (∀ ls, leftCharDiffs r = Some ls → leftLine r = Some (span_text ls))
        ∧ (∀ rs, rightCharDiffs r = Some rs → rightLine r = Some (span_text rs))
        ∧ (type r = Modify → leftLine r = Some [] ∨ rightLine r = Some [] →
           leftCharDiffs r = None ∧ rightCharDiffs r = None))
        out.
Proof.
  destruct (enhance_computeDiff_spec left right) as (res & out & Hres & Hout & Hall).
  exists res, out. split_and!; [done|done|].
  eapply Forall_impl; [exact Hall|]. clear.
  intros r' (r & (_ & _ & Hnl & Hnr) & Hr).
  destruct (enhanceLine_spec r) as (r'' & Hr'' & (Hty & Hl & Hr' & _) & Hcase).
  rewrite Hr in Hr''. injection Hr'' as <-.
  destruct (enhance_guard r) eqn:Hguard.
  - destruct Hcase as (ls & rs & Hcd & Hls & Hrs).
    destruct (computeCharDiff_spec (default [] (leftLine r))
                (default [] (rightLine r))) as (ls' & rs' & Hcd' & Htl & Htr & _).
    rewrite Hcd in Hcd'. injection Hcd' as <- <-.
    apply enhance_guard_true in Hguard as (_ & Htl' & Htr').
    pose proof Htl' as Hfull_l. pose proof Htr' as Hfull_r.
    apply truthy_Some in Htl' as (x & Hx & Hdx).
    apply truthy_Some in Htr' as (y & Hy & Hdy).
    assert (leftLine r' = Some (span_text ls)) by congruence.
    assert (rightLine r' = Some (span_text rs)) by congruence.
    split_and!.
    + intros _ _ _. by exists ls, rs.
    + intros ? ?. congruence.
    + intros ? ?. congruence.
    + intros _ [Hempty|Hempty].
      * rewrite Hl in Hempty. by rewrite Hempty in Hfull_l.
      * rewrite Hr' in Hempty. by rewrite Hempty in Hfull_r.
  - subst r'. split_and!.
    + intros Hm Htl Htr. unfold enhance_guard in Hguard.
      rewrite Hm, Htl, Htr in Hguard. by rewrite bool_decide_eq_true_2 in Hguard.
    + intros ?. congruence.
    + intros ?. congruence.
    + done.
Qed.

(** C3 as stated fails: the look-ahead of the token loop is greedy.  The
    Modify record of [a b] against [b a b] has the token sequences
    [a, " ", b] and [b, " ", a, " ", b]; the loop deletes [a] and [" "] to
    match the first [b] and so treats one pair as equal, while the three
    pairs (0,2), (1,3), (2,4) form a longer common subsequence. *)
Lemma greedy_token_matches_not_longest :
  ∃ leftTokens rightTokens st,
    computeDiff (js "a b") (js "b a b")
    = Some [modifyRecord (Some (js "a b")) (Some (js "b a b")) 1 1]
    ∧ tokenize (js "a b") = Some leftTokens
    ∧ tokenize (js "b a b") = Some rightTokens
    ∧ computeCharDiff_state (js "a b") (js "b a b") = Some st
    ∧ matched st = [(2, 0)]
    ∧ common_subsequence leftTokens rightTokens [(0, 2); (1, 3); (2, 4)]
    ∧ ¬ longest_common_subsequence leftTokens rightTokens (matched st).
Proof.
  exists [js "a"; js " "; js "b"], [js "b"; js " "; js "a"; js " "; js "b"].
  eexists.
  assert (common_subsequence [js "a"; js " "; js "b"]
            [js "b"; js " "; js "a"; js " "; js "b"] [(0, 2); (1, 3); (2, 4)])
    as Hlonger.
  { split.
    - repeat constructor; by eexists.
    - repeat constructor; simpl; lia. }
  split_and!.
  - vm_compute. reflexivity.
  - vm_compute. reflexivity.
  - vm_compute. reflexivity.
  - vm_compute. reflexivity.
  - reflexivity.
  - exact Hlonger.
  - intros [_ Hmax]. specialize (Hmax _ Hlonger). simpl in Hmax. lia.
Qed.

(** C3, amended.  The token pairs that the enhancer treats as equal form a
    common subsequence of the two token sequences: the index pairs are
    strictly increasing on both sides and the tokens are equal at every
    pair; the text of the Equal spans of each side is the concatenation of
    the tokens at these pairs.  (Nothing is said about its length.) *)
Theorem token_matches_common_subsequence (left right : jsstring) :
  ∃ leftTokens rightTokens st,
    tokenize left = Some leftTokens
    ∧ tokenize right = Some rightTokens
    ∧ computeCharDiff_state left right = Some st
    ∧ computeCharDiff left right = Some (res_left st, res_right st)
    ∧ common_subsequence leftTokens rightTokens (matched st)
    ∧ equal_text (res_left st)
      = concat (omap (λ p, leftTokens !! p.1) (matched st))
    ∧ equal_text (res_right st)
      = concat (omap (λ p, rightTokens !! p.2) (matched st)).
Proof.
  destruct (computeCharDiff_state_spec left right)
    as (lt & rt & st & Hlt & Hrt & _ & _ & Hst & [] & _).
  exists lt, rt, st. unfold computeCharDiff. rewrite Hst. done.
Qed.

(** C5 as stated fails: in the output of [computeDiff] for the single line
    break [\n] against [x], the first record is a Modify record with an
    empty left line; the guard of the enhancer is false on it and it gains
    no span field. *)
Lemma empty_side_modify_gains_no_spans :
  ∃ res out,
    computeDiff [LF] (js "x") = Some res
    ∧ enhanceWithCharDiffs res = Some out
    ∧ ¬ Forall2 (λ line line',
          type line = Modify →
          is_Some (leftCharDiffs line') ∧ is_Some (rightCharDiffs line'))
        res out.
Proof.
  exists [modifyRecord (Some []) (Some (js "x")) 1 1; deleteRecord (Some []) 2],
         [modifyRecord (Some []) (Some (js "x")) 1 1; deleteRecord (Some []) 2].
  split_and!.
  - vm_compute. reflexivity.
  - vm_compute. reflexivity.
  - intros Hall. apply Forall2_cons in Hall as [Hhead _].
    destruct (Hhead eq_refl) as [[? Hsome] _]. discriminate.
Qed.

(** C5, amended.  [enhanceWithCharDiffs] returns a sequence of the same
    length and order as its input; every record keeps its kind, texts and
    line numbers; a Modify record whose left and right lines are both
    present and non-empty gets the two span sequences of [computeCharDiff]
    on its lines; every other record is returned unchanged. *)
Theorem enhanceWithCharDiffs_frame (diffLines : list DiffLine) :
  ∃ out,
    enhanceWithCharDiffs diffLines = Some out
    ∧ length out = length diffLines
    ∧ Forall2 (λ line line',
        same_line_fields line line'
        ∧ if bool_decide (type line = Modify) && truthy (leftLine line)
             && truthy (rightLine line)
          then ∃ ls rs,
                 computeCharDiff (default [] (leftLine line))
                   (default [] (rightLine line)) = Some (ls, rs)
                 ∧ leftCharDiffs line' = Some ls
                 ∧ rightCharDiffs line' = Some rs
          else line' = line)
        diffLines out.
Proof.
  destruct (enhanceWithCharDiffs_spec diffLines) as (out & Hout & Hall).
  exists out. split_and!; [done|by rewrite (Forall2_length _ _ _ Hall)|].
  eapply Forall2_impl; [exact Hall|]. intros line line' Hline. simpl in Hline.
  destruct (enhanceLine_spec line) as (line'' & Hline'' & Hsame & Hcase).
  rewrite Hline in Hline''. injection Hline'' as <-. done.
Qed.

(** C6.  No two consecutive spans of a sequence produced by the enhancer
    have the same kind: this holds for the two sequences of
    [computeCharDiff] on any two lines, and so for every span sequence
    carried by a record of [enhanceWithCharDiffs(computeDiff(left, right))]. *)
Theorem spans_no_adjacent_same_kind :
  (∀ left right, ∃ ls rs,
     computeCharDiff left right = Some (ls, rs)
     ∧ no_adjacent_same ls ∧ no_adjacent_same rs)
  ∧ (∀ left right, ∃ res out,
       computeDiff left right = Some res
       ∧ enhanceWithCharDiffs res = Some out
       ∧ Forall (λ r,
           (∀ ls, leftCharDiffs r = Some ls → no_adjacent_same ls)
           ∧ (∀ rs, rightCharDiffs r = Some rs → no_adjacent_same rs)) out).
Proof.
  split.
  - intros left right.
    destruct (computeCharDiff_spec left right) as (ls & rs & ? & _ & _ & ? & ?).
    by exists ls, rs.
  - intros left right.
    destruct (enhance_computeDiff_spec left right)
      as (res & out & Hres & Hout & Hall).
    exists res, out. split_and!; [done|done|].
    eapply Forall_impl; [exact Hall|]. clear.
    intros r' (r & (_ & _ & Hnl & Hnr) & Hr).
    destruct (enhanceLine_spec r) as (r'' & Hr'' & _ & Hcase).
    rewrite Hr in Hr''. injection Hr'' as <-.
    destruct (enhance_guard r).
    + destruct Hcase as (ls & rs & Hcd & Hls & Hrs).
      destruct (computeCharDiff_spec (default [] (leftLine r))
                  (default [] (rightLine r))) as (ls' & rs' & Hcd' & _ & _ & ? & ?).
      rewrite Hcd in Hcd'. injection Hcd' as <- <-.
      split; intros ? Heq; [rewrite Hls in Heq|rewrite Hrs in Heq];
        by injection Heq as <-.
    + subst r'. split; intros ??; congruence.
Qed.

(** * Further properties *)

(** ** Lines *)

Lemma split_LF_nonempty text : split_LF text ≠ [].
Proof.
  destruct text as [|c rest]; simpl; [done|].
  destruct (c =? LF)%N; [done|]. by destruct (split_LF rest).
Qed.

Lemma join_LF_cons line rest :
  rest ≠ [] → join_LF (line :: rest) = line ++ LF :: join_LF rest.
Proof. by destruct rest. Qed.

Lemma split_LF_join text : join_LF (split_LF text) = text.
Proof.
  induction text as [|c rest IH]; [done|]. simpl.
  pose proof (split_LF_nonempty rest) as Hne.
  destruct (c =? LF)%N eqn:Hc.
  - apply N.eqb_eq in Hc as ->.
    rewrite join_LF_cons by done. simpl. by rewrite IH.
  - destruct (split_LF rest) as [|piece [|piece' pieces]]; [done|..].
    + simpl in *. by rewrite IH.
    + rewrite <-IH. reflexivity.
Qed.

Lemma split_LF_no_LF text : Forall (λ line, LF ∉ line) (split_LF text).
Proof.
  induction text as [|c rest IH]; simpl.
  - repeat constructor. apply not_elem_of_nil.
  - destruct (c =? LF)%N eqn:Hc.
    + constructor; [apply not_elem_of_nil|done].
    + destruct (split_LF rest) as [|piece pieces].
      * repeat constructor. apply N.eqb_neq in Hc.
        intros Hin%list_elem_of_singleton. congruence.
      * apply Forall_cons in IH as [Hpiece Hpieces].
        constructor; [|done]. apply N.eqb_neq in Hc.
        apply not_elem_of_cons. split; [congruence|done].
Qed.

Lemma split_LF_length text :
  length (split_LF text) = S (length (filter (λ c, c = LF) text)).
Proof.
  induction text as [|c rest IH]; [done|]. simpl.
  destruct (c =? LF)%N eqn:Hc.
  - apply N.eqb_eq in Hc as ->. rewrite filter_cons_True by done.
    simpl. by rewrite IH.
  - apply N.eqb_neq in Hc. rewrite filter_cons_False by done.
    destruct (split_LF rest); simpl in *; [done|lia].
Qed.

Lemma split_LF_snoc_LF text :
  ∃ pieces, pieces ≠ [] ∧ split_LF (text ++ [LF]) = pieces ++ [[]].
Proof.
  induction text as [|c rest (pieces & Hne & IH)]; simpl.
  - by exists [[]].
  - rewrite IH. destruct (c =? LF)%N.
    + by exists ([] :: pieces).
    + destruct pieces as [|piece pieces]; [done|]. simpl.
      by exists ((c :: piece) :: pieces).
Qed.

Lemma join_splitLines_eq text : join_LF (splitLines text) = text.
Proof.
  unfold splitLines. case_bool_decide as Hlen; [by destruct text|].
  apply split_LF_join.
Qed.

(** X1.  Joining the lines of [splitLines] with line feeds gives the text
    back, for every text (the empty one included), and no line holds a
    line feed. *)
Theorem splitLines_join (text : jsstring) :
  join_LF (splitLines text) = text
  ∧ Forall (λ line, LF ∉ line) (splitLines text).
Proof.
  unfold splitLines. case_bool_decide as Hlen.
  - destruct text; [|done]. split; [done|constructor].
  - split; [apply split_LF_join|apply split_LF_no_LF].
Qed.

(** X2.  [splitLines] returns no line for the empty text and otherwise one
    line more than the text has line feeds; so a text that ends with a
    line feed has an empty last line. *)
Theorem splitLines_count (text : jsstring) :
  length (splitLines text)
  = match text with
    | [] => 0
    | _ :: _ => S (length (filter (λ c, c = LF) text))
    end
  ∧ (last text = Some LF → last (splitLines text) = Some []).
Proof.
  split.
  - unfold splitLines. destruct text as [|c rest]; [done|].
    rewrite bool_decide_eq_false_2 by done. apply split_LF_length.
  - intros [rest ->]%last_Some. unfold splitLines.
    rewrite bool_decide_eq_false_2
      by (rewrite length_app; simpl; lia).
    destruct (split_LF_snoc_LF rest) as (pieces & _ & ->). apply last_snoc.
Qed.

(** ** Newlines *)

Lemma normalizeNewlines_length text :
  length (normalizeNewlines text) ≤ length text.
Proof.
  induction text as [text IH] using (induction_ltof1 _ (@length N)).
  unfold ltof in IH. destruct text as [|c rest]; simpl; [done|].
  destruct (c =? CR)%N.
  - destruct rest as [|d rest']; simpl; [lia|].
    destruct (d =? LF)%N.
    + specialize (IH rest'). simpl in IH. lia.
    + specialize (IH (d :: rest')). simpl in IH. lia.
  - specialize (IH rest). simpl in *. lia.
Qed.

(** X3.  [normalizeNewlines] is idempotent and never lengthens a text. *)
Theorem normalizeNewlines_idempotent (text : jsstring) :
  normalizeNewlines (normalizeNewlines text) = normalizeNewlines text
  ∧ length (normalizeNewlines text) ≤ length text.
Proof. split; [apply normalizeNewlines_idemp|apply normalizeNewlines_length]. Qed.

(** X4.  [normalizeNewlines] returns a text without carriage returns
    unchanged. *)
Theorem normalizeNewlines_without_CR (text : jsstring) :
  CR ∉ text → normalizeNewlines text = text.
Proof. apply normalizeNewlines_id. Qed.

Lemma normalizeNewlines_without_CR_witness :
  (CR ∉ (js "a" ++ [LF] ++ js "b"))
  ∧ normalizeNewlines (js "a" ++ [LF] ++ js "b") = js "a" ++ [LF] ++ js "b".
Proof.
  assert (CR ∉ (js "a" ++ [LF] ++ js "b")) as Hno.
  { vm_compute. intros Hin. repeat (apply elem_of_cons in Hin as [Hin|Hin]; [discriminate|]).
    by apply elem_of_nil in Hin. }
  split; [exact Hno|]. exact (normalizeNewlines_without_CR _ Hno).
Defined.

(** ** Token runs *)

Lemma prefix_len_take p l :
  Forall (λ c, p c = true) (take (prefix_len p l) l).
Proof.
  induction l as [|c rest IH]; simpl; [constructor|].
  destruct (p c) eqn:Hc; simpl; by constructor.
Qed.

Lemma prefix_len_drop p l :
  drop (prefix_len p l) l = []
  ∨ ∃ c rest, drop (prefix_len p l) l = c :: rest ∧ p c = false.
Proof.
  induction l as [|c rest IH]; simpl; [by left|].
  destruct (p c) eqn:Hc; simpl; [done|]. right. by exists c, rest.
Qed.

Lemma exec_word_runs text from index word :
  exec_word text from = Some (index, word) →
  whitespace_run (take (index - from) (drop from text))
  ∧ word_run word
  ∧ (index + length word = length text
     ∨ ∃ c, text !! (index + length word) = Some c ∧ is_whitespace c = true).
Proof.
  intros Hexec.
  destruct (exec_word_spec _ _ _ _ Hexec) as (Hfrom & Hend & Hlen & _).
  revert Hexec Hend Hlen. unfold exec_word.
  case_bool_decide as Hword; [done|]. intros [= <- <-].
  set (skipped := prefix_len is_whitespace (drop from text)) in *.
  rewrite drop_drop in *.
  set (tail := drop (from + skipped) text) in *.
  pose proof (prefix_len_le (λ c, negb (is_whitespace c)) tail) as Hk.
  pose proof (prefix_len_take (λ c, negb (is_whitespace c)) tail) as Htake.
  pose proof (prefix_len_drop (λ c, negb (is_whitespace c)) tail) as Hdrop.
  set (k := prefix_len _ tail) in *.
  rewrite length_take. intros Hend Hlen.
  assert (length tail = length text - (from + skipped))
    by (unfold tail; by rewrite length_drop).
  rewrite Nat.min_l by lia. split_and!.
  - replace (from + skipped - from) with skipped by lia.
    apply prefix_len_take.
  - eapply Forall_impl; [exact Htake|]. intros c Hc. simpl in Hc.
    by apply negb_true_iff in Hc.
  - destruct Hdrop as [Hnil|(c & rest & Hcons & Hc)].
    + left. apply (f_equal length) in Hnil.
      rewrite length_drop in Hnil. simpl in Hnil. lia.
    + right. exists c. split; [|by apply negb_false_iff in Hc].
      pose proof (lookup_drop tail k 0) as Hl.
      rewrite Hcons, Nat.add_0_r in Hl. simpl in Hl.
      unfold tail in Hl. by rewrite lookup_drop in Hl.
Qed.

Lemma exec_word_None text from :
  exec_word text from = None → whitespace_run (drop from text).
Proof.
  unfold exec_word. case_bool_decide as Hword; [|done]. intros _.
  pose proof (prefix_len_take is_whitespace (drop from text)) as Htake.
  destruct (prefix_len_drop is_whitespace (drop from text))
    as [Hnil|(c & rest & Hcons & Hc)].
  - rewrite <-(take_drop (prefix_len is_whitespace (drop from text))
                 (drop from text)), Hnil, app_nil_r. done.
  - rewrite Hcons in Hword. simpl in Hword. by rewrite Hc in Hword.
Qed.

Lemma tokens_alternate_snoc toks tok :
  tokens_alternate toks →
  (∀ a, last toks = Some a →
     (word_run a ∧ whitespace_run tok) ∨ (whitespace_run a ∧ word_run tok)) →
  tokens_alternate (toks ++ [tok]).
Proof.
  intros Halt Hlast i a b Ha Hb.
  destruct (decide (S i < length toks)) as [Hlt|Hge].
  - rewrite lookup_app_l in Ha, Hb by lia. eauto.
  - apply lookup_snoc_Some in Hb as [[? _]|[Hi <-]]; [lia|].
    rewrite lookup_app_l in Ha by lia.
    apply Hlast. rewrite last_lookup, <-Hi. done.
Qed.

Section TokenRuns.
Variable text : jsstring.

Local Abbreviation TokRuns := (TokRuns text).

Lemma tok_body_runs st :
  TokRuns st → tok_cond text st = true → TokRuns (tok_body text st).
Proof.
  intros (Hinv & Hok & Halt & Hlast) Hcond.
  destruct (tok_body_inv text st Hinv Hcond) as [Hinv' _].
  split; [done|]. clear Hinv'. destruct Hinv as [Hle _].
  revert Hcond. unfold tok_cond, tok_body.
  rewrite bool_decide_eq_true. intros [[index word] Hexec]. rewrite Hexec.
  destruct (exec_word_spec _ _ _ _ Hexec) as (Hfrom & Hend & Hlen & Hword).
  destruct (exec_word_runs _ _ _ _ Hexec) as (Hskip & Hrun & Hstop).
  assert (word ≠ []) as Hne by (destruct word; [simpl in Hlen; lia|done]).
  assert (text !! index = word !! 0) as Hfirst.
  { rewrite Hword, lookup_take_lt, lookup_drop by lia. f_equal. lia. }
  simpl. case_bool_decide as Hgap.
  - (* whitespace between the last token and the word *)
    rewrite substring_ordered by lia.
    set (gap := take (index - lastIndex st) (drop (lastIndex st) text)) in *.
    assert (gap ≠ []) as Hgne.
    { intros Hnil. apply (f_equal length) in Hnil. unfold gap in Hnil.
      rewrite length_take, length_drop in Hnil. simpl in Hnil. lia. }
    split_and!.
    + rewrite !Forall_app, !Forall_singleton. split_and!; [done|by eauto..].
    + apply tokens_alternate_snoc; [apply tokens_alternate_snoc; [done|]|].
      * intros a Ha. left. split; [|done].
        destruct Hlast as [[Hnil _]|(w & Hw & Hwr & _)]; [by rewrite Hnil in Ha|].
        congruence.
      * intros a Ha. rewrite last_snoc in Ha. injection Ha as <-. by right.
    + right. exists word. by rewrite last_snoc.
  - (* the word starts where the last token ended *)
    assert (index = lastIndex st) as -> by lia.
    destruct Hlast as [[Hnil Hzero]|(w & Hw & Hwr & Hstop')].
    + rewrite Hnil. simpl. split_and!.
      * apply Forall_singleton. by eauto.
      * intros i a b Ha Hb. by destruct i.
      * right. by exists word.
    + exfalso. destruct word as [|c0 word']; [done|].
      apply Forall_cons in Hrun as [Hc0 _]. simpl in *.
      destruct Hstop' as [Heq|(c & Hc & Hws)]; [lia|]. congruence.
Qed.

Lemma tokenize_runs :
  ∃ toks, tokenize text = Some toks
    ∧ ((text = [] ∧ toks = [[]]) ∨ Forall (λ tok, tok ≠ []) toks)
    ∧ Forall (λ tok, whitespace_run tok ∨ word_run tok) toks
    ∧ tokens_alternate toks.
Proof.
  unfold tokenize, tokenize_fuel.
  destruct (while_inv (tok_cond text) (tok_body text) TokRuns
              (λ st, length text - lastIndex st))
    with (fuel := length text) (s := mkTokState 0 [])
    as (st & -> & ((Hle & Hcat) & Hok & Halt & Hlast) & Hexit).
  - intros s Hs Hc. split; [by apply tok_body_runs|].
    destruct Hs as [Hs _]. by destruct (tok_body_inv text s Hs Hc).
  - split_and!; [split; simpl; [lia|by rewrite take_0]|constructor| |by left].
    intros i a b Ha. done.
  - simpl. lia.
  - simpl. eexists. split; [done|].
    unfold tok_cond in Hexit. apply bool_decide_eq_false in Hexit.
    assert (exec_word text (lastIndex st) = None) as Hnone
      by (destruct (exec_word text (lastIndex st)); [by destruct Hexit|done]).
    apply exec_word_None in Hnone.
    destruct (decide (lastIndex st < length text)) as [Hrest|Hrest].
    + (* trailing whitespace *)
      rewrite !(bool_decide_eq_true_2 (lastIndex st < length text)) by done.
      rewrite substring_ordered by lia.
      rewrite take_ge by (rewrite length_drop; lia).
      rewrite length_app. simpl.
      rewrite bool_decide_eq_true_2 by lia.
      assert (drop (lastIndex st) text ≠ []) as Hdne.
      { intros Hnil. apply (f_equal length) in Hnil.
        rewrite length_drop in Hnil. simpl in Hnil. lia. }
      split_and!.
      * right. apply Forall_app. split; [|by apply Forall_singleton].
        eapply Forall_impl; [exact Hok|]. by intros ? [??].
      * apply Forall_app. split; [|apply Forall_singleton; by left].
        eapply Forall_impl; [exact Hok|]. by intros ? [??].
      * apply tokens_alternate_snoc; [done|]. intros a Ha. left. split; [|done].
        destruct Hlast as [[Hnil _]|(w & Hw & Hwr & _)]; [by rewrite Hnil in Ha|].
        congruence.
    + rewrite !(bool_decide_eq_false_2 (lastIndex st < length text)) by done.
      destruct Hlast as [[Hnil Hzero]|(w & Hw & Hwr & _)].
      * rewrite Hnil. simpl. rewrite Hzero in Hrest.
        destruct text; [|simpl in Hrest; lia]. split_and!.
        -- by left.
        -- apply Forall_singleton. left. constructor.
        -- intros i a b Ha Hb. by destruct i.
      * destruct (tokens st) as [|t ts] eqn:Htoks; [done|]. simpl.
        split_and!.
        -- right. eapply Forall_impl; [exact Hok|]. by intros ? [??].
        -- eapply Forall_impl; [exact Hok|]. by intros ? [??].
        -- done.
Qed.
End TokenRuns.

(** X5.  The tokens of a text, concatenated, give the text back, and there
    is always at least one token. *)
Theorem tokenize_concat (text : jsstring) :
  ∃ toks, tokenize text = Some toks ∧ concat toks = text ∧ toks ≠ [].
Proof.
  destruct (tokenize_spec text) as (toks & Htoks & Hcat & Hlen).
  exists toks. split_and!; [done|done|]. destruct toks; [simpl in Hlen; lia|done].
Qed.

(** X6.  The tokens of a non-empty text are non-empty runs, each made only
    of whitespace or only of non-whitespace code units, and consecutive
    tokens are of opposite kinds, so each run is maximal; the empty text
    has the single empty token. *)
Theorem tokenize_alternating_runs (text : jsstring) :
  ∃ toks, tokenize text = Some toks
    ∧ (text = [] → toks = [[]])
    ∧ (text ≠ [] → Forall (λ tok, tok ≠ []) toks)
    ∧ Forall (λ tok, whitespace_run tok ∨ word_run tok) toks
    ∧ tokens_alternate toks.
Proof.
  destruct (tokenize_runs text) as (toks & Htoks & Hne & Hruns & Halt).
  exists toks. split_and!; try done.
  - intros ->. vm_compute in Htoks. congruence.
  - intros Htext. by destruct Hne as [[? _]|?].
Qed.

(** X7.  A text without any non-whitespace code unit is a single token. *)
Theorem tokenize_blank (text : jsstring) :
  whitespace_run text → tokenize text = Some [text].
Proof.
  intros Hws.
  destruct (tokenize_runs text) as (toks & Htoks & Hne & Hruns & Halt).
  destruct (tokenize_spec text) as (toks' & Htoks' & Hcat & Hlen).
  rewrite Htoks in Htoks'. injection Htoks' as <-. rewrite Htoks. f_equal.
  destruct Hne as [[-> ->]|Hne]; [done|].
  assert (Forall whitespace_run toks) as Hall.
  { subst text. clear -Hws Hruns Hne.
    induction toks as [|tok toks IH]; [constructor|].
    simpl in Hws. apply Forall_app in Hws as [Htok Htoks].
    apply Forall_cons in Hruns as [_ Hruns].
    apply Forall_cons in Hne as [_ Hne]. constructor; auto. }
  destruct toks as [|a [|b toks]]; [simpl in Hlen; lia| |].
  { simpl in Hcat. rewrite app_nil_r in Hcat. by subst. }
  exfalso. apply Forall_cons in Hne as [Ha Hne].
  apply Forall_cons in Hne as [Hb _].
  apply Forall_cons in Hall as [Hwa Hall].
  apply Forall_cons in Hall as [Hwb _].
  destruct (Halt 0 a b eq_refl eq_refl) as [[Hw _]|[_ Hw]].
  - destruct a as [|c a]; [done|].
    apply Forall_cons in Hw as [? _]. apply Forall_cons in Hwa as [? _]. congruence.
  - destruct b as [|c b]; [done|].
    apply Forall_cons in Hw as [? _]. apply Forall_cons in Hwb as [? _]. congruence.
Qed.

Lemma tokenize_blank_witness :
  whitespace_run (js "   ") ∧ tokenize (js "   ") = Some [js "   "].
Proof.
  assert (whitespace_run (js "   ")) as Hws by (repeat constructor).
  split; [exact Hws|]. exact (tokenize_blank _ Hws).
Defined.

(** ** The position map, exactly *)

Lemma recordLine_exact lines idx m line :
  map_exact lines idx m → lines !! idx = Some line →
  map_exact lines (S idx) (recordLine m idx line).
Proof.
  intros Hm Hidx line'. specialize (Hm line'). unfold recordLine.
  destruct (decide (line = line')) as [<-|Hne].
  - rewrite lookup_insert_eq.
    destruct (m !! line) as [old|] eqn:Hold.
    + rewrite Hold. simpl. destruct Hm as (Hne & Hsorted & Hin). split_and!.
      * by destruct old.
      * apply StronglySorted_app_2; [|done|by repeat constructor].
        intros a b Ha ->%list_elem_of_singleton. by apply Hin in Ha as [? _].
      * intros i. rewrite elem_of_app, list_elem_of_singleton, Hin. split.
        -- intros [[??]| ->]; [split; [lia|done]|split; [lia|done]].
        -- intros [Hlt Hi]. destruct (decide (i = idx)) as [->|?]; [by right|].
           left. split; [lia|done].
    + rewrite lookup_insert_eq. simpl. split_and!; [done|by repeat constructor|].
      intros i. rewrite list_elem_of_singleton. split.
      * intros ->. split; [lia|done].
      * intros [Hlt Hi]. destruct (decide (i = idx)) as [->|?]; [done|].
        exfalso. apply (Hm i); [lia|done].
  - rewrite lookup_insert_ne by done.
    assert (match m !! line with
            | Some _ => m
            | None => <[line:=[]]> m
            end !! line' = m !! line') as ->.
    { destruct (m !! line); [done|]. by rewrite lookup_insert_ne. }
    destruct (m !! line') as [idxs|].
    + destruct Hm as (? & ? & Hin). split_and!; [done|done|].
      intros i. rewrite Hin. split; intros [??]; (split; [|done]); [lia|].
      destruct (decide (i = idx)) as [->|?]; [congruence|lia].
    + intros i Hlt. destruct (decide (i = idx)) as [->|?]; [congruence|].
      apply Hm. lia.
Qed.

Lemma buildLineMap_from_exact all idx lines m :
  map_exact all idx m → drop idx all = lines →
  map_exact all (length all) (buildLineMap_from idx lines m).
Proof.
  revert idx m. induction lines as [|line rest IH]; intros idx m Hm Hdrop; simpl.
  - apply (f_equal length) in Hdrop. rewrite length_drop in Hdrop. simpl in Hdrop.
    intros line. specialize (Hm line). destruct (m !! line) as [idxs|].
    + destruct Hm as (? & ? & Hin). split_and!; [done|done|].
      intros i. rewrite Hin. split; intros [? Hi]; (split; [|done]); [|lia].
      by apply lookup_lt_Some in Hi.
    + intros i Hlt Hi. pose proof (lookup_lt_Some _ _ _ Hi).
      apply (Hm i); [lia|done].
  - apply IH.
    + apply recordLine_exact; [done|].
      pose proof (lookup_drop all idx 0) as Hl.
      rewrite Hdrop, Nat.add_0_r in Hl. done.
    + pose proof (drop_drop all 1 idx) as Hd.
      rewrite Hdrop, Nat.add_1_r in Hd. done.
Qed.

Lemma buildLineMap_exact lines :
  map_exact lines (length lines) (buildLineMap lines).
Proof.
  apply buildLineMap_from_exact; [|done].
  intros line. rewrite lookup_empty. intros i Hi. lia.
Qed.

(** X8.  The position map of [computeDiff] holds, under each line that
    occurs, exactly the positions where it occurs, in increasing order, and
    holds nothing under a line that does not occur. *)
Theorem buildLineMap_lookup (lines : list jsstring) (line : jsstring) :
  match buildLineMap lines !! line with
  | Some idxs =>
      idxs ≠ [] ∧ StronglySorted lt idxs
      ∧ ∀ i, i ∈ idxs ↔ lines !! i = Some line
  | None => line ∉ lines
  end.
Proof.
  pose proof (buildLineMap_exact lines line) as Hm.
  destruct (buildLineMap lines !! line) as [idxs|].
  - destruct Hm as (? & ? & Hin). split_and!; [done|done|].
    intros i. rewrite Hin. split; [by intros [_ ?]|].
    intros Hi. split; [|done]. by apply lookup_lt_Some in Hi.
  - intros [i Hi]%list_elem_of_lookup.
    apply (Hm i); [|done]. by apply lookup_lt_Some in Hi.
Qed.

(** ** The two searches *)

Lemma findBestMatch_fold_closest possibleMatches rightIdx acc :
  (acc.1 = None ↔ acc.2 = None) →
  (∀ b, acc.1 = Some b → acc.2 = Some (b - rightIdx) ∧ rightIdx ≤ b) →
  let res := foldl (bestMatchStep rightIdx) acc possibleMatches in
  (∀ b, acc.1 = Some b → ∃ b', res.1 = Some b' ∧ b' ≤ b)
  ∧ (∀ m, m ∈ possibleMatches → rightIdx ≤ m →
       ∃ b', res.1 = Some b' ∧ b' ≤ m).
Proof.
  revert acc. induction possibleMatches as [|matchIdx rest IH];
    intros acc Hnone Hsome; simpl.
  - split; [by eauto|]. by intros m Hm%elem_of_nil.
  - set (acc' := bestMatchStep rightIdx acc matchIdx).
    assert ((acc'.1 = None ↔ acc'.2 = None)
            ∧ (∀ b, acc'.1 = Some b → acc'.2 = Some (b - rightIdx) ∧ rightIdx ≤ b)
            ∧ (∀ b, acc.1 = Some b → ∃ b', acc'.1 = Some b' ∧ b' ≤ b)
            ∧ (rightIdx ≤ matchIdx → ∃ b', acc'.1 = Some b' ∧ b' ≤ matchIdx))
      as (Hnone' & Hsome' & Hkeep & Hnew).
    { unfold acc', bestMatchStep. destruct acc as [[b0|] [d0|]]; simpl in *.
      - destruct (Hsome b0 eq_refl) as [[= ->] ?].
        repeat case_bool_decide; simpl; split_and!;
          try done; try (intros b [= <-]); try (intros _);
          first [done | lia | (eexists; split; [reflexivity|lia])
                | (split; [done|lia]) ].
      - by destruct (Hsome b0 eq_refl).
      - destruct Hnone as [Hn _]. by specialize (Hn eq_refl).
      - case_bool_decide; simpl; split_and!;
          try done; try (intros b [= <-]); try (intros _);
          first [done | lia | (eexists; split; [reflexivity|lia])
                | (split; [done|lia]) ]. }
    destruct (IH acc' Hnone' Hsome') as [IH1 IH2]. split.
    + intros b Hb. destruct (Hkeep b Hb) as (b' & Hb' & ?).
      destruct (IH1 b' Hb') as (b'' & ? & ?). exists b''. split; [done|lia].
    + intros m [->|Hm]%elem_of_cons Hge.
      * destruct (Hnew Hge) as (b' & Hb' & ?).
        destruct (IH1 b' Hb') as (b'' & ? & ?). exists b''. split; [done|lia].
      * by apply IH2.
Qed.

Lemma findBestMatch_min (possibleMatches : list nat) (rightIdx : nat) :
  match findBestMatch possibleMatches rightIdx with
  | Some b =>
      b ∈ possibleMatches ∧ rightIdx ≤ b
      ∧ ∀ m, m ∈ possibleMatches → rightIdx ≤ m → b ≤ m
  | None => ∀ m, m ∈ possibleMatches → m < rightIdx
  end.
Proof.
  pose proof (findBestMatch_spec possibleMatches rightIdx) as Hspec.
  destruct (findBestMatch_fold_closest possibleMatches rightIdx (None, None))
    as [_ Hclosest]; [done|done|].
  fold (findBestMatch possibleMatches rightIdx) in Hclosest.
  destruct (findBestMatch possibleMatches rightIdx) as [b|].
  - destruct (Hspec b eq_refl). split_and!; [done|done|].
    intros m Hm Hge. destruct (Hclosest m Hm Hge) as (b' & [= <-] & ?). done.
  - intros m Hm. destruct (decide (rightIdx ≤ m)) as [Hge|]; [|lia].
    by destruct (Hclosest m Hm Hge) as (b' & ? & _).
Qed.

Lemma findLeftMatch_min leftLines target i count :
  match findLeftMatch leftLines target i count with
  | Some l =>
      i ≤ l < i + count ∧ leftLines !! l = target
      ∧ ∀ k, i ≤ k < l → leftLines !! k ≠ target
  | None => ∀ k, i ≤ k < i + count → leftLines !! k ≠ target
  end.
Proof.
  revert i. induction count as [|count IH]; intros i; simpl; [intros; lia|].
  case_bool_decide as Hi.
  - split; [lia|]. split; [done|]. intros; lia.
  - specialize (IH (S i)). destruct (findLeftMatch _ _ _ _) as [l|].
    + destruct IH as (? & ? & Hbefore). split; [lia|]. split; [done|].
      intros k Hk. destruct (decide (k = i)) as [->|]; [done|]. apply Hbefore. lia.
    + intros k Hk. destruct (decide (k = i)) as [->|]; [done|]. apply IH. lia.
Qed.

(** X9.  [bestMatch] is the closest candidate position at or after the
    current right index: it is one of the candidates, no candidate lies
    between the index and it, and it is [-1] only when no candidate lies
    at or after the index. *)
Theorem findBestMatch_closest (possibleMatches : list nat) (rightIdx : nat) :
  match findBestMatch possibleMatches rightIdx with
  | Some b =>
      b ∈ possibleMatches ∧ rightIdx ≤ b
      ∧ ∀ m, m ∈ possibleMatches → rightIdx ≤ m → b ≤ m
  | None => ∀ m, m ∈ possibleMatches → m < rightIdx
  end.
Proof. apply findBestMatch_min. Qed.

(** X10.  [leftMatch] is the first position among the [count] positions
    from [i] on whose left line is the wanted one, and [-1] when there is
    none. *)
Theorem findLeftMatch_first (leftLines : list jsstring)
    (target : option jsstring) (i count : nat) :
  match findLeftMatch leftLines target i count with
  | Some l =>
      i ≤ l < i + count ∧ leftLines !! l = target
      ∧ ∀ k, i ≤ k < l → leftLines !! k ≠ target
  | None => ∀ k, i ≤ k < i + count → leftLines !! k ≠ target
  end.
Proof. apply findLeftMatch_min. Qed.

(** ** Shapes, lengths and the choice of Modify *)

Lemma map_exact_ok lines m : map_exact lines (length lines) m → map_ok lines m.
Proof.
  intros Hm line idxs i Hlook Hin. specialize (Hm line).
  rewrite Hlook in Hm. destruct Hm as (_ & _ & Hi). by apply Hi in Hin as [_ ?].
Qed.

Section DiffShapes.
Variables leftLines rightLines : list jsstring.
Variable rightLineMap : gmap jsstring (list nat).
Hypothesis rightLineMap_exact :
  map_exact rightLines (length rightLines) rightLineMap.

Local Abbreviation DiffShape := (DiffShape leftLines rightLines).

Lemma possibleMatches_complete i k :
  is_Some (leftLines !! i) → rightLines !! k = leftLines !! i →
  k ∈ default [] (leftLines !! i ≫= λ line, rightLineMap !! line).
Proof.
  intros [line Hline] Hk. rewrite Hline in *. simpl.
  pose proof (rightLineMap_exact line) as Hm.
  destruct (rightLineMap !! line) as [idxs|]; simpl.
  - destruct Hm as (_ & _ & Hin). apply Hin. split; [|done].
    by apply lookup_lt_Some in Hk.
  - exfalso. apply (Hm k); [|done]. by apply lookup_lt_Some in Hk.
Qed.

(** When the current lines differ, an iteration that advances both
    indices pushes a Modify record, and then neither line occurs nearby on
    the other side. *)
Lemma diff_body_differ st st' :
  leftIndex st < length leftLines → rightIndex st < length rightLines →
  leftLines !! leftIndex st ≠ rightLines !! rightIndex st →
  st' = diff_body leftLines rightLines rightLineMap st →
  leftIndex st' = leftIndex st ∨ rightIndex st' = rightIndex st
  ∨ (st' = pushModify leftLines rightLines st
     ∧ no_match_nearby leftLines rightLines (leftIndex st) (rightIndex st)).
Proof.
  intros Hl Hr Hne ->. unfold diff_body.
  rewrite (bool_decide_eq_false_2 (length leftLines ≤ leftIndex st)) by lia.
  rewrite (bool_decide_eq_false_2 (length rightLines ≤ rightIndex st)) by lia.
  rewrite (bool_decide_eq_false_2 (_ = _)) by done.
  match goal with
  | |- context [findBestMatch ?pm ?ri] =>
      pose proof (findBestMatch_min pm ri) as Hbest;
      pose proof (possibleMatches_complete (leftIndex st)) as Hcomplete;
      set (bestMatch := findBestMatch pm ri) in *
  end.
  match goal with
  | |- context [findLeftMatch ?ls ?t ?i ?c] =>
      pose proof (findLeftMatch_min ls t i c) as Hleft;
      set (leftMatch := findLeftMatch ls t i c) in *
  end.
  assert (match bestMatch with
          | Some b => rightIndex st + 10 ≤ b
          | None => True
          end →
          ∀ k, rightIndex st ≤ k < rightIndex st + 10 →
               rightLines !! k ≠ leftLines !! leftIndex st) as HwinR.
  { intros Hfar k Hk Heq.
    specialize (Hcomplete k (lookup_lt_is_Some_2 _ _ Hl) Heq).
    destruct bestMatch as [b|].
    - destruct Hbest as (_ & _ & Hmin). specialize (Hmin k Hcomplete). lia.
    - specialize (Hbest k Hcomplete). lia. }
  assert (match leftMatch with
          | Some l => leftIndex st + 10 ≤ l
          | None => True
          end →
          ∀ k, leftIndex st < k < leftIndex st + 10 →
               leftLines !! k ≠ rightLines !! rightIndex st) as HwinL.
  { intros Hfar k Hk Heq.
    destruct leftMatch as [l|].
    - destruct Hleft as (_ & _ & Hbefore). apply (Hbefore k); [lia|done].
    - destruct (decide (k < length leftLines)) as [Hlt|Hge].
      + apply (Hleft k); [lia|done].
      + rewrite lookup_ge_None_2 in Heq by lia.
        destruct (lookup_lt_is_Some_2 _ _ Hr) as [? Hsome]. congruence. }
  clear Hbest Hleft Hcomplete.
  destruct bestMatch as [b|], leftMatch as [l|]; simpl;
    repeat (case_bool_decide; simpl);
    first
      [ left; reflexivity
      | right; left; reflexivity
      | left; apply (proj1 (insertUntil_indices _ _ _))
      | right; left; apply (proj2 (deleteUntil_indices _ _ _))
      | right; right; split; [reflexivity|];
        split; [apply HwinR|apply HwinL]; first [done|lia] ].
Qed.

Lemma push_shape st r :
  DiffShape st → record_shape r → modify_far leftLines rightLines r →
  ∀ st', result st' = result st ++ [r] →
  leftIndex st ≤ leftIndex st' ≤ S (leftIndex st) →
  rightIndex st ≤ rightIndex st' ≤ S (rightIndex st) →
  leftIndex st + rightIndex st < leftIndex st' + rightIndex st' →
  DiffInv leftLines rightLines st' → DiffShape st'.
Proof.
  intros (_ & Hshape & Hfar & Hll & Hrl & Hlen) Hr Hf st' Hres ??? Hinv.
  split; [done|]. rewrite Hres, !Forall_app, !Forall_singleton, length_app.
  simpl. split_and!; try done; lia.
Qed.

Lemma pushInsert_shape st :
  DiffShape st → rightIndex st < length rightLines →
  DiffShape (pushInsert rightLines st).
Proof.
  intros Hst Hlt. destruct (lookup_lt_is_Some_2 _ _ Hlt) as [line Hline].
  eapply (push_shape st); [done| | |reflexivity|simpl; lia..|].
  - rewrite Hline. unfold record_shape. simpl. by eauto.
  - intros ?. done.
  - apply pushInsert_inv; [apply Hst|done].
Qed.

Lemma pushDelete_shape st :
  DiffShape st → leftIndex st < length leftLines →
  DiffShape (pushDelete leftLines st).
Proof.
  intros Hst Hlt. destruct (lookup_lt_is_Some_2 _ _ Hlt) as [line Hline].
  eapply (push_shape st); [done| | |reflexivity|simpl; lia..|].
  - rewrite Hline. unfold record_shape. simpl. by eauto.
  - intros ?. done.
  - apply pushDelete_inv; [apply Hst|done].
Qed.

Lemma insertUntil_shape count st :
  DiffShape st → rightIndex st + count ≤ length rightLines →
  DiffShape (insertUntil rightLines count st).
Proof.
  revert st. induction count as [|count IH]; intros st Hst Hle; simpl; [done|].
  apply IH; [apply pushInsert_shape; [done|lia]|simpl; lia].
Qed.

Lemma deleteUntil_shape count st :
  DiffShape st → leftIndex st + count ≤ length leftLines →
  DiffShape (deleteUntil leftLines count st).
Proof.
  revert st. induction count as [|count IH]; intros st Hst Hle; simpl; [done|].
  apply IH; [apply pushDelete_shape; [done|lia]|simpl; lia].
Qed.

Lemma diff_body_shape st :
  DiffShape st → diff_cond leftLines rightLines st = true →
  DiffShape (diff_body leftLines rightLines rightLineMap st).
Proof.
  intros Hst Hcond.
  pose proof (map_exact_ok _ _ rightLineMap_exact) as Hok.
  pose proof (diff_body_inv _ _ _ Hok st (proj1 Hst) Hcond) as Hinv'.
  assert (leftLineNum st = S (leftIndex st)
          ∧ rightLineNum st = S (rightIndex st)) as [Hln Hrn]
    by (destruct Hst as [[] _]; done).
  destruct (diff_body_cases _ _ _ Hok st _ Hcond eq_refl)
    as [[? Heq]|[[? Heq]|[(Hl&Hr&Hsame&Heq)|[(Hl&Hr&Hne&Heq)|[(n&?&?&Heq)|(n&?&?&Heq)]]]]].
  - rewrite Heq. by apply pushInsert_shape.
  - rewrite Heq. by apply pushDelete_shape.
  - rewrite Heq in *.
    destruct (lookup_lt_is_Some_2 _ _ Hl) as [l Hline].
    destruct (lookup_lt_is_Some_2 _ _ Hr) as [r Hline'].
    eapply (push_shape st); [done| | |reflexivity|simpl; lia..|done].
    + rewrite Hline, Hline'. unfold record_shape. simpl. by eauto.
    + intros ?. done.
  - destruct (diff_body_differ st _ Hl Hr Hne eq_refl)
      as [Hsame|[Hsame|[_ Hfar]]]; [rewrite Heq in Hsame; simpl in Hsame; lia..|].
    rewrite Heq in *.
    destruct (lookup_lt_is_Some_2 _ _ Hl) as [l Hline].
    destruct (lookup_lt_is_Some_2 _ _ Hr) as [r Hline'].
    eapply (push_shape st); [done| | |reflexivity|simpl; lia..|done].
    + rewrite Hline, Hline'. unfold record_shape. simpl. by eauto.
    + intros _. exists (leftIndex st), (rightIndex st). simpl.
      rewrite Hln, Hrn. done.
  - rewrite Heq. by apply insertUntil_shape.
  - rewrite Heq. by apply deleteUntil_shape.
Qed.

Lemma diff_loop_shape fuel :
  length leftLines + length rightLines ≤ fuel →
  ∃ st, while (diff_cond leftLines rightLines)
          (diff_body leftLines rightLines rightLineMap) fuel diff_init = Some st
        ∧ DiffShape st
        ∧ leftIndex st = length leftLines
        ∧ rightIndex st = length rightLines.
Proof.
  intros Hfuel.
  destruct (while_inv (diff_cond leftLines rightLines)
              (diff_body leftLines rightLines rightLineMap)
              DiffShape (diff_measure leftLines rightLines))
    with (fuel := fuel) (s := diff_init)
    as (st & Hrun & Hinv & Hexit).
  - intros s Hs Hc. split; [by apply diff_body_shape|].
    pose proof (map_exact_ok _ _ rightLineMap_exact) as Hok.
    destruct (diff_body_advances _ _ _ Hok s Hc) as (?&?&?).
    destruct (diff_body_shape s Hs Hc) as [[] _]. unfold diff_measure. lia.
  - split; [apply diff_init_inv|]. simpl. split_and!; by try constructor.
  - unfold diff_measure. simpl. lia.
  - exists st. split_and!; [done|done|..];
      unfold diff_cond in Hexit; apply orb_false_iff in Hexit;
      rewrite !bool_decide_eq_false in Hexit; destruct Hinv as [[] _]; lia.
Qed.
End DiffShapes.

Lemma computeDiff_shape_spec left right :
  ∃ res, computeDiff left right = Some res
    ∧ Forall record_shape res
    ∧ Forall (modify_far (splitLines (normalizeNewlines left))
                (splitLines (normalizeNewlines right))) res
    ∧ length (splitLines (normalizeNewlines left)) ≤ length res
    ∧ length (splitLines (normalizeNewlines right)) ≤ length res
    ∧ length res ≤ length (splitLines (normalizeNewlines left))
                   + length (splitLines (normalizeNewlines right)).
Proof.
  unfold computeDiff, computeDiff_fuel.
  destruct (diff_loop_shape (splitLines (normalizeNewlines left))
              (splitLines (normalizeNewlines right)) _
              (buildLineMap_exact _) _ (Nat.le_refl _))
    as (st & -> & (_ & ? & ? & ? & ? & ?) & Hl & Hr).
  exists (result st). simpl. rewrite <-Hl, <-Hr. done.
Qed.

(** ** Results of [computeDiff] *)

(** X11.  Every record of [computeDiff] has the fields of its kind: Equal
    and Modify records carry both texts and both line numbers, Insert
    records only the right text and number, Delete records only the left
    ones. *)
Theorem computeDiff_record_shapes (left right : jsstring) :
  ∃ res, computeDiff left right = Some res ∧ Forall record_shape res.
Proof.
  destruct (computeDiff_shape_spec left right) as (res & ? & ? & _). eauto.
Qed.

(** X12.  [computeDiff] returns at least as many records as the longer
    input has lines and at most as many as both inputs have together. *)
Theorem computeDiff_length_bounds (left right : jsstring) :
  ∃ res, computeDiff left right = Some res
    ∧ length (splitLines (normalizeNewlines left)) ≤ length res
    ∧ length (splitLines (normalizeNewlines right)) ≤ length res
    ∧ length res ≤ length (splitLines (normalizeNewlines left))
                   + length (splitLines (normalizeNewlines right)).
Proof.
  destruct (computeDiff_shape_spec left right) as (res & ? & _ & _ & ?).
  eauto.
Qed.

(** X13.  [computeDiff] pairs two lines as Modify only when no match is
    near: for a Modify record with line numbers [i+1] and [j+1], left line
    [i] is not among the right lines [j .. j+9] and right line [j] is not
    among the left lines [i+1 .. i+9]. *)
Theorem computeDiff_modify_no_match_nearby (left right : jsstring) :
  ∃ res, computeDiff left right = Some res
    ∧ Forall (modify_far (splitLines (normalizeNewlines left))
                (splitLines (normalizeNewlines right))) res.
Proof.
  destruct (computeDiff_shape_spec left right) as (res & ? & _ & ? & _).
  eauto.
Qed.

Lemma imap_take_S {A B} (f : nat → A → B) (l : list A) k x :
  l !! k = Some x → imap f (take (S k) l) = imap f (take k l) ++ [f k x].
Proof.
  intros Hk. pose proof (lookup_lt_Some _ _ _ Hk).
  rewrite (take_S_r _ _ _ Hk), imap_app. simpl.
  by rewrite length_take, Nat.min_l, Nat.add_0_r by lia.
Qed.

Section WholeInputs.
Variable lines : list jsstring.
Variable rightLineMap : gmap jsstring (list nat).

Lemma diff_loop_same :
  ∃ st, while (diff_cond lines lines) (diff_body lines lines rightLineMap)
          (length lines + length lines) diff_init = Some st
        ∧ result st = equalRecords lines.
Proof.
  destruct (while_inv (diff_cond lines lines) (diff_body lines lines rightLineMap)
              (λ st, leftIndex st = rightIndex st
                     ∧ leftIndex st ≤ length lines
                     ∧ leftLineNum st = S (leftIndex st)
                     ∧ rightLineNum st = S (rightIndex st)
                     ∧ result st = equalRecords (take (leftIndex st) lines))
              (λ st, length lines - leftIndex st))
    with (fuel := length lines + length lines) (s := diff_init)
    as (st & Hrun & (Heq & Hle & _ & _ & Hres) & Hexit).
  - intros s (Heq & Hle & Hln & Hrn & Hres) Hcond.
    unfold diff_cond in Hcond. rewrite <-Heq, orb_diag in Hcond.
    apply bool_decide_eq_true in Hcond.
    destruct (lookup_lt_is_Some_2 _ _ Hcond) as [line Hline].
    assert (diff_body lines lines rightLineMap s = pushEqual lines lines s) as ->.
    { unfold diff_body.
      rewrite (bool_decide_eq_false_2 (length lines ≤ leftIndex s)) by lia.
      rewrite (bool_decide_eq_false_2 (length lines ≤ rightIndex s)) by lia.
      rewrite bool_decide_eq_true_2 by (by rewrite Heq). done. }
    simpl. split_and!; try lia.
    unfold equalRecords. rewrite (imap_take_S _ _ _ _ Hline).
    fold (equalRecords (take (leftIndex s) lines)).
    by rewrite <-Hres, <-Heq, Hline, Hln, Hrn, <-Heq.
  - simpl. split_and!; first [done|lia].
  - simpl. lia.
  - exists st. split; [done|]. rewrite Hres.
    unfold diff_cond in Hexit. rewrite <-Heq, orb_diag in Hexit.
    apply bool_decide_eq_false in Hexit. by rewrite take_ge by lia.
Qed.

Lemma diff_loop_empty_right :
  ∃ st, while (diff_cond lines []) (diff_body lines [] rightLineMap)
          (length lines + length (@nil jsstring)) diff_init = Some st
        ∧ result st = deleteRecords lines.
Proof.
  destruct (while_inv (diff_cond lines []) (diff_body lines [] rightLineMap)
              (λ st, rightIndex st = 0
                     ∧ leftIndex st ≤ length lines
                     ∧ leftLineNum st = S (leftIndex st)
                     ∧ result st = deleteRecords (take (leftIndex st) lines))
              (λ st, length lines - leftIndex st))
    with (fuel := length lines + length (@nil jsstring)) (s := diff_init)
    as (st & Hrun & (Hzero & Hle & _ & Hres) & Hexit).
  - intros s (Hzero & Hle & Hln & Hres) Hcond.
    unfold diff_cond in Hcond. apply orb_true_iff in Hcond.
    rewrite !bool_decide_eq_true in Hcond. simpl in Hcond.
    destruct Hcond as [Hcond|?]; [|lia].
    destruct (lookup_lt_is_Some_2 _ _ Hcond) as [line Hline].
    assert (diff_body lines [] rightLineMap s = pushDelete lines s) as ->.
    { unfold diff_body.
      rewrite (bool_decide_eq_false_2 (length lines ≤ leftIndex s)) by lia.
      rewrite bool_decide_eq_true_2 by (simpl; lia). done. }
    simpl. split_and!; try lia.
    unfold deleteRecords. rewrite (imap_take_S _ _ _ _ Hline).
    fold (deleteRecords (take (leftIndex s) lines)).
    by rewrite <-Hres, Hline, Hln.
  - simpl. split_and!; first [done|lia].
  - simpl. lia.
  - exists st. split; [done|]. rewrite Hres.
    unfold diff_cond in Hexit. apply orb_false_iff in Hexit as [Hexit _].
    apply bool_decide_eq_false in Hexit. by rewrite take_ge by lia.
Qed.

Lemma diff_loop_empty_left :
  ∃ st, while (diff_cond [] lines) (diff_body [] lines rightLineMap)
          (length (@nil jsstring) + length lines) diff_init = Some st
        ∧ result st = insertRecords lines.
Proof.
  destruct (while_inv (diff_cond [] lines) (diff_body [] lines rightLineMap)
              (λ st, leftIndex st = 0
                     ∧ rightIndex st ≤ length lines
                     ∧ rightLineNum st = S (rightIndex st)
                     ∧ result st = insertRecords (take (rightIndex st) lines))
              (λ st, length lines - rightIndex st))
    with (fuel := length (@nil jsstring) + length lines) (s := diff_init)
    as (st & Hrun & (Hzero & Hle & _ & Hres) & Hexit).
  - intros s (Hzero & Hle & Hrn & Hres) Hcond.
    unfold diff_cond in Hcond. apply orb_true_iff in Hcond.
    rewrite !bool_decide_eq_true in Hcond. simpl in Hcond.
    destruct Hcond as [?|Hcond]; [lia|].
    destruct (lookup_lt_is_Some_2 _ _ Hcond) as [line Hline].
    assert (diff_body [] lines rightLineMap s = pushInsert lines s) as ->.
    { unfold diff_body. rewrite bool_decide_eq_true_2 by (simpl; lia). done. }
    simpl. split_and!; try lia.
    unfold insertRecords. rewrite (imap_take_S _ _ _ _ Hline).
    fold (insertRecords (take (rightIndex s) lines)).
    by rewrite <-Hres, Hline, Hrn.
  - simpl. split_and!; first [done|lia].
  - simpl. lia.
  - exists st. split; [done|]. rewrite Hres.
    unfold diff_cond in Hexit. apply orb_false_iff in Hexit as [_ Hexit].
    apply bool_decide_eq_false in Hexit. by rewrite take_ge by lia.
Qed.
End WholeInputs.

Lemma computeDiff_same_lines left right :
  normalizeNewlines left = normalizeNewlines right →
  computeDiff left right
  = Some (equalRecords (splitLines (normalizeNewlines left))).
Proof.
  intros Heq. unfold computeDiff, computeDiff_fuel. rewrite <-Heq.
  destruct (diff_loop_same (splitLines (normalizeNewlines left))
              (buildLineMap (splitLines (normalizeNewlines left))))
    as (st & -> & Hres).
  simpl. by rewrite Hres.
Qed.

(** X14.  Two inputs that are equal once their line endings are normalized
    (in particular, a text against itself) give only Equal records, one
    per line, each with the same left and right line number. *)
Theorem computeDiff_same_text (left right : jsstring) :
  normalizeNewlines left = normalizeNewlines right →
  computeDiff left right
  = Some
      (imap (λ i line,
               mkDiffLine Equal (Some line) (Some line) (Some (S i))
                 (Some (S i)) None None)
         (splitLines (normalizeNewlines left))).
Proof. apply computeDiff_same_lines. Qed.

Lemma computeDiff_same_text_witness :
  normalizeNewlines (js "a" ++ [CR; LF] ++ js "b")
  = normalizeNewlines (js "a" ++ [CR] ++ js "b")
  ∧ computeDiff (js "a" ++ [CR; LF] ++ js "b") (js "a" ++ [CR] ++ js "b")
    = Some
        (imap (λ i line,
                 mkDiffLine Equal (Some line) (Some line) (Some (S i))
                   (Some (S i)) None None)
           (splitLines (normalizeNewlines (js "a" ++ [CR; LF] ++ js "b")))).
Proof.
  split; [reflexivity|].
  exact (computeDiff_same_text (js "a" ++ [CR; LF] ++ js "b")
           (js "a" ++ [CR] ++ js "b") eq_refl).
Defined.

(** X15.  Against the empty text every line is deleted, and from the empty
    text every line is inserted: the result is one Delete (Insert) record
    per line of the other input, numbered from 1. *)
Theorem computeDiff_empty_side (text : jsstring) :
  computeDiff text []
  = Some
      (imap (λ i line,
               mkDiffLine Delete (Some line) None (Some (S i)) None None None)
         (splitLines (normalizeNewlines text)))
  ∧ computeDiff [] text
    = Some
        (imap (λ i line,
                 mkDiffLine Insert None (Some line) None (Some (S i)) None
                   None)
           (splitLines (normalizeNewlines text))).
Proof.
  change (computeDiff text []
          = Some (deleteRecords (splitLines (normalizeNewlines text)))
          ∧ computeDiff [] text
            = Some (insertRecords (splitLines (normalizeNewlines text)))).
  split; unfold computeDiff, computeDiff_fuel.
  - change (splitLines (normalizeNewlines [])) with (@nil jsstring).
    destruct (diff_loop_empty_right (splitLines (normalizeNewlines text))
                (buildLineMap [])) as (st & -> & Hres).
    simpl. by rewrite Hres.
  - change (splitLines (normalizeNewlines [])) with (@nil jsstring).
    destruct (diff_loop_empty_left (splitLines (normalizeNewlines text))
                (buildLineMap (splitLines (normalizeNewlines text))))
      as (st & -> & Hres).
    simpl. by rewrite Hres.
Qed.

Lemma omap_leftLine_numbered res lines :
  Forall fresh_record res → omap leftSide res = numbered lines →
  omap leftLine res = lines.
Proof.
  intros Hfresh.
  enough (∀ k, omap leftSide res
               = imap (λ i line, (S (k + i), Some line)) lines →
               omap leftLine res = lines) as Hgen by apply (Hgen 0).
  revert lines.
  induction Hfresh as [|r res (Hl & _) _ IH]; intros lines k; csimpl.
  - destruct lines; [done|]. discriminate.
  - unfold leftSide at 1. destruct (leftLineNumber r) as [n|] eqn:Hn; csimpl.
    + destruct lines as [|line lines]; [discriminate|]. csimpl.
      intros [= -> Hline Hrest]. rewrite Hline. csimpl. f_equal.
      apply (IH lines (S k)). rewrite Hrest. apply imap_ext. intros; simpl.
      by rewrite Nat.add_succ_r.
    + rewrite (Hl eq_refl). apply IH.
Qed.

Lemma omap_rightLine_numbered res lines :
  Forall fresh_record res → omap rightSide res = numbered lines →
  omap rightLine res = lines.
Proof.
  intros Hfresh.
  enough (∀ k, omap rightSide res
               = imap (λ i line, (S (k + i), Some line)) lines →
               omap rightLine res = lines) as Hgen by apply (Hgen 0).
  revert lines.
  induction Hfresh as [|r res (_ & Hr & _) _ IH]; intros lines k; csimpl.
  - destruct lines; [done|]. discriminate.
  - unfold rightSide at 1. destruct (rightLineNumber r) as [n|] eqn:Hn; csimpl.
    + destruct lines as [|line lines]; [discriminate|]. csimpl.
      intros [= -> Hline Hrest]. rewrite Hline. csimpl. f_equal.
      apply (IH lines (S k)). rewrite Hrest. apply imap_ext. intros; simpl.
      by rewrite Nat.add_succ_r.
    + rewrite (Hr eq_refl). apply IH.
Qed.

(** X16.  The inputs can be read back from the result of [computeDiff]:
    the left texts of its records, joined by line feeds, are the
    normalized left input, and the right texts the normalized right
    input. *)
Theorem computeDiff_texts_rebuild_inputs (left right : jsstring) :
  ∃ res, computeDiff left right = Some res
    ∧ join_LF (omap leftLine res) = normalizeNewlines left
    ∧ join_LF (omap rightLine res) = normalizeNewlines right.
Proof.
  destruct (computeDiff_spec left right) as (res & Hres & Hl & Hr & _ & Hfresh).
  exists res. split; [done|].
  rewrite (omap_leftLine_numbered _ _ Hfresh Hl).
  rewrite (omap_rightLine_numbered _ _ Hfresh Hr).
  by rewrite !join_splitLines_eq.
Qed.

(** ** Results of [computeCharDiff] *)

Lemma appendCharDiff_Forall (P : CharDiff → Prop) arr ty tok :
  Forall P arr →
  (∀ d, span_type d = ty → P d → P (mkCharDiff ty (text d ++ tok))) →
  P (mkCharDiff ty tok) →
  Forall P (appendCharDiff arr ty tok).
Proof.
  intros Harr Hext Hnew.
  destruct (appendCharDiff_cases arr ty tok)
    as [[_ ->]|(rest & d & -> & Hty & ->)].
  - apply Forall_app. split; [done|by apply Forall_singleton].
  - apply Forall_app in Harr as [Hrest Hd]. rewrite Forall_singleton in Hd.
    apply Forall_app. split; [done|]. apply Forall_singleton. by apply Hext.
Qed.

Lemma appendCharDiff_kind arr ty ty' tok :
  ty ≠ ty' →
  Forall (λ d, span_type d ≠ ty') arr →
  Forall (λ d, span_type d ≠ ty') (appendCharDiff arr ty tok).
Proof. intros ??. by apply appendCharDiff_Forall. Qed.

Lemma appendCharDiff_nonempty arr ty tok :
  tok ≠ [] →
  Forall (λ d, text d ≠ []) arr →
  Forall (λ d, text d ≠ []) (appendCharDiff arr ty tok).
Proof.
  intros ??. apply appendCharDiff_Forall; [done| |done].
  intros d _ _. simpl. by destruct (text d).
Qed.

Lemma tokenAt_nonempty toks i :
  Forall (λ tok, tok ≠ []) toks → i < length toks → tokenAt toks i ≠ [].
Proof.
  intros Hall Hlt. destruct (lookup_lt_is_Some_2 _ _ Hlt) as [tok Htok].
  unfold tokenAt. rewrite Htok. simpl.
  by apply (Forall_lookup_1 _ _ _ _ Hall Htok).
Qed.

Section CharKindsFacts.
Variables leftTokens rightTokens : list jsstring.

Local Abbreviation CharKinds := (CharKinds leftTokens rightTokens).

Lemma char_body_kinds st :
  CharKinds st → char_cond leftTokens rightTokens st = true →
  CharKinds (char_body leftTokens rightTokens st).
Proof.
  intros (Hinv & Hkl & Hkr & Hnl & Hnr) Hcond.
  split; [by apply char_body_inv|].
  destruct (char_body_cases _ _ st _ Hcond eq_refl)
    as [[? ->]|[[? ->]|[(?&?&?& ->)|(?&?& ->)]]]; simpl;
    split_and!; try done;
    try (by apply appendCharDiff_kind);
    intros Hne; apply appendCharDiff_nonempty; auto using tokenAt_nonempty.
Qed.

Lemma charDiff_run_kinds :
  ∃ st, charDiff_run leftTokens rightTokens = Some st ∧ CharKinds st
        ∧ leftIdx st = length leftTokens ∧ rightIdx st = length rightTokens.
Proof.
  destruct (charDiff_run_spec leftTokens rightTokens) as (st & Hrun & _ & Hl & Hr).
  exists st. split_and!; try done. revert Hrun. unfold charDiff_run.
  destruct (while_inv (char_cond leftTokens rightTokens)
              (char_body leftTokens rightTokens) CharKinds
              (λ st, (length leftTokens - leftIdx st)
                     + (length rightTokens - rightIdx st)))
    with (fuel := length leftTokens + length rightTokens) (s := char_init)
    as (st' & -> & Hkinds & _).
  - intros s Hs Hc. split; [by apply char_body_kinds|].
    destruct (char_body_advances _ _ s Hc) as (?&?&?).
    destruct (char_body_kinds s Hs Hc) as [[] _]. lia.
  - split; [apply char_init_inv|]. simpl. split_and!; by try constructor.
  - simpl. lia.
  - by intros [= <-].
Qed.
End CharKindsFacts.

Lemma computeCharDiff_full left right :
  ∃ ls rs, computeCharDiff left right = Some (ls, rs)
    ∧ span_text ls = left ∧ span_text rs = right
    ∧ Forall (λ d, span_type d ≠ SInsert) ls
    ∧ Forall (λ d, span_type d ≠ SDelete) rs
    ∧ equal_text ls = equal_text rs
    ∧ (left ≠ [] → Forall (λ d, text d ≠ []) ls)
    ∧ (right ≠ [] → Forall (λ d, text d ≠ []) rs).
Proof.
  destruct (computeCharDiff_spec left right) as (ls & rs & Hcd & Hl & Hr & _).
  exists ls, rs. split; [done|]. split; [done|]. split; [done|].
  revert Hcd. unfold computeCharDiff, computeCharDiff_state.
  destruct (tokenize_runs left) as (lt & -> & Hlne & _).
  destruct (tokenize_runs right) as (rt & -> & Hrne & _). simpl.
  destruct (charDiff_run_kinds lt rt)
    as (st & -> & (Hinv & Hkl & Hkr & Hnl & Hnr) & _). simpl.
  intros [= <- <-]. split_and!; [done|done| | |].
  - rewrite (ci_left_equal _ _ _ Hinv), (ci_right_equal _ _ _ Hinv). f_equal.
    destruct (ci_matched _ _ _ Hinv) as [Hm _].
    induction Hm as [|p pairs [_ Hp] _ IH]; [done|]. csimpl.
    rewrite Hp, IH. done.
  - intros Hne. apply Hnl. by destruct Hlne as [[? _]|?].
  - intros Hne. apply Hnr. by destruct Hrne as [[? _]|?].
Qed.

(** X17.  On the left side [computeCharDiff] produces only Equal and Delete
    spans, on the right side only Equal and Insert spans, and the Equal
    spans of the two sides carry the same text. *)
Theorem computeCharDiff_span_kinds (left right : jsstring) :
  ∃ ls rs, computeCharDiff left right = Some (ls, rs)
    ∧ Forall (λ d, span_type d = SEqual ∨ span_type d = SDelete) ls
    ∧ Forall (λ d, span_type d = SEqual ∨ span_type d = SInsert) rs
    ∧ equal_text ls = equal_text rs.
Proof.
  destruct (computeCharDiff_full left right)
    as (ls & rs & Hcd & _ & _ & Hkl & Hkr & Heq & _).
  exists ls, rs. split_and!; [done| | |done].
  - eapply Forall_impl; [exact Hkl|]. intros d Hd. simpl in Hd.
    destruct (span_type d); [by left|done|by right].
  - eapply Forall_impl; [exact Hkr|]. intros d Hd. simpl in Hd.
    destruct (span_type d); [by left|by right|done].
Qed.

(** X18.  For two non-empty lines no span of [computeCharDiff] has an
    empty text. *)
Theorem computeCharDiff_nonempty_spans (left right : jsstring) :
  left ≠ [] → right ≠ [] →
  ∃ ls rs, computeCharDiff left right = Some (ls, rs)
    ∧ Forall (λ d, text d ≠ []) ls ∧ Forall (λ d, text d ≠ []) rs.
Proof.
  intros Hl Hr.
  destruct (computeCharDiff_full left right)
    as (ls & rs & Hcd & _ & _ & _ & _ & _ & Hnl & Hnr).
  exists ls, rs. auto.
Qed.

Lemma computeCharDiff_nonempty_spans_witness :
  js "a b" ≠ [] ∧ js "b" ≠ []
  ∧ ∃ ls rs, computeCharDiff (js "a b") (js "b") = Some (ls, rs)
      ∧ Forall (λ d, text d ≠ []) ls ∧ Forall (λ d, text d ≠ []) rs.
Proof.
  assert (js "a b" ≠ []) as Hl by discriminate.
  assert (js "b" ≠ []) as Hr by discriminate.
  split; [exact Hl|]. split; [exact Hr|].
  exact (computeCharDiff_nonempty_spans _ _ Hl Hr).
Defined.

Section SameLine.
Variable toks : list jsstring.

Lemma charDiff_run_same :
  0 < length toks →
  ∃ st, charDiff_run toks toks = Some st
        ∧ res_left st = [mkCharDiff SEqual (concat toks)]
        ∧ res_right st = [mkCharDiff SEqual (concat toks)].
Proof.
  intros Hpos. unfold charDiff_run.
  destruct (while_inv (char_cond toks toks) (char_body toks toks)
              (λ st, leftIdx st = rightIdx st ∧ leftIdx st ≤ length toks
                     ∧ res_left st = res_right st
                     ∧ res_left st
                       = if bool_decide (leftIdx st = 0) then []
                         else [mkCharDiff SEqual (concat (take (leftIdx st) toks))])
              (λ st, length toks - leftIdx st))
    with (fuel := length toks + length toks) (s := char_init)
    as (st & -> & (Heq & Hle & Hsame & Hres) & Hexit).
  - intros s (Heq & Hle & Hsame & Hres) Hcond.
    unfold char_cond in Hcond. rewrite <-Heq, orb_diag in Hcond.
    apply bool_decide_eq_true in Hcond.
    assert (char_body toks toks s = emitEqual toks toks s) as ->.
    { unfold char_body.
      rewrite (bool_decide_eq_false_2 (length toks ≤ leftIdx s)) by lia.
      rewrite (bool_decide_eq_false_2 (length toks ≤ rightIdx s)) by lia.
      rewrite bool_decide_eq_true_2 by (by rewrite Heq). done. }
    simpl. rewrite <-Hsame, <-Heq. split_and!; try done; try lia.
    rewrite (concat_take_S _ _ Hcond). fold (tokenAt toks (leftIdx s)).
    rewrite Hres. case_bool_decide as Hzero.
    + rewrite Hzero. by rewrite take_0.
    + reflexivity.
  - simpl. split_and!; first [done|lia].
  - simpl. lia.
  - exists st. rewrite <-Hsame, Hres.
    unfold char_cond in Hexit. rewrite <-Heq, orb_diag in Hexit.
    apply bool_decide_eq_false in Hexit.
    rewrite bool_decide_eq_false_2 by lia. by rewrite take_ge by lia.
Qed.
End SameLine.

(** X19.  On two equal lines [computeCharDiff] produces, on each side, the
    single Equal span that holds the whole line. *)
Theorem computeCharDiff_same_line (line : jsstring) :
  computeCharDiff line line
  = Some ([mkCharDiff SEqual line], [mkCharDiff SEqual line]).
Proof.
  unfold computeCharDiff, computeCharDiff_state.
  destruct (tokenize_spec line) as (toks & -> & Hcat & Hlen). simpl.
  destruct (charDiff_run_same toks Hlen) as (st & -> & Hl & Hr). simpl.
  by rewrite Hl, Hr, Hcat.
Qed.

(** ** The enhancer, again *)

Lemma enhanceLine_idem r r' :
  enhanceLine r = Some r' → enhanceLine r' = Some r'.
Proof.
  unfold enhanceLine. destruct (enhance_guard r) eqn:Hguard.
  - destruct (computeCharDiff _ _) as [charDiff|] eqn:Hcd; [|done].
    simpl. intros [= <-].
    change (enhance_guard (mkDiffLine _ _ _ _ _ _ _)) with (enhance_guard r).
    rewrite Hguard. simpl. rewrite Hcd. done.
  - intros [= <-]. by rewrite Hguard.
Qed.

(** X20.  [enhanceWithCharDiffs] is idempotent: enhancing its own output
    changes nothing. *)
Theorem enhanceWithCharDiffs_idempotent (diffLines : list DiffLine) :
  ∃ out, enhanceWithCharDiffs diffLines = Some out
    ∧ enhanceWithCharDiffs out = Some out.
Proof.
  destruct (enhanceWithCharDiffs_spec diffLines) as (out & Hout & Hall).
  exists out. split; [done|]. apply mapM_Some_2, Forall_Forall2_diag.
  eapply Forall2_Forall_r; [exact Hall|]. apply Forall_forall.
  intros r _ r' Hr. by apply enhanceLine_idem in Hr.
Qed.

(** ** The diff editor *)

Lemma enhanced_editor_record r r' :
  record_shape r → record_ok r → fresh_record r → enhanceLine r = Some r' →
  same_line_fields r r' ∧ editor_record r'.
Proof.
  intros Hshape Hok (_ & _ & Hnl & Hnr) Hr.
  destruct (enhanceLine_spec r) as (r'' & Hr'' & Hsame & Hcase).
  rewrite Hr in Hr''. injection Hr'' as <-. split; [done|].
  destruct Hsame as (Hty & Hl & Hr' & Hln & Hrn).
  assert (record_shape r' ∧ record_ok r') as [??].
  { unfold record_shape, record_ok in *. by rewrite Hty, Hl, Hr', Hln, Hrn. }
  split; [done|]. split; [done|].
  destruct (enhance_guard r) eqn:Hguard.
  - destruct Hcase as (ls & rs & Hcd & Hls & Hrs).
    destruct (computeCharDiff_full (default [] (leftLine r))
                (default [] (rightLine r)))
      as (ls' & rs' & Hcd' & Htl & Htr & Hkl & Hkr & _).
    rewrite Hcd in Hcd'. injection Hcd' as <- <-.
    apply enhance_guard_true in Hguard as (_ & Htl' & Htr').
    apply truthy_Some in Htl' as (x & Hx & Hdx).
    apply truthy_Some in Htr' as (y & Hy & Hdy).
    split.
    + intros ? Heq. rewrite Hls in Heq. injection Heq as <-.
      split; [congruence|done].
    + intros ? Heq. rewrite Hrs in Heq. injection Heq as <-.
      split; [congruence|done].
  - subst r'. split; intros ? ?; congruence.
Qed.

Lemma editorDiffLines_spec left right :
  ∃ diffLines, editorDiffLines left right = Some diffLines
    ∧ Forall editor_record diffLines
    ∧ omap leftLine diffLines = splitLines (normalizeNewlines left)
    ∧ omap rightLine diffLines = splitLines (normalizeNewlines right)
    ∧ omap leftLineNumber diffLines
      = seq 1 (length (splitLines (normalizeNewlines left)))
    ∧ omap rightLineNumber diffLines
      = seq 1 (length (splitLines (normalizeNewlines right))).
Proof.
  destruct (computeDiff_spec left right) as (res & Hres & Hl & Hr & Hok & Hfresh).
  destruct (computeDiff_shape_spec left right) as (res' & Hres' & Hshape & _).
  rewrite Hres in Hres'. injection Hres' as <-.
  destruct (enhanceWithCharDiffs_spec res) as (out & Hout & Hall).
  exists out. unfold editorDiffLines. rewrite Hres. simpl.
  split; [done|].
  assert (Forall2 (λ r r', same_line_fields r r' ∧ editor_record r') res out)
    as Hrel.
  { clear -Hall Hok Hfresh Hshape.
    induction Hall as [|r r' res out Hr _ IH]; [constructor|].
    apply Forall_cons in Hok as [??]. apply Forall_cons in Hfresh as [??].
    apply Forall_cons in Hshape as [??].
    constructor; [by apply enhanced_editor_record|by apply IH]. }
  pose proof (omap_leftLine_numbered _ _ Hfresh Hl) as HL.
  pose proof (omap_rightLine_numbered _ _ Hfresh Hr) as HR.
  assert (omap leftLineNumber res
          = seq 1 (length (splitLines (normalizeNewlines left)))) as HLn
    by (by rewrite omap_leftLineNumber, Hl, numbered_fst).
  assert (omap rightLineNumber res
          = seq 1 (length (splitLines (normalizeNewlines right)))) as HRn
    by (by rewrite omap_rightLineNumber, Hr, numbered_fst).
  rewrite <-HLn, <-HRn, <-HL, <-HR.
  split_and!.
  - eapply Forall2_Forall_r; [exact Hrel|]. apply Forall_forall.
    by intros ? _ ? [_ ?].
  - apply list_omap_ext. eapply Forall2_flip, Forall2_impl; [exact Hrel|].
    by intros ?? [(_ & ? & _) _].
  - apply list_omap_ext. eapply Forall2_flip, Forall2_impl; [exact Hrel|].
    by intros ?? [(_ & _ & ? & _) _].
  - apply list_omap_ext. eapply Forall2_flip, Forall2_impl; [exact Hrel|].
    by intros ?? [(_ & _ & _ & ? & _) _].
  - apply list_omap_ext. eapply Forall2_flip, Forall2_impl; [exact Hrel|].
    by intros ?? [(_ & _ & _ & _ & ?) _].
Qed.

Lemma count_cons (ty : LineType) r (l : list DiffLine) :
  length (filter (λ l, type l = ty) (r :: l))
  = (if decide (type r = ty) then 1 else 0)
    + length (filter (λ l, type l = ty) l).
Proof. rewrite filter_cons. by case_decide. Qed.

Lemma shape_counts (l : list DiffLine) :
  Forall record_shape l →
  length (omap leftLineNumber l)
  = length (filter (λ l, type l = Equal) l)
    + length (filter (λ l, type l = Modify) l)
    + length (filter (λ l, type l = Delete) l)
  ∧ length (omap rightLineNumber l)
    = length (filter (λ l, type l = Equal) l)
      + length (filter (λ l, type l = Modify) l)
      + length (filter (λ l, type l = Insert) l).
Proof.
  induction 1 as [|r l Hr _ [IHl IHr]]; [done|].
  rewrite !count_cons. csimpl. unfold record_shape in Hr.
  destruct (type r) eqn:Hty; simpl in *.
  - destruct Hr as (_ & _ & [? ->] & [? ->]). simpl. lia.
  - destruct Hr as (_ & -> & _ & [? ->]). simpl. lia.
  - destruct Hr as (_ & [? ->] & _ & ->). simpl. lia.
  - destruct Hr as (_ & _ & [? ->] & [? ->]). simpl. lia.
Qed.

(** X21.  The statistics of the editor balance with the inputs: the left
    line count plus the added lines equals the right line count plus the
    removed lines, and the removed and modified lines together are at most
    the left lines, the added and modified ones at most the right lines. *)
Theorem diffStats_balance (left right : jsstring) :
  ∃ diffLines, editorDiffLines left right = Some diffLines
    ∧ length (splitLines (normalizeNewlines left)) + added (diffStats diffLines)
      = length (splitLines (normalizeNewlines right))
        + removed (diffStats diffLines)
    ∧ removed (diffStats diffLines) + modified (diffStats diffLines)
      ≤ length (splitLines (normalizeNewlines left))
    ∧ added (diffStats diffLines) + modified (diffStats diffLines)
      ≤ length (splitLines (normalizeNewlines right)).
Proof.
  destruct (editorDiffLines_spec left right)
    as (out & Hout & Hrec & _ & _ & Hln & Hrn).
  exists out. split; [done|].
  destruct (shape_counts out) as [Hl Hr].
  { eapply Forall_impl; [exact Hrec|]. by intros ? [? _]. }
  rewrite Hln, length_seq in Hl. rewrite Hrn, length_seq in Hr.
  simpl. lia.
Qed.

Lemma count_zero (ty : LineType) (l : list DiffLine) :
  length (filter (λ l, type l = ty) l) = 0 ↔ Forall (λ r, type r ≠ ty) l.
Proof.
  induction l as [|r l IH]; [by split|].
  rewrite count_cons, Forall_cons, <-IH. case_decide as Hty.
  - split; [lia|]. by intros [Hne _].
  - split; [intros Hz; split; [done|lia]|intros [_ Hz]; lia].
Qed.

(** X22.  The editor reports no added, removed or modified line exactly
    when the two inputs are equal once their line endings are normalized. *)
Theorem diffStats_zero_iff_same_text (left right : jsstring) :
  ∃ diffLines, editorDiffLines left right = Some diffLines
    ∧ (diffStats diffLines = mkDiffStats 0 0 0
       ↔ normalizeNewlines left = normalizeNewlines right).
Proof.
  destruct (editorDiffLines_spec left right)
    as (out & Hout & Hrec & Hl & Hr & _).
  exists out. split; [done|]. split.
  - intros [= Ha Hd Hm].
    apply count_zero in Ha, Hd, Hm.
    rewrite <-(join_splitLines_eq (normalizeNewlines left)), <-Hl.
    rewrite <-(join_splitLines_eq (normalizeNewlines right)), <-Hr.
    f_equal. clear Hl Hr Hout.
    induction Hrec as [|r out (_ & [Hok _] & _) _ IH]; [done|].
    apply Forall_cons in Ha as [??]. apply Forall_cons in Hd as [??].
    apply Forall_cons in Hm as [??]. csimpl.
    rewrite Hok by (by destruct (type r)). by rewrite IH.
  - intros Heq. revert Hout. unfold editorDiffLines.
    rewrite (computeDiff_same_lines _ _ Heq). simpl. intros Hout.
    apply mapM_Some_1 in Hout.
    assert (Forall (λ r, type r = Equal) out) as Hall.
    { eapply Forall2_Forall_r; [exact Hout|]. apply Forall_forall.
      intros r Hin r' Hr'.
      destruct (enhanceLine_spec r) as (r'' & Hr'' & (Hty & _) & _).
      rewrite Hr' in Hr''. injection Hr'' as <-. rewrite Hty.
      unfold equalRecords in Hin.
      apply list_elem_of_lookup in Hin as [i Hin].
      rewrite list_lookup_imap in Hin.
      destruct (splitLines (normalizeNewlines left) !! i); by simplify_eq/=. }
    unfold diffStats. f_equal; apply count_zero;
      (eapply Forall_impl; [exact Hall|]); by intros ? ->.
Qed.

Lemma renderCharDiff_texts charDiffs isLeft :
  concat ((renderCharDiff charDiffs isLeft).*2) = span_text charDiffs.
Proof.
  unfold renderCharDiff, span_text. rewrite <-list_fmap_compose. done.
Qed.

(** X23.  The two panes of the editor show the inputs: row by row, the
    texts of the left content cells are the lines of the normalized left
    input and the numbers of the left gutter cells are 1, 2, ...; and
    likewise on the right. *)
Theorem editor_panes_show_inputs (left right : jsstring) :
  ∃ diffLines, editorDiffLines left right = Some diffLines
    ∧ omap (λ line, content_text (leftContent line)) diffLines
      = splitLines (normalizeNewlines left)
    ∧ omap (λ line, content_text (rightContent line)) diffLines
      = splitLines (normalizeNewlines right)
    ∧ omap leftGutter diffLines
      = seq 1 (length (splitLines (normalizeNewlines left)))
    ∧ omap rightGutter diffLines
      = seq 1 (length (splitLines (normalizeNewlines right))).
Proof.
  destruct (editorDiffLines_spec left right)
    as (out & Hout & Hrec & Hl & Hr & Hln & Hrn).
  exists out. split; [done|].
  rewrite <-Hln, <-Hrn, <-Hl, <-Hr.
  split_and!; apply list_omap_ext, Forall_Forall2_diag;
    (eapply Forall_impl; [exact Hrec|]);
    intros r (Hshape & _ & Hls & Hrs); unfold record_shape in Hshape.
  - unfold leftContent. destruct (leftLine r) as [t|]; [|done].
    destruct (leftCharDiffs r) as [ls|]; [|done]. simpl.
    destruct (Hls ls eq_refl) as [[= ->] _]. by rewrite renderCharDiff_texts.
  - unfold rightContent. destruct (rightLine r) as [t|]; [|done].
    destruct (rightCharDiffs r) as [rs|]; [|done]. simpl.
    destruct (Hrs rs eq_refl) as [[= ->] _]. by rewrite renderCharDiff_texts.
  - unfold leftGutter. destruct (leftLine r) as [t|] eqn:Ht; [done|].
    destruct (type r); destruct Hshape as (H1 & H2 & H3 & H4);
      first [done | by destruct H1 | by destruct H2].
  - unfold rightGutter. destruct (rightLine r) as [t|] eqn:Ht; [done|].
    destruct (type r); destruct Hshape as (H1 & H2 & H3 & H4);
      first [done | by destruct H2 | by destruct H3 | by destruct H4].
Qed.


(** * The patience-diff variant: tables *)

Lemma foldl_seq_inv {St} (f : St → nat → St) (P : nat → St → Prop) len :
  ∀ start s,
    P start s →
    (∀ k s, start ≤ k < start + len → P k s → P (S k) (f s k)) →
    P (start + len) (foldl f s (seq start len)).
Proof.
  induction len as [|len IH]; intros start s Hs Hstep; simpl.
  - by rewrite Nat.add_0_r.
  - rewrite <-Nat.add_succ_comm. apply IH.
    + apply Hstep; [lia|done].
    + intros k s' Hk. apply Hstep. lia.
Qed.

Lemma dp_set_dims rows cols dp i j v :
  table_dims rows cols dp → table_dims rows cols (Patience.dp_set dp i j v).
Proof.
  intros [Hlen Hrows]. unfold Patience.dp_set. split.
  - by rewrite length_alter.
  - apply Forall_lookup. intros k row Hk.
    destruct (decide (i = k)) as [->|Hne].
    + rewrite list_lookup_alter_eq in Hk.
      destruct (dp !! k) as [row'|] eqn:Hrow; [|done]. simpl in Hk.
      injection Hk as <-. rewrite length_insert.
      by apply (Forall_lookup_1 _ _ _ _ Hrows Hrow).
    + rewrite list_lookup_alter_ne in Hk by done.
      by apply (Forall_lookup_1 _ _ _ _ Hrows Hk).
Qed.

Lemma dp_get_set rows cols dp i j v i' j' :
  table_dims rows cols dp → i < rows → j < cols →
  Patience.dp_get (Patience.dp_set dp i j v) i' j'
  = if bool_decide (i' = i ∧ j' = j) then v else Patience.dp_get dp i' j'.
Proof.
  intros [Hlen Hrows] Hi Hj. unfold Patience.dp_get, Patience.dp_set.
  destruct (decide (i = i')) as [<-|Hne].
  - rewrite list_lookup_alter_eq.
    destruct (lookup_lt_is_Some_2 dp i) as [row Hrow]; [lia|].
    rewrite Hrow. simpl.
    pose proof (Forall_lookup_1 _ _ _ _ Hrows Hrow) as Hlenrow. simpl in Hlenrow.
    destruct (decide (j = j')) as [<-|Hnej].
    + rewrite list_lookup_insert_eq by lia.
      by rewrite bool_decide_eq_true_2.
    + rewrite list_lookup_insert_ne by done.
      rewrite bool_decide_eq_false_2; [done|]. intros [_ ?]. congruence.
  - rewrite list_lookup_alter_ne by done.
    rewrite bool_decide_eq_false_2; [done|]. intros [? _]. congruence.
Qed.

Lemma lcs_len_0_r A B i : lcs_len A B i 0 = 0.
Proof. by destruct i. Qed.

Lemma lcs_len_S A B i j :
  lcs_len A B (S i) (S j)
  = if bool_decide (A !! i = B !! j) then S (lcs_len A B i j)
    else Nat.max (lcs_len A B i (S j)) (lcs_len A B (S i) j).
Proof. reflexivity. Qed.

Section LcsTable.
Variables A B : list jsstring.

Lemma lcs_cell_filled dp i j :
  1 ≤ i ≤ length A → 1 ≤ j ≤ length B →
  lcs_filled A B i j dp → lcs_filled A B i (S j) (Patience.lcs_cell A B dp i j).
Proof.
  intros Hi Hj [Hdims Hcells].
  destruct i as [|i]; [lia|]. destruct j as [|j]; [lia|].
  assert (Patience.lcs_cell A B dp (S i) (S j)
          = Patience.dp_set dp (S i) (S j) (lcs_len A B (S i) (S j))) as ->.
  { unfold Patience.lcs_cell.
    replace (S i - 1) with i by lia. replace (S j - 1) with j by lia.
    rewrite lcs_len_S, !Hcells by lia.
    case_bool_decide; [f_equal; lia|done]. }
  split; [by apply dp_set_dims|].
  intros i' j' Hi' Hj' Hbefore.
  rewrite (dp_get_set _ _ _ _ _ _ _ _ Hdims) by lia.
  case_bool_decide as Hhere; [by destruct Hhere as [-> ->]|].
  apply Hcells; [done|done|]. lia.
Qed.

Lemma lcs_row_filled dp i :
  1 ≤ i ≤ length A →
  lcs_filled A B i 1 dp → lcs_filled A B (S i) 1 (Patience.lcs_row A B dp i).
Proof.
  intros Hi Hdp. unfold Patience.lcs_row.
  pose proof (foldl_seq_inv (λ dp j, Patience.lcs_cell A B dp i j)
                (λ j dp, lcs_filled A B i j dp) (length B) 1 dp Hdp) as Hrow.
  destruct Hrow as [Hdims Hcells].
  - intros k s Hk. apply lcs_cell_filled; [done|lia].
  - split; [done|]. intros i' j' Hi' Hj' Hbefore. apply Hcells; [done|done|]. lia.
Qed.

Lemma lcs_table_correct i j :
  i ≤ length A → j ≤ length B →
  Patience.dp_get (Patience.lcs_table A B) i j = lcs_len A B i j.
Proof.
  intros Hi Hj. unfold Patience.lcs_table.
  pose proof (foldl_seq_inv (Patience.lcs_row A B)
                (λ i dp, lcs_filled A B i 1 dp) (length A) 1
                (replicate (S (length A)) (replicate (S (length B)) 0)))
    as Htable.
  destruct Htable as [_ Hcells].
  - split.
    + split; [by rewrite length_replicate|].
      apply Forall_replicate. by rewrite length_replicate.
    + intros i' j' Hi' Hj' Hbefore. unfold Patience.dp_get.
      rewrite lookup_replicate_2 by lia. simpl.
      change (0 :: replicate (length B) 0) with (replicate (S (length B)) 0).
      rewrite lookup_replicate_2 by lia. simpl.
      destruct i' as [|i']; [done|]. destruct j' as [|j']; [done|]. lia.
  - intros k s Hk. apply lcs_row_filled. lia.
  - apply Hcells; [done|done|]. lia.
Qed.

(** No common subsequence of two prefixes is longer than [lcs_len]. *)
Lemma lcs_len_upper s :
  ∀ i j pairs,
    i + j ≤ s → common_subsequence A B pairs →
    Forall (λ p, p.1 < i ∧ p.2 < j) pairs →
    length pairs ≤ lcs_len A B i j.
Proof.
  induction s as [|s IH]; intros i j pairs Hs Hcs Hin.
  - destruct pairs as [|p pairs]; [simpl; lia|].
    apply Forall_cons in Hin as [[??] _]. lia.
  - destruct pairs as [|p pairs _] using rev_ind; [simpl; lia|].
    pose proof Hcs as [Hmatch Hsorted].
    pose proof Hin as Hall.
    apply Forall_app in Hin as [Hin Hp]. rewrite Forall_singleton in Hp.
    apply Forall_app in Hmatch as [Hmatch Hpm]. rewrite Forall_singleton in Hpm.
    apply StronglySorted_app in Hsorted as (Hbefore & Hsorted & _).
    assert (∀ q, q ∈ pairs → q.1 < p.1 ∧ q.2 < p.2) as Hlt
      by (intros q Hq; apply (Hbefore q p Hq); by left).
    destruct i as [|i]; [lia|]. destruct j as [|j]; [lia|].
    rewrite lcs_len_S. case_bool_decide as Hij.
    + rewrite length_app. simpl.
      assert (length pairs ≤ lcs_len A B i j); [|lia].
      apply IH; [lia|done|]. apply Forall_forall. intros q Hq.
      specialize (Hlt q Hq). lia.
    + destruct Hpm as [_ Hpm].
      assert (p.1 < i ∨ p.2 < j) as [Hless|Hless].
      { destruct (decide (p.1 = i)) as [H1|?]; [|lia].
        destruct (decide (p.2 = j)) as [H2|?]; [|lia].
        rewrite H1, H2 in Hpm. done. }
      * assert (length (pairs ++ [p]) ≤ lcs_len A B i (S j)); [|lia].
        apply IH; [lia|done|].
        apply Forall_app. rewrite Forall_singleton. split; [|lia].
        apply Forall_forall. intros q Hq. specialize (Hlt q Hq). lia.
      * assert (length (pairs ++ [p]) ≤ lcs_len A B (S i) j); [|lia].
        apply IH; [lia|done|].
        apply Forall_app. rewrite Forall_singleton. split; [|lia].
        apply Forall_forall. intros q Hq. specialize (Hlt q Hq). lia.
Qed.

Lemma common_subsequence_bound pairs :
  common_subsequence A B pairs →
  length pairs ≤ lcs_len A B (length A) (length B).
Proof.
  intros Hcs. apply (lcs_len_upper (length A + length B)); [done|done|].
  destruct Hcs as [Hmatch _]. eapply Forall_impl; [exact Hmatch|].
  intros p [[x Hx] Heq]. rewrite Hx in Heq. symmetry in Heq.
  apply lookup_lt_Some in Hx, Heq. done.
Qed.

Local Abbreviation Inv := (BackInv A B).

Lemma back_init_inv :
  Inv (Patience.mkBackState (length A) (length B) []).
Proof.
  unfold BackInv. simpl. split_and!; try done.
  split; constructor.
Qed.

Lemma back_take_inv st :
  Inv st → 0 < Patience.bt_i st → 0 < Patience.bt_j st →
  A !! (Patience.bt_i st - 1) = B !! (Patience.bt_j st - 1) →
  Inv (Patience.mkBackState (Patience.bt_i st - 1) (Patience.bt_j st - 1)
             ((Patience.bt_i st - 1, Patience.bt_j st - 1)
              :: Patience.bt_result st)).
Proof.
  destruct st as [i j result]. simpl.
  intros (Hi & Hj & [Hmatch Hsorted] & Hafter & Hlen) Hipos Hjpos Heq.
  simpl in *. destruct i as [|i]; [lia|]. destruct j as [|j]; [lia|].
  replace (S i - 1) with i in * by lia. replace (S j - 1) with j in * by lia.
  rewrite lcs_len_S, bool_decide_eq_true_2 in Hlen by done.
  unfold BackInv. simpl. split_and!; try lia.
  - split.
    + constructor; [|done]. split; [|done]. apply lookup_lt_is_Some_2. simpl. lia.
    + constructor; [done|]. eapply Forall_impl; [exact Hafter|].
      intros p [??]. split; simpl; lia.
  - constructor; [simpl; lia|]. eapply Forall_impl; [exact Hafter|].
    intros p [??]. lia.
Qed.

Lemma back_skip_inv st i' j' :
  Inv st →
  i' ≤ Patience.bt_i st → j' ≤ Patience.bt_j st →
  lcs_len A B i' j' = lcs_len A B (Patience.bt_i st) (Patience.bt_j st) →
  Inv (Patience.mkBackState i' j' (Patience.bt_result st)).
Proof.
  intros (Hi & Hj & Hcs & Hafter & Hlen) Hi' Hj' Heq.
  unfold BackInv. simpl. split_and!; try lia; [done|].
  eapply Forall_impl; [exact Hafter|]. intros p [??]. lia.
Qed.

Lemma back_exit st :
  Inv st → Patience.back_cond st = false →
  longest_common_subsequence A B (Patience.bt_result st).
Proof.
  intros (_ & _ & Hcs & _ & Hlen) Hexit. split; [done|].
  intros pairs' Hcs'. pose proof (common_subsequence_bound pairs' Hcs').
  unfold Patience.back_cond in Hexit. apply andb_false_iff in Hexit.
  rewrite !bool_decide_eq_false in Hexit.
  assert (lcs_len A B (Patience.bt_i st) (Patience.bt_j st) = 0) as Hzero.
  { destruct Hexit as [Hz|Hz].
    - by replace (Patience.bt_i st) with 0 by lia.
    - replace (Patience.bt_j st) with 0 by lia. apply lcs_len_0_r. }
  lia.
Qed.

Lemma tokenLCS_body_inv st :
  Inv st → Patience.back_cond st = true →
  Inv (Patience.tokenLCS_body A B (Patience.lcs_table A B) st)
  ∧ Patience.bt_i (Patience.tokenLCS_body A B (Patience.lcs_table A B) st)
    + Patience.bt_j (Patience.tokenLCS_body A B (Patience.lcs_table A B) st)
    < Patience.bt_i st + Patience.bt_j st.
Proof.
  intros Hinv Hcond. unfold Patience.back_cond in Hcond.
  apply andb_true_iff in Hcond. rewrite !bool_decide_eq_true in Hcond.
  destruct Hcond as [Hipos Hjpos].
  pose proof Hinv as (Hi & Hj & _).
  unfold Patience.tokenLCS_body. cbv zeta.
  case_bool_decide as Heq; [split; [by apply back_take_inv|simpl; lia]|].
  rewrite !lcs_table_correct by lia.
  assert (lcs_len A B (Patience.bt_i st) (Patience.bt_j st)
          = Nat.max (lcs_len A B (Patience.bt_i st - 1) (Patience.bt_j st))
                    (lcs_len A B (Patience.bt_i st) (Patience.bt_j st - 1)))
    as Hmax.
  { clear Hinv. destruct st as [i j result]. simpl in *.
    destruct i as [|i]; [lia|]. destruct j as [|j]; [lia|].
    replace (S i - 1) with i in * by lia. replace (S j - 1) with j in * by lia.
    by rewrite lcs_len_S, bool_decide_eq_false_2 by done. }
  case_bool_decide; (split; [apply back_skip_inv; [done|lia|lia|lia]|simpl; lia]).
Qed.

Lemma standardLCS_body_inv st :
  Inv st → Patience.back_cond st = true →
  Inv (Patience.standardLCS_body A B (Patience.lcs_table A B) st)
  ∧ Patience.bt_i (Patience.standardLCS_body A B (Patience.lcs_table A B) st)
    + Patience.bt_j (Patience.standardLCS_body A B (Patience.lcs_table A B) st)
    < Patience.bt_i st + Patience.bt_j st.
Proof.
  intros Hinv Hcond. unfold Patience.back_cond in Hcond.
  apply andb_true_iff in Hcond. rewrite !bool_decide_eq_true in Hcond.
  destruct Hcond as [Hipos Hjpos].
  pose proof Hinv as (Hi & Hj & _).
  unfold Patience.standardLCS_body. cbv zeta.
  rewrite !lcs_table_correct by lia.
  case_bool_decide as Heq.
  - destruct (_ && _) eqn:Hearlier.
    + apply andb_true_iff in Hearlier as [_ Hsame].
      apply bool_decide_eq_true in Hsame.
      split; [apply back_skip_inv; [done|lia|lia|done]|simpl; lia].
    + split; [by apply back_take_inv|simpl; lia].
  - assert (lcs_len A B (Patience.bt_i st) (Patience.bt_j st)
            = Nat.max (lcs_len A B (Patience.bt_i st - 1) (Patience.bt_j st))
                      (lcs_len A B (Patience.bt_i st) (Patience.bt_j st - 1)))
      as Hmax.
    { clear Hinv. destruct st as [i j result]. simpl in *.
      destruct i as [|i]; [lia|]. destruct j as [|j]; [lia|].
      replace (S i - 1) with i in * by lia. replace (S j - 1) with j in * by lia.
      by rewrite lcs_len_S, bool_decide_eq_false_2 by done. }
    case_bool_decide; (split; [apply back_skip_inv; [done|lia|lia|lia]|simpl; lia]).
Qed.
End LcsTable.

Lemma no_common_subsequence_of_empty A B pairs :
  length A = 0 ∨ length B = 0 → common_subsequence A B pairs → pairs = [].
Proof.
  intros Hempty [Hmatch _]. destruct pairs as [|p pairs]; [done|].
  apply Forall_cons in Hmatch as [[[x Hx] Heq] _].
  rewrite Hx in Heq. symmetry in Heq.
  apply lookup_lt_Some in Hx, Heq. lia.
Qed.

Lemma tokenLCS_spec (left right : list jsstring) :
  ∃ pairs, Patience.tokenLCS left right = Some pairs
    ∧ longest_common_subsequence left right pairs.
Proof.
  unfold Patience.tokenLCS. destruct (_ || _) eqn:Hempty.
  - exists []. split; [done|]. split; [split; constructor|].
    intros pairs' Hcs. apply orb_true_iff in Hempty.
    rewrite !bool_decide_eq_true in Hempty.
    by rewrite (no_common_subsequence_of_empty _ _ _ Hempty Hcs).
  - destruct (while_inv Patience.back_cond
                (Patience.tokenLCS_body left right (Patience.lcs_table left right))
                (BackInv left right)
                (λ st, Patience.bt_i st + Patience.bt_j st))
      with (fuel := length left + length right)
           (s := Patience.mkBackState (length left) (length right) [])
      as (st & -> & Hinv & Hexit).
    + intros s Hs Hc. by apply tokenLCS_body_inv.
    + apply back_init_inv.
    + simpl. lia.
    + exists (Patience.bt_result st). split; [done|]. by apply back_exit.
Qed.

(** X25.  [tokenLCS] returns a longest common subsequence of its two token
    sequences: index pairs strictly increasing on both sides, with equal
    tokens at every pair, and no common subsequence is longer. *)
Theorem tokenLCS_longest (left right : list jsstring) :
  ∃ pairs, Patience.tokenLCS left right = Some pairs
    ∧ longest_common_subsequence left right pairs.
Proof. apply tokenLCS_spec. Qed.

(** X26.  [standardLCS] returns a longest common subsequence of its two
    line sequences; its preference for the earlier match on the right
    never shortens the result. *)
Theorem standardLCS_longest (left right : list jsstring) :
  ∃ pairs, Patience.standardLCS left right = Some pairs
    ∧ longest_common_subsequence left right pairs.
Proof.
  unfold Patience.standardLCS. destruct (_ || _) eqn:Hempty.
  - exists []. split; [done|]. split; [split; constructor|].
    intros pairs' Hcs. apply orb_true_iff in Hempty.
    rewrite !bool_decide_eq_true in Hempty.
    by rewrite (no_common_subsequence_of_empty _ _ _ Hempty Hcs).
  - destruct (while_inv Patience.back_cond
                (Patience.standardLCS_body left right (Patience.lcs_table left right))
                (BackInv left right)
                (λ st, Patience.bt_i st + Patience.bt_j st))
      with (fuel := length left + length right)
           (s := Patience.mkBackState (length left) (length right) [])
      as (st & -> & Hinv & Hexit).
    + intros s Hs Hc. by apply standardLCS_body_inv.
    + apply back_init_inv.
    + simpl. lia.
    + exists (Patience.bt_result st). split; [done|]. by apply back_exit.
Qed.

(** * The patience-diff variant: edit distance *)

Lemma lev_dist_0_r a b i : lev_dist a b i 0 = i.
Proof. by destruct i. Qed.

Lemma lev_dist_S a b i j :
  lev_dist a b (S i) (S j)
  = if bool_decide (b !! i = a !! j) then lev_dist a b i j
    else S (Nat.min (Nat.min (lev_dist a b i j) (lev_dist a b (S i) j))
                    (lev_dist a b i (S j))).
Proof. reflexivity. Qed.

Lemma dp_get_alter matrix i (f : list nat → list nat) row i' j' :
  matrix !! i = Some row →
  Patience.dp_get (alter f i matrix) i' j'
  = if bool_decide (i' = i) then default 0 (f row !! j')
    else Patience.dp_get matrix i' j'.
Proof.
  intros Hrow. unfold Patience.dp_get. case_bool_decide as Hhere.
  - subst i'. by rewrite list_lookup_alter_eq, Hrow.
  - by rewrite list_lookup_alter_ne.
Qed.

Section LevMatrix.
Variables a b : jsstring.

Lemma lev_rows_init :
  foldl (λ matrix i, Patience.js_set matrix i [i]) [] (seq 0 (S (length b)))
  = (λ i, [i]) <$> seq 0 (S (length b)).
Proof.
  apply (foldl_seq_inv (λ matrix i, Patience.js_set matrix i [i])
           (λ k matrix, matrix = (λ i, [i]) <$> seq 0 k) (S (length b)) 0 []);
    [done|].
  intros k s _ ->. unfold Patience.js_set.
  rewrite length_fmap, length_seq, bool_decide_eq_false_2 by lia.
  by rewrite seq_S, fmap_app.
Qed.

Lemma lev_first_row rows :
  foldl (λ matrix j, Patience.matrix_set matrix 0 j j) ([0] :: rows)
    (seq 0 (S (length a)))
  = seq 0 (S (length a)) :: rows.
Proof.
  assert (∀ k s, 0 ≤ k < 0 + S (length a) →
            s = seq 0 (Nat.max 1 k) :: rows →
            Patience.matrix_set s 0 k k = seq 0 (Nat.max 1 (S k)) :: rows)
    as Hstep.
  { intros k s _ ->. unfold Patience.matrix_set, Patience.js_set. simpl.
    rewrite length_seq. destruct k as [|k]; [done|].
    rewrite bool_decide_eq_false_2 by lia.
    rewrite Nat.max_r by lia. f_equal.
    change (0 :: seq 1 (S k)) with (seq 0 (S (S k))).
    by rewrite (seq_S (S k) 0). }
  exact (foldl_seq_inv (λ matrix j, Patience.matrix_set matrix 0 j j)
           (λ k matrix, matrix = seq 0 (Nat.max 1 k) :: rows)
           (S (length a)) 0 ([0] :: rows) eq_refl Hstep).
Qed.

Lemma lev_init_filled :
  lev_filled a b 1 1
    (seq 0 (S (length a)) :: ((λ i, [i]) <$> seq 1 (length b))).
Proof.
  split_and!.
  - rewrite length_cons, length_fmap, length_seq. done.
  - intros i' row Hrow. destruct i' as [|i'].
    + assert (row = seq 0 (S (length a))) as -> by (by injection Hrow).
      rewrite length_seq. by rewrite bool_decide_eq_true_2 by lia.
    + simpl in Hrow. apply list_lookup_fmap_Some in Hrow as (k & -> & _).
      rewrite bool_decide_eq_false_2 by lia. by case_bool_decide.
  - intros i' j' Hi' Hj' Hbefore. destruct i' as [|i'].
    + transitivity (default 0 (seq 0 (S (length a)) !! j')); [reflexivity|].
      rewrite lookup_seq_lt by lia. done.
    + transitivity (default 0 (((λ i, [i]) <$> seq 1 (length b)) !! i'
                               ≫= λ row, row !! j')); [reflexivity|].
      rewrite list_lookup_fmap, lookup_seq_lt by lia. simpl.
      destruct j' as [|j']; [done|]. lia.
Qed.

Lemma lev_cell_filled matrix i j :
  1 ≤ i ≤ length b → 1 ≤ j ≤ length a →
  lev_filled a b i j matrix →
  lev_filled a b i (S j) (Patience.lev_cell a b matrix i j).
Proof.
  intros Hi Hj (Hlen & Hrows & Hcells).
  destruct i as [|i]; [lia|]. destruct j as [|j]; [lia|].
  assert (Patience.lev_cell a b matrix (S i) (S j)
          = Patience.matrix_set matrix (S i) (S j) (lev_dist a b (S i) (S j)))
    as ->.
  { unfold Patience.lev_cell.
    replace (S i - 1) with i by lia. replace (S j - 1) with j by lia.
    rewrite lev_dist_S, !Hcells by lia.
    case_bool_decide; [done|]. f_equal. lia. }
  destruct (lookup_lt_is_Some_2 matrix (S i)) as [row Hrow]; [lia|].
  pose proof (Hrows _ _ Hrow) as Hrowlen.
  rewrite bool_decide_eq_false_2, bool_decide_eq_true_2 in Hrowlen by lia.
  unfold Patience.matrix_set. split_and!.
  - by rewrite length_alter.
  - intros i' row' Hrow'. destruct (decide (i' = S i)) as [->|Hne].
    + rewrite list_lookup_alter_eq, Hrow in Hrow'. injection Hrow' as <-.
      unfold Patience.js_set.
      rewrite bool_decide_eq_false_2, length_app by lia. simpl.
      rewrite bool_decide_eq_false_2, bool_decide_eq_true_2 by lia. lia.
    + rewrite list_lookup_alter_ne in Hrow' by done.
      rewrite (Hrows _ _ Hrow'). repeat case_bool_decide; lia.
  - intros i' j' Hi' Hj' Hbefore. rewrite (dp_get_alter _ _ _ _ _ _ Hrow).
    case_bool_decide as Hhere; [|apply Hcells; [done|done|lia]].
    subst i'. unfold Patience.js_set.
    rewrite bool_decide_eq_false_2 by lia.
    destruct (decide (j' = S j)) as [->|Hnej].
    + rewrite lookup_app_r by lia. rewrite Hrowlen, Nat.sub_diag. done.
    + rewrite lookup_app_l by lia.
      rewrite <-(Hcells (S i) j') by lia.
      unfold Patience.dp_get. by rewrite Hrow.
Qed.

Lemma lev_row_filled matrix i :
  1 ≤ i ≤ length b →
  lev_filled a b i 1 matrix →
  lev_filled a b (S i) 1 (Patience.lev_row a b matrix i).
Proof.
  intros Hi Hm. unfold Patience.lev_row.
  pose proof (foldl_seq_inv (λ matrix j, Patience.lev_cell a b matrix i j)
                (λ j matrix, lev_filled a b i j matrix) (length a) 1 matrix Hm)
    as Hrow.
  destruct Hrow as (Hlen & Hrows & Hcells).
  - intros k s Hk. apply lev_cell_filled; [done|lia].
  - split_and!; [done| |].
    + intros i' row Hrow. rewrite (Hrows _ _ Hrow).
      repeat case_bool_decide; lia.
    + intros i' j' Hi' Hj' Hbefore. apply Hcells; [done|done|]. lia.
Qed.

Lemma levenshtein_dist :
  Patience.levenshtein a b = lev_dist a b (length b) (length a).
Proof.
  unfold Patience.levenshtein.
  case_bool_decide as Ha; [by rewrite Ha, lev_dist_0_r|].
  case_bool_decide as Hb; [by rewrite Hb|].
  unfold Patience.lev_matrix. cbv zeta.
  rewrite lev_rows_init.
  change (seq 0 (S (length b))) with (0 :: seq 1 (length b)).
  rewrite fmap_cons, lev_first_row.
  pose proof (foldl_seq_inv (Patience.lev_row a b)
                (λ i matrix, lev_filled a b i 1 matrix) (length b) 1 _
                lev_init_filled) as Hfinal.
  destruct Hfinal as (_ & _ & Hcells).
  - intros k s Hk. apply lev_row_filled. lia.
  - apply Hcells; [done|done|]. lia.
Qed.
End LevMatrix.

Lemma lev_dist_bounds a b s :
  ∀ i j, i + j ≤ s →
    lev_dist a b i j ≤ Nat.max i j
    ∧ i - j ≤ lev_dist a b i j ∧ j - i ≤ lev_dist a b i j.
Proof.
  induction s as [|s IH]; intros i j Hs.
  - destruct i, j; simpl; lia.
  - destruct i as [|i]; [simpl; lia|]. destruct j as [|j]; [simpl; lia|].
    rewrite lev_dist_S.
    pose proof (IH i j). pose proof (IH (S i) j). pose proof (IH i (S j)).
    case_bool_decide; lia.
Qed.

Lemma lev_dist_sym a b s :
  ∀ i j, i + j ≤ s → lev_dist a b i j = lev_dist b a j i.
Proof.
  induction s as [|s IH]; intros i j Hs.
  - by destruct i, j; try lia.
  - destruct i as [|i]; [by rewrite lev_dist_0_r|].
    destruct j as [|j]; [by rewrite lev_dist_0_r|].
    rewrite !lev_dist_S.
    rewrite (IH i j), (IH (S i) j), (IH i (S j)) by lia.
    case_bool_decide as Heq.
    + by rewrite bool_decide_eq_true_2.
    + rewrite bool_decide_eq_false_2 by done. lia.
Qed.

Lemma lev_dist_same a i : lev_dist a a i i = 0.
Proof.
  induction i as [|i IH]; [done|].
  by rewrite lev_dist_S, bool_decide_eq_true_2.
Qed.

Lemma lev_dist_zero a b i :
  i ≤ length b → i ≤ length a →
  lev_dist a b i i = 0 → take i b = take i a.
Proof.
  induction i as [|i IH]; intros Hb Ha; [by rewrite !take_0|].
  rewrite lev_dist_S. case_bool_decide as Heq; [|done].
  intros Hzero.
  destruct (lookup_lt_is_Some_2 b i) as [x Hx]; [lia|].
  rewrite (take_S_r b i x Hx).
  rewrite Hx in Heq. symmetry in Heq. rewrite (take_S_r a i x Heq).
  f_equal. apply IH; [lia|lia|done].
Qed.

(** X27.  [levenshtein] returns 0 exactly when the two strings are equal. *)
Theorem levenshtein_zero_iff_equal (a b : jsstring) :
  Patience.levenshtein a b = 0 ↔ a = b.
Proof.
  rewrite levenshtein_dist. split.
  - intros Hzero.
    destruct (lev_dist_bounds a b _ (length b) (length a) (Nat.le_refl _))
      as (_ & ? & ?).
    assert (length b = length a) as Hlen by lia.
    rewrite Hlen in Hzero.
    pose proof (lev_dist_zero a b (length a)) as Heq.
    rewrite take_ge, take_ge in Heq by lia. symmetry. apply Heq; [lia|lia|done].
  - intros ->. apply lev_dist_same.
Qed.

(** X28.  [levenshtein] is symmetric, at least the difference of the two
    lengths and at most the larger length. *)
Theorem levenshtein_symmetric_bounded (a b : jsstring) :
  Patience.levenshtein a b = Patience.levenshtein b a
  ∧ length a - length b ≤ Patience.levenshtein a b
  ∧ length b - length a ≤ Patience.levenshtein a b
  ∧ Patience.levenshtein a b ≤ Nat.max (length a) (length b).
Proof.
  rewrite !levenshtein_dist.
  destruct (lev_dist_bounds a b _ (length b) (length a) (Nat.le_refl _))
    as (? & ? & ?).
  split_and!; [|lia..].
  by apply (lev_dist_sym a b (length b + length a)).
Qed.

(** ** Edit scripts *)

Lemma lev_dist_0_l a b j : lev_dist a b 0 j = j.
Proof. reflexivity. Qed.

(** One more code unit on either side changes the distance by at most 1. *)
Lemma lev_dist_step a b s :
  ∀ i j, i + j ≤ s →
    (lev_dist a b i j ≤ S (lev_dist a b (S i) j)
     ∧ lev_dist a b (S i) j ≤ S (lev_dist a b i j))
    ∧ (lev_dist a b i j ≤ S (lev_dist a b i (S j))
       ∧ lev_dist a b i (S j) ≤ S (lev_dist a b i j)).
Proof.
  induction s as [|s IH]; intros i j Hs.
  - assert (i = 0) as -> by lia. assert (j = 0) as -> by lia.
    simpl. lia.
  - split.
    + destruct j as [|j]; [rewrite !lev_dist_0_r; lia|].
      rewrite (lev_dist_S a b i j).
      destruct (IH i j) as [[??] [??]]; [lia|].
      case_bool_decide; lia.
    + destruct i as [|i]; [rewrite !lev_dist_0_l; lia|].
      rewrite (lev_dist_S a b i j).
      destruct (IH i j) as [[??] [??]]; [lia|].
      case_bool_decide; lia.
Qed.

(** The distance of two prefixes does not depend on what follows them. *)
Lemma lev_dist_prefix a b a' b' s :
  ∀ i j, i + j ≤ s → i ≤ length b → j ≤ length a →
    lev_dist (a ++ a') (b ++ b') i j = lev_dist a b i j.
Proof.
  induction s as [|s IH]; intros i j Hs Hi Hj.
  - assert (i = 0) as -> by lia. done.
  - destruct i as [|i]; [done|]. destruct j as [|j]; [by rewrite !lev_dist_0_r|].
    rewrite !lev_dist_S, !lookup_app_l by lia.
    rewrite (IH i j), (IH (S i) j), (IH i (S j)) by lia. done.
Qed.

Lemma edits_lower_bound n s t :
  edits n s t → lev_dist s t (length t) (length s) ≤ n.
Proof.
  induction 1 as [|n x s t _ IH|n x y s t _ IH|n x s t _ IH|n y s t _ IH].
  - done.
  - rewrite !length_app, !Nat.add_1_r, lev_dist_S.
    rewrite !lookup_app_r, !Nat.sub_diag by lia. simpl.
    rewrite bool_decide_eq_true_2 by done.
    by rewrite (lev_dist_prefix s t [x] [x] (length t + length s)).
  - rewrite !length_app, !Nat.add_1_r, lev_dist_S.
    pose proof (lev_dist_prefix s t [x] [y] (length t + length s)
                  (length t) (length s)) as Hpre.
    rewrite Hpre by lia. case_bool_decide; lia.
  - rewrite length_app, Nat.add_1_r.
    destruct (lev_dist_step (s ++ [x]) t (length t + length s)
                (length t) (length s)) as [_ [_ Hstep]]; [lia|].
    pose proof (lev_dist_prefix s t [x] [] (length t + length s)
                  (length t) (length s)) as Hpre.
    rewrite app_nil_r in Hpre. rewrite Hpre in Hstep by lia. lia.
  - rewrite length_app, Nat.add_1_r.
    destruct (lev_dist_step s (t ++ [y]) (length t + length s)
                (length t) (length s)) as [[_ Hstep] _]; [lia|].
    pose proof (lev_dist_prefix s t [] [y] (length t + length s)
                  (length t) (length s)) as Hpre.
    rewrite app_nil_r in Hpre. rewrite Hpre in Hstep by lia. lia.
Qed.

Lemma edits_delete_all s : edits (length s) s [].
Proof.
  induction s as [|x s IH] using rev_ind; [constructor|].
  rewrite length_app, Nat.add_1_r. by constructor.
Qed.

Lemma edits_insert_all t : edits (length t) [] t.
Proof.
  induction t as [|y t IH] using rev_ind; [constructor|].
  rewrite length_app, Nat.add_1_r. by constructor.
Qed.

Lemma edits_exist a b s :
  ∀ i j, i + j ≤ s → i ≤ length b → j ≤ length a →
    edits (lev_dist a b i j) (take j a) (take i b).
Proof.
  induction s as [|s IH]; intros i j Hs Hi Hj.
  - assert (i = 0) as -> by lia. assert (j = 0) as -> by lia. constructor.
  - destruct i as [|i].
    { rewrite lev_dist_0_l, take_0.
      pose proof (edits_delete_all (take j a)) as Hdel.
      by rewrite length_take, Nat.min_l in Hdel by lia. }
    destruct j as [|j].
    { rewrite lev_dist_0_r, take_0.
      pose proof (edits_insert_all (take (S i) b)) as Hins.
      by rewrite length_take, Nat.min_l in Hins by lia. }
    destruct (lookup_lt_is_Some_2 b i) as [y Hy]; [lia|].
    destruct (lookup_lt_is_Some_2 a j) as [x Hx]; [lia|].
    pose proof (IH i j) as Hsub. pose proof (IH (S i) j) as Hins.
    pose proof (IH i (S j)) as Hdel.
    (* [Hins] reaches the longer prefix of [b], [Hdel] starts from the
       longer prefix of [a] *)
    rewrite (take_S_r b i y Hy) in *. rewrite (take_S_r a j x Hx) in *.
    rewrite lev_dist_S. case_bool_decide as Heq.
    + rewrite Hy, Hx in Heq. injection Heq as ->.
      apply edits_keep, Hsub; lia.
    + destruct (Nat.min_spec (lev_dist a b i j) (lev_dist a b (S i) j))
        as [[? Hmin]|[? Hmin]]; rewrite Hmin;
        [destruct (Nat.min_spec (lev_dist a b i j) (lev_dist a b i (S j)))
           as [[? Hmin']|[? Hmin']]
        |destruct (Nat.min_spec (lev_dist a b (S i) j) (lev_dist a b i (S j)))
           as [[? Hmin']|[? Hmin']]]; rewrite Hmin'.
      * apply edits_subst, Hsub; lia.
      * apply edits_insert, Hdel; lia.
      * apply edits_delete, Hins; lia.
      * apply edits_insert, Hdel; lia.
Qed.

(** X29.  [levenshtein(a, b)] is the least number of single code unit
    edits (substitutions, deletions, insertions) that turn [a] into [b]:
    there is an edit script of that length, and none is shorter. *)
Theorem levenshtein_least_edits (a b : jsstring) :
  edits (Patience.levenshtein a b) a b
  ∧ ∀ n, edits n a b → Patience.levenshtein a b ≤ n.
Proof.
  rewrite levenshtein_dist. split.
  - pose proof (edits_exist a b (length b + length a) (length b) (length a))
      as Hex.
    rewrite !take_ge in Hex by lia. apply Hex; lia.
  - intros n Hn. by apply edits_lower_bound.
Qed.

(** ** The span builder of the variant *)

Lemma sorted_after (pairs : list (nat * nat)) i p :
  StronglySorted pair_before pairs → pairs !! i = Some p →
  Forall (pair_before p) (drop (S i) pairs).
Proof.
  intros Hsorted Hp.
  rewrite <-(take_drop_middle _ _ _ Hp) in Hsorted.
  apply StronglySorted_app_1_r in Hsorted.
  by inversion Hsorted.
Qed.

Section SpanInvariant.
Variables leftTokens rightTokens : list jsstring.
Variable lcs : list (nat * nat).
Hypothesis Hlcs : common_subsequence leftTokens rightTokens lcs.

Local Abbreviation SInv := (SpanInv leftTokens rightTokens lcs).
Local Abbreviation deleteRun := (Patience.deleteRun leftTokens).
Local Abbreviation insertRun := (Patience.insertRun rightTokens).

Lemma span_init_inv : SInv (Patience.mkSpanState 0 0 0 [] []).
Proof.
  constructor; simpl; try lia; try done.
  rewrite drop_0. apply Forall_forall. intros; lia.
Qed.

Lemma deleteRun_spec count st :
  Patience.sp_leftIdx st + count ≤ length leftTokens →
  span_text (Patience.sp_left st)
  = concat (take (Patience.sp_leftIdx st) leftTokens) →
  no_adjacent_same (Patience.sp_left st) →
  Forall (λ d, span_type d ≠ SInsert) (Patience.sp_left st) →
  Patience.sp_leftIdx (deleteRun count st) = Patience.sp_leftIdx st + count
  ∧ Patience.sp_rightIdx (deleteRun count st) = Patience.sp_rightIdx st
  ∧ Patience.sp_lcsIdx (deleteRun count st) = Patience.sp_lcsIdx st
  ∧ Patience.sp_right (deleteRun count st) = Patience.sp_right st
  ∧ span_text (Patience.sp_left (deleteRun count st))
    = concat (take (Patience.sp_leftIdx st + count) leftTokens)
  ∧ no_adjacent_same (Patience.sp_left (deleteRun count st))
  ∧ Forall (λ d, span_type d ≠ SInsert)
      (Patience.sp_left (deleteRun count st))
  ∧ equal_text (Patience.sp_left (deleteRun count st))
    = equal_text (Patience.sp_left st).
Proof.
  revert st. induction count as [|count IH]; intros st Hle Htext Hadj Hkinds.
  - simpl. rewrite Nat.add_0_r. done.
  - simpl. destruct (IH (Patience.emitDelete leftTokens st))
      as (H1 & H2 & H3 & H4 & H5 & H6 & H7 & H8); simpl.
    + lia.
    + rewrite appendCharDiff_text, concat_take_S by lia.
      by rewrite Htext.
    + by apply appendCharDiff_no_adjacent.
    + by apply appendCharDiff_kind.
    + simpl in *. rewrite H1, H2, H3, H4, H5, H8.
      rewrite appendCharDiff_equal_text. simpl. rewrite app_nil_r.
      rewrite <-!Nat.add_succ_r. done.
Qed.

Lemma insertRun_spec count st :
  Patience.sp_rightIdx st + count ≤ length rightTokens →
  span_text (Patience.sp_right st)
  = concat (take (Patience.sp_rightIdx st) rightTokens) →
  no_adjacent_same (Patience.sp_right st) →
  Forall (λ d, span_type d ≠ SDelete) (Patience.sp_right st) →
  Patience.sp_rightIdx (insertRun count st) = Patience.sp_rightIdx st + count
  ∧ Patience.sp_leftIdx (insertRun count st) = Patience.sp_leftIdx st
  ∧ Patience.sp_lcsIdx (insertRun count st) = Patience.sp_lcsIdx st
  ∧ Patience.sp_left (insertRun count st) = Patience.sp_left st
  ∧ span_text (Patience.sp_right (insertRun count st))
    = concat (take (Patience.sp_rightIdx st + count) rightTokens)
  ∧ no_adjacent_same (Patience.sp_right (insertRun count st))
  ∧ Forall (λ d, span_type d ≠ SDelete)
      (Patience.sp_right (insertRun count st))
  ∧ equal_text (Patience.sp_right (insertRun count st))
    = equal_text (Patience.sp_right st).
Proof.
  revert st. induction count as [|count IH]; intros st Hle Htext Hadj Hkinds.
  - simpl. rewrite Nat.add_0_r. done.
  - simpl. destruct (IH (Patience.emitInsert rightTokens st))
      as (H1 & H2 & H3 & H4 & H5 & H6 & H7 & H8); simpl.
    + lia.
    + rewrite appendCharDiff_text, concat_take_S by lia.
      by rewrite Htext.
    + by apply appendCharDiff_no_adjacent.
    + by apply appendCharDiff_kind.
    + simpl in *. rewrite H1, H2, H3, H4, H5, H8.
      rewrite appendCharDiff_equal_text. simpl. rewrite app_nil_r.
      rewrite <-!Nat.add_succ_r. done.
Qed.

(** Both runs of the else branch, up to bounds at or after the cursors. *)
Lemma runs_inv st leftBound rightBound :
  SInv st →
  Patience.sp_leftIdx st ≤ leftBound ≤ length leftTokens →
  Patience.sp_rightIdx st ≤ rightBound ≤ length rightTokens →
  Forall (λ p, leftBound ≤ p.1 ∧ rightBound ≤ p.2)
    (drop (Patience.sp_lcsIdx st) lcs) →
  ∃ st',
    insertRun
      (rightBound
       - Patience.sp_rightIdx (deleteRun (leftBound - Patience.sp_leftIdx st) st))
      (deleteRun (leftBound - Patience.sp_leftIdx st) st) = st'
    ∧ SInv st'
    ∧ Patience.sp_leftIdx st' = leftBound
    ∧ Patience.sp_rightIdx st' = rightBound.
Proof.
  intros [] Hl Hr Hahead.
  destruct (deleteRun_spec (leftBound - Patience.sp_leftIdx st) st)
    as (D1 & D2 & D3 & D4 & D5 & D6 & D7 & D8); try done; [lia|].
  set (st1 := deleteRun (leftBound - Patience.sp_leftIdx st) st) in *.
  destruct (insertRun_spec (rightBound - Patience.sp_rightIdx st1) st1)
    as (I1 & I2 & I3 & I4 & I5 & I6 & I7 & I8).
  { rewrite D2. lia. }
  { by rewrite D4, D2. }
  { by rewrite D4. }
  { by rewrite D4. }
  eexists. split; [done|].
  set (st2 := insertRun (rightBound - Patience.sp_rightIdx st1) st1) in *.
  assert (Patience.sp_leftIdx st2 = leftBound) as Hl2 by lia.
  assert (Patience.sp_rightIdx st2 = rightBound) as Hr2 by lia.
  split; [|done].
  constructor.
  - lia.
  - lia.
  - rewrite I4, D5, Hl2. f_equal. f_equal. lia.
  - rewrite I5, Hr2. f_equal. f_equal. lia.
  - by rewrite I4.
  - done.
  - by rewrite I4.
  - done.
  - by rewrite I4, D8, I3, D3.
  - by rewrite I8, D4, I3, D3.
  - by rewrite I3, D3, Hl2, Hr2.
Qed.

Lemma span_body_inv st :
  SInv st → Patience.span_cond leftTokens rightTokens st = true →
  SInv (Patience.span_body leftTokens rightTokens lcs st)
  ∧ (length leftTokens
       - Patience.sp_leftIdx (Patience.span_body leftTokens rightTokens lcs st))
    + (length rightTokens
       - Patience.sp_rightIdx (Patience.span_body leftTokens rightTokens lcs st))
    < (length leftTokens - Patience.sp_leftIdx st)
      + (length rightTokens - Patience.sp_rightIdx st).
Proof.
  intros Hinv Hcond. pose proof Hinv as [].
  destruct Hlcs as [Hmatch Hsorted].
  unfold Patience.span_cond in Hcond. apply orb_true_iff in Hcond.
  rewrite !bool_decide_eq_true in Hcond.
  unfold Patience.span_body.
  destruct (lcs !! Patience.sp_lcsIdx st) as [p|] eqn:Hp; simpl.
  - pose proof (Forall_lookup_1 _ _ _ _ Hmatch Hp) as [[tok Htok] Heq].
    pose proof (lookup_lt_Some _ _ _ Htok) as Hpl.
    assert (rightTokens !! p.2 = Some tok) as Htok' by congruence.
    pose proof (lookup_lt_Some _ _ _ Htok') as Hpr.
    pose proof (sorted_after _ _ _ Hsorted Hp) as Hafter.
    pose proof (drop_S _ _ _ Hp) as Hdrop.
    destruct (bool_decide (Patience.sp_leftIdx st = p.1)
              && bool_decide (Patience.sp_rightIdx st = p.2)) eqn:Hhere.
    + apply andb_true_iff in Hhere. rewrite !bool_decide_eq_true in Hhere.
      destruct Hhere as [Hli Hri]. split; [|simpl; lia].
      constructor; simpl.
      * lia.
      * lia.
      * rewrite appendCharDiff_text, concat_take_S by lia. by f_equal.
      * rewrite appendCharDiff_text, concat_take_S by lia. by f_equal.
      * by apply appendCharDiff_no_adjacent.
      * by apply appendCharDiff_no_adjacent.
      * by apply appendCharDiff_kind.
      * by apply appendCharDiff_kind.
      * rewrite appendCharDiff_equal_text, (take_S_r _ _ _ Hp), omap_app,
          concat_app, si_left_equal0.
        simpl. unfold tokenAt. rewrite Hli, Htok. simpl.
        by rewrite app_nil_r.
      * rewrite appendCharDiff_equal_text, (take_S_r _ _ _ Hp), omap_app,
          concat_app, si_right_equal0.
        simpl. unfold tokenAt. rewrite Hri, Htok'. simpl.
        by rewrite app_nil_r.
      * eapply Forall_impl; [exact Hafter|].
        intros q [??]. lia.
    + rewrite Hdrop in si_ahead0. inversion si_ahead0 as [|?? [Hlp Hrp] _].
      destruct (runs_inv st p.1 p.2) as (st' & -> & Hinv' & Hl' & Hr');
        [done|lia|lia| |].
      { rewrite Hdrop. constructor; [lia|].
        eapply Forall_impl; [exact Hafter|]. intros q [??]. lia. }
      split; [done|]. rewrite Hl', Hr'.
      apply andb_false_iff in Hhere. rewrite !bool_decide_eq_false in Hhere.
      lia.
  - pose proof (lookup_ge_None_1 _ _ Hp) as Hge.
    destruct (runs_inv st (length leftTokens) (length rightTokens))
      as (st' & -> & Hinv' & Hl' & Hr'); [done|lia|lia| |].
    { rewrite drop_ge by done. constructor. }
    split; [done|]. rewrite Hl', Hr'. lia.
Qed.

Lemma span_exit st :
  SInv st → Patience.span_cond leftTokens rightTokens st = false →
  span_text (Patience.sp_left st) = concat leftTokens
  ∧ span_text (Patience.sp_right st) = concat rightTokens
  ∧ equal_text (Patience.sp_left st)
    = concat (omap (λ p, leftTokens !! p.1) lcs)
  ∧ equal_text (Patience.sp_right st)
    = concat (omap (λ p, rightTokens !! p.2) lcs).
Proof.
  intros [] Hcond. destruct Hlcs as [Hmatch _].
  unfold Patience.span_cond in Hcond. apply orb_false_iff in Hcond.
  rewrite !bool_decide_eq_false in Hcond.
  assert (length lcs ≤ Patience.sp_lcsIdx st) as Hall.
  { destruct (decide (length lcs ≤ Patience.sp_lcsIdx st)) as [|Hlt]; [done|].
    destruct (lookup_lt_is_Some_2 lcs (Patience.sp_lcsIdx st)) as [p Hp];
      [lia|].
    pose proof (Forall_lookup_1 _ _ _ _ Hmatch Hp) as [[tok Htok] _].
    pose proof (lookup_lt_Some _ _ _ Htok).
    rewrite (drop_S _ _ _ Hp) in si_ahead0.
    inversion si_ahead0 as [|?? [??] _]. lia. }
  rewrite si_left_text0, si_right_text0, si_left_equal0, si_right_equal0.
  rewrite !take_ge by lia. done.
Qed.
End SpanInvariant.

(** X30.  The variant's [computeCharDiff] always returns; the spans of
    each side spell that side's line, no two neighbouring spans have the
    same kind, the left side has no Insert span and the right side no
    Delete span, and the Equal spans of both sides spell the tokens of a
    longest common subsequence of the two token sequences, the one that
    [tokenLCS] returns for them. *)
Theorem variant_computeCharDiff_longest_match (left right : jsstring) :
  ∃ leftTokens rightTokens lcs ls rs,
    tokenize left = Some leftTokens
    ∧ tokenize right = Some rightTokens
    ∧ Patience.tokenLCS leftTokens rightTokens = Some lcs
    ∧ longest_common_subsequence leftTokens rightTokens lcs
    ∧ Patience.computeCharDiff left right = Some (ls, rs)
    ∧ span_text ls = left
    ∧ span_text rs = right
    ∧ no_adjacent_same ls
    ∧ no_adjacent_same rs
    ∧ Forall (λ d, span_type d ≠ SInsert) ls
    ∧ Forall (λ d, span_type d ≠ SDelete) rs
    ∧ equal_text ls = concat (omap (λ p, leftTokens !! p.1) lcs)
    ∧ equal_text rs = concat (omap (λ p, rightTokens !! p.2) lcs).
Proof.
  destruct (tokenize_spec left) as (lt & Hlt & Hlc & _).
  destruct (tokenize_spec right) as (rt & Hrt & Hrc & _).
  destruct (tokenLCS_spec lt rt) as (lcs & Hlcs & Hlongest).
  pose proof Hlongest as [Hcs _].
  destruct (while_inv (Patience.span_cond lt rt) (Patience.span_body lt rt lcs)
              (SpanInv lt rt lcs)
              (λ st, (length lt - Patience.sp_leftIdx st)
                     + (length rt - Patience.sp_rightIdx st)))
    with (fuel := length lt + length rt)
         (s := Patience.mkSpanState 0 0 0 [] [])
    as (st & Hrun & Hinv & Hexit).
  - intros s Hs Hc. by apply span_body_inv.
  - apply span_init_inv.
  - simpl. lia.
  - destruct (span_exit lt rt lcs Hcs st Hinv Hexit) as (T1 & T2 & E1 & E2).
    exists lt, rt, lcs, (Patience.sp_left st), (Patience.sp_right st).
    unfold Patience.computeCharDiff. rewrite Hlt, Hrt. simpl.
    rewrite Hlcs. simpl. rewrite Hrun. simpl.
    destruct Hinv. split_and!; try done; congruence.
Qed.
